(** * ktsdb: key codec, range reads, aggregation, filter parser, series
  registry and tag index, embedded in Rocq.

  Integers of the Go source are modelled as [Z] with their wrap-around
  written out; byte slices as [list Z] with every element in [0, 256);
  Go strings as [string]; [float64] as the primitive binary64 floats. *)

From Stdlib Require Import ZArith List Lia PrimFloat Uint63 Ascii String.
From stdpp Require Import base option list gmap strings sorting.

Open Scope Z_scope.

Set Warnings "-clear-no-such-hyp".

(** ** Machine integers *)

Module Int.

Definition two64 : Z := 2 ^ 64.
Definition two63 : Z := 2 ^ 63.

(** Conversion to [uint64]: reduction modulo 2^64. *)
Definition to_uint64 (z : Z) : Z := z mod two64.

(** Conversion to [int64]: two's-complement reinterpretation. *)
Definition to_int64 (z : Z) : Z := (z + two63) mod two64 - two63.

(** Conversion to [byte]. *)
Definition to_byte (z : Z) : Z := Z.land z 255.

Definition is_uint64 (z : Z) : Prop := 0 <= z < two64.
Definition is_int64 (z : Z) : Prop := - two63 <= z < two63.
Definition is_byte (z : Z) : Prop := 0 <= z < 256.

(** [^x] on an [int64] and on a [uint64]. *)
Definition not_int64 (x : Z) : Z := to_int64 (Z.lnot x).
Definition not_uint64 (x : Z) : Z := to_uint64 (Z.lnot x).

(** [a / b] and [a * b] on [int64]: Go truncates the quotient toward
    zero and wraps on overflow. *)
Definition div_int64 (a b : Z) : Z := to_int64 (Z.quot a b).
Definition mul_int64 (a b : Z) : Z := to_int64 (a * b).

End Int.

(** ** Byte slices *)

Module Bytes.

(** [make([]byte, n)]. *)
Definition make (n : nat) : list Z := replicate n 0.

(** Store [bs] into [buf] from index [off]; out of range panics. *)
Definition poke (off : nat) (bs buf : list Z) : option (list Z) :=
  if decide (off + length bs ≤ length buf)%nat
  then Some (take off buf ++ bs ++ drop (off + length bs) buf)
  else None.

(** [buf[lo:hi]]; out of range panics. *)
Definition slice (lo hi : nat) (buf : list Z) : option (list Z) :=
  if decide (lo ≤ hi ∧ hi ≤ length buf)%nat
  then Some (take (hi - lo) (drop lo buf))
  else None.

(** [copy(dst, src)]: copies [min(len(dst), len(src))] bytes. *)
Definition copy (dst src : list Z) : list Z :=
  take (length dst) src ++ drop (length src) dst.

(** [bytes.Compare]. *)
Fixpoint Compare (a b : list Z) : comparison :=
  match a, b with
  | [], [] => Eq
  | [], _ :: _ => Lt
  | _ :: _, [] => Gt
  | x :: a', y :: b' =>
      match x ?= y with
      | Eq => Compare a' b'
      | c => c
      end
  end.

Definition lt (a b : list Z) : Prop := Compare a b = Lt.

(** [bytes.HasPrefix(s, prefix)]. *)
Fixpoint HasPrefix (s prefix : list Z) : bool :=
  match prefix, s with
  | [], _ => true
  | _ :: _, [] => false
  | y :: p', x :: s' => (x =? y) && HasPrefix s' p'
  end.

(** [binary.BigEndian.PutUint64]: the eight bytes it stores. *)
Definition PutUint64 (v : Z) : list Z :=
  [ Int.to_byte (Z.shiftr v 56); Int.to_byte (Z.shiftr v 48);
    Int.to_byte (Z.shiftr v 40); Int.to_byte (Z.shiftr v 32);
    Int.to_byte (Z.shiftr v 24); Int.to_byte (Z.shiftr v 16);
    Int.to_byte (Z.shiftr v 8); Int.to_byte v ].

(** [binary.BigEndian.Uint64]; fewer than eight bytes panics. *)
Definition Uint64 (b : list Z) : option Z :=
  match b with
  | b0 :: b1 :: b2 :: b3 :: b4 :: b5 :: b6 :: b7 :: _ =>
      Some (Z.lor (Z.lor (Z.lor (Z.lor (Z.lor (Z.lor (Z.lor
        b7 (Z.shiftl b6 8)) (Z.shiftl b5 16)) (Z.shiftl b4 24))
        (Z.shiftl b3 32)) (Z.shiftl b2 40)) (Z.shiftl b1 48))
        (Z.shiftl b0 56))
  | _ => None
  end.

End Bytes.

(** ** codec.go *)

Module Codec.

Definition PrefixData : Z := 100.   (* 'd' *)
Definition PrefixSeries : Z := 115. (* 's' *)
Definition PrefixIndex : Z := 105.  (* 'i' *)

Definition SeriesIDSize : nat := 8.
Definition TimestampSize : nat := 8.
Definition DataKeySize : nat := 1 + SeriesIDSize + TimestampSize.
Definition SeriesKeySize : nat := 1 + SeriesIDSize.

(** A buffer is the bytes of a slice up to its length, and the slice is
    taken to have no capacity beyond it, as the buffers the engine makes
    with [make([]byte, n)]: a store or a slice expression past the
    length panics.

    [EncodeDataKey]: the buffer after the call and the count returned. *)
Definition EncodeDataKey (buf : list Z) (seriesID timestamp : Z)
  : option (list Z * nat) :=
  buf ← Bytes.poke 0 [PrefixData] buf;
  buf ← Bytes.poke 1 (Bytes.PutUint64 seriesID) buf;
  buf ← Bytes.poke 9
          (Bytes.PutUint64 (Int.to_uint64 (Int.not_int64 timestamp))) buf;
  Some (buf, DataKeySize).

(** [DecodeDataKey]. *)
Definition DecodeDataKey (buf : list Z) : option (Z * Z) :=
  id_bytes ← Bytes.slice 1 9 buf;
  seriesID ← Bytes.Uint64 id_bytes;
  ts_bytes ← Bytes.slice 9 17 buf;
  negatedTS ← Bytes.Uint64 ts_bytes;
  Some (seriesID, Int.to_int64 (Int.not_uint64 negatedTS)).

(** [EncodeSeriesKey]. *)
Definition EncodeSeriesKey (buf : list Z) (seriesID : Z)
  : option (list Z * nat) :=
  buf ← Bytes.poke 0 [PrefixSeries] buf;
  buf ← Bytes.poke 1 (Bytes.PutUint64 seriesID) buf;
  Some (buf, SeriesKeySize).

(** [DataKeyPrefix]. *)
Definition DataKeyPrefix (buf : list Z) (seriesID : Z)
  : option (list Z * nat) :=
  buf ← Bytes.poke 0 [PrefixData] buf;
  buf ← Bytes.poke 1 (Bytes.PutUint64 seriesID) buf;
  Some (buf, (1 + SeriesIDSize)%nat).

(** [DecodeSeriesKey]. *)
Definition DecodeSeriesKey (buf : list Z) : option Z :=
  id_bytes ← Bytes.slice 1 9 buf; Bytes.Uint64 id_bytes.

(** The bytes of a Go string. *)
Definition bytesOf (s : string) : list Z :=
  (fun c => Z.of_N (N_of_ascii c)) <$> list_ascii_of_string s.

(** [n += copy(buf[n:], s)]: as many bytes as fit are copied. *)
Definition copyAt (n : nat) (src buf : list Z) : option (list Z * nat) :=
  if decide (n ≤ length buf)%nat then
    let k := Nat.min (length buf - n) (length src) in
    Some (take n buf ++ take k src ++ drop (n + k) buf, (n + k)%nat)
  else None.

(** [EncodeIndexKey]. *)
Definition EncodeIndexKey (buf : list Z) (tag value : string) (seriesID : Z)
  : option (list Z * nat) :=
  buf ← Bytes.poke 0 [PrefixIndex] buf;
  '(buf, n) ← copyAt 1 (bytesOf tag) buf;
  buf ← Bytes.poke n [58] buf;
  '(buf, n) ← copyAt (n + 1) (bytesOf value) buf;
  buf ← Bytes.poke n (Bytes.PutUint64 seriesID) buf;
  Some (buf, (n + SeriesIDSize)%nat).

(** [IndexKeyPrefixSize]. *)
Definition IndexKeyPrefixSize (tag value : string) : nat :=
  1 + String.length tag + 1 + String.length value.

(** [EncodeIndexKeyPrefix]. *)
Definition EncodeIndexKeyPrefix (buf : list Z) (tag value : string)
  : option (list Z * nat) :=
  buf ← Bytes.poke 0 [PrefixIndex] buf;
  '(buf, n) ← copyAt 1 (bytesOf tag) buf;
  buf ← Bytes.poke n [58] buf;
  copyAt (n + 1) (bytesOf value) buf.

(** The key a caller obtains from a fresh [DataKeySize] buffer. *)
Definition dataKey (seriesID timestamp : Z) : list Z :=
  [PrefixData] ++ Bytes.PutUint64 seriesID
    ++ Bytes.PutUint64 (Int.to_uint64 (Int.not_int64 timestamp)).

End Codec.

(** ** The ordered key/value store

    Badger is an external dependency; the engine relies on it for point
    reads, writes and forward iteration in [bytes.Compare] order.  A
    store is the sequence of its entries in iteration order. *)

Module Badger.

Definition Store : Type := list (list Z * list Z).

(** [txn.Get]: [None] stands for [ErrKeyNotFound]. *)
Fixpoint Get (key : list Z) (s : Store) : option (list Z) :=
  match s with
  | [] => None
  | (k, v) :: rest =>
      match Bytes.Compare key k with
      | Eq => Some v
      | _ => Get key rest
      end
  end.

(** [txn.Set]: overwrite, or insert at the key's place in the order. *)
Fixpoint Set_ (key val : list Z) (s : Store) : Store :=
  match s with
  | [] => [(key, val)]
  | (k, v) :: rest =>
      match Bytes.Compare key k with
      | Lt => (key, val) :: (k, v) :: rest
      | Eq => (key, val) :: rest
      | Gt => (k, v) :: Set_ key val rest
      end
  end.

(** [it.Seek]: the entries from the first key not below [key] on. *)
Fixpoint Seek (key : list Z) (s : Store) : Store :=
  match s with
  | [] => []
  | (k, v) :: rest =>
      match Bytes.Compare k key with
      | Lt => Seek key rest
      | _ => (k, v) :: rest
      end
  end.

(** Iteration order: keys strictly ascending. *)
Definition ordered (s : Store) : Prop := StronglySorted Bytes.lt s.*1.

End Badger.

(** ** read.go *)

Module Read.

Record DataPoint : Type := mkDataPoint { Timestamp : Z; Value : float }.

Record QueryOptions : Type := mkQueryOptions {
  Start : Z;  (* inclusive, 0 means no lower bound *)
  End_ : Z;   (* inclusive, 0 means no upper bound *)
  Limit : Z   (* 0 means no limit *)
}.

Section WithFloatBits.

(** [math.Float64frombits], from Go's library. *)
Variable Float64frombits : Z -> float.

(** [DecodeDataValue]. *)
Definition DecodeDataValue (buf : list Z) : option float :=
  bits ← Bytes.Uint64 buf; Some (Float64frombits bits).

(** The body of the [for it.Seek(seekKey); it.Valid(); it.Next()] loop of
    [Query], over the entries from the cursor on.  [it.Valid] fails at
    the end of the store and at the first key without the prefix. *)
Fixpoint scan (prefix : list Z) (opts : QueryOptions) (items : Badger.Store)
    (points : list DataPoint) : option (list DataPoint) :=
  match items with
  | [] => Some points
  | (key, val) :: rest =>
      if negb (Bytes.HasPrefix key prefix) then Some points
      else
        '(_, ts) ← Codec.DecodeDataKey key;
        if (0 <? Start opts) && (ts <? Start opts) then Some points
        else if (0 <? End_ opts) && (End_ opts <? ts) then
          scan prefix opts rest points
        else
          value ← DecodeDataValue val;
          let points := points ++ [mkDataPoint ts value] in
          if (0 <? Limit opts) && (Limit opts <=? Z.of_nat (length points))
          then Some points
          else scan prefix opts rest points
  end.

(** The seek key of [Query] and of [Iterator.Next]. *)
Definition seekKeyFor (prefix : list Z) (seriesID : Z) (opts : QueryOptions)
  : option (list Z) :=
  if 0 <? End_ opts
  then fst <$> Codec.EncodeDataKey (Bytes.make Codec.DataKeySize)
                 seriesID (End_ opts)
  else Some (Bytes.copy (Bytes.make Codec.DataKeySize) prefix).

(** [Database.Query]; [None] is a run-time panic. *)
Definition Query (db : Badger.Store) (seriesID : Z) (opts : QueryOptions)
  : option (list DataPoint) :=
  '(prefix, _) ← Codec.DataKeyPrefix
                   (Bytes.make (1 + Codec.SeriesIDSize)) seriesID;
  seekKey ← seekKeyFor prefix seriesID opts;
  scan prefix opts (Badger.Seek seekKey db) [].

End WithFloatBits.

(** The timestamps stored for a series, in iteration order. *)
Definition series_ts (seriesID : Z) (db : Badger.Store) : list Z :=
  omap (λ kv, if Bytes.HasPrefix kv.1
                   ([Codec.PrefixData] ++ Bytes.PutUint64 seriesID)
              then snd <$> Codec.DecodeDataKey kv.1 else None) db.

(** Every entry under the series prefix is a data key with an 8-byte
    value, as the write path stores them. *)
Definition well_formed (seriesID : Z) (db : Badger.Store) : Prop :=
  Forall (λ kv : list Z * list Z,
    Bytes.HasPrefix kv.1 ([Codec.PrefixData] ++ Bytes.PutUint64 seriesID)
      = true ->
    (exists ts, Int.is_int64 ts /\ kv.1 = Codec.dataKey seriesID ts)
    /\ (8 <= length kv.2)%nat) db.

End Read.

(** ** aggregate.go *)

Module Agg.

(** [type AggregateFunc int] and its constants. *)
Definition AggregateFunc : Type := Z.
Definition AggAvg : AggregateFunc := 0.
Definition AggSum : AggregateFunc := 1.
Definition AggMin : AggregateFunc := 2.
Definition AggMax : AggregateFunc := 3.
Definition AggCount : AggregateFunc := 4.

Record Bucket : Type := mkBucket {
  Timestamp : Z;
  Value : float;
  Count : Z
}.

Record AggregateOptions : Type := mkAggregateOptions {
  Func : AggregateFunc;
  BucketSize : Z
}.

Record accumulator : Type := mkAccumulator {
  sum : float;
  min : float;
  max : float;
  count : Z
}.

(** [&accumulator{}]. *)
Definition newAccumulator : accumulator := mkAccumulator 0 0 0 0.

(** [float64(n)] for an [int]. *)
Definition float64_of_int (n : Z) : float :=
  if n <? 0
  then PrimFloat.opp (PrimFloat.of_uint63 (Uint63.of_Z (- n)))
  else PrimFloat.of_uint63 (Uint63.of_Z n).

(** [accumulator.add]. *)
Definition add (v : float) (a : accumulator) : accumulator :=
  let mn := if count a =? 0 then v
            else if PrimFloat.ltb v (min a) then v else min a in
  let mx := if count a =? 0 then v
            else if PrimFloat.ltb (max a) v then v else max a in
  mkAccumulator (PrimFloat.add (sum a) v) mn mx (Int.to_int64 (count a + 1)).

(** [accumulator.compute]. *)
Definition compute (fn : AggregateFunc) (a : accumulator) : float :=
  if fn =? AggAvg then
    if count a =? 0 then 0%float
    else PrimFloat.div (sum a) (float64_of_int (count a))
  else if fn =? AggSum then sum a
  else if fn =? AggMin then min a
  else if fn =? AggMax then max a
  else if fn =? AggCount then float64_of_int (count a)
  else 0%float.

(** The bucket key of a timestamp: [(ts / bucketSize) * bucketSize]. *)
Definition bucketKey (bucketSize ts : Z) : Z :=
  Int.mul_int64 (Int.div_int64 ts bucketSize) bucketSize.

(** One iteration of the loop over the points. *)
Definition addPoint (bucketSize : Z) (buckets : gmap Z accumulator)
    (p : Read.DataPoint) : gmap Z accumulator :=
  let key := bucketKey bucketSize (Read.Timestamp p) in
  let acc := default newAccumulator (buckets !! key) in
  <[key := add (Read.Value p) acc]> buckets.

(** [sortBuckets]: ascending by timestamp.  The buckets of a map have
    distinct timestamps, so the ascending order is unique. *)
Definition bucket_le (a b : Bucket) : Prop := Timestamp a <= Timestamp b.

#[export] Instance bucket_le_dec : RelDecision bucket_le :=
  fun a b => decide (Timestamp a <= Timestamp b).

Definition sortBuckets (buckets : list Bucket) : list Bucket :=
  merge_sort bucket_le buckets.

(** [Aggregate]; [nil] is the empty list. *)
Definition Aggregate (points : list Read.DataPoint) (opts : AggregateOptions)
  : list Bucket :=
  if (length points =? 0)%nat || (BucketSize opts <=? 0) then []
  else
    let buckets := foldl (addPoint (BucketSize opts)) ∅ points in
    sortBuckets
      ((fun kv : Z * accumulator =>
          mkBucket kv.1 (compute (Func opts) kv.2) (count kv.2))
       <$> map_to_list buckets).

(** The points that fall into the bucket with key [k]. *)
Definition inBucket (bucketSize k : Z) (points : list Read.DataPoint)
  : list Read.DataPoint :=
  filter (fun p => bucketKey bucketSize (Read.Timestamp p) = k) points.

End Agg.

(** ** filter.go *)

Module Filter.

Inductive Filter : Type :=
| TagFilter (Key Value : string)
| AndFilter (Left Right : Filter)
| OrFilter (Left Right : Filter).

Inductive tokenType : Type :=
| tokenEOF | tokenIdent | tokenColon | tokenAnd | tokenOr
| tokenLParen | tokenRParen.

#[export] Instance tokenType_eq_dec : EqDecision tokenType.
Proof. solve_decision. Defined.

Record token : Type := mkToken { typ : tokenType; val : string }.

(** The input is a Go string: a sequence of bytes. *)
Record lexer : Type := mkLexer { input : list ascii; pos : nat }.

Definition newLexer (input : string) : lexer :=
  mkLexer (list_ascii_of_string input) 0.

Definition code (ch : ascii) : N := N_of_ascii ch.

Definition isIdentStart (ch : ascii) : bool :=
  ((97 <=? code ch) && (code ch <=? 122)
   || (65 <=? code ch) && (code ch <=? 90)
   || (code ch =? 95)
   || (48 <=? code ch) && (code ch <=? 57))%N.

Definition isIdentChar (ch : ascii) : bool :=
  (isIdentStart ch
   || (48 <=? code ch) && (code ch <=? 57)
   || (code ch =? 45) || (code ch =? 46))%N.

(** [unicode.IsSpace(rune(ch))] for a byte. *)
Definition isSpace (ch : ascii) : bool :=
  ((9 <=? code ch) && (code ch <=? 13) || (code ch =? 32)
   || (code ch =? 133) || (code ch =? 160))%N.

(** How many leading characters satisfy [f]. *)
Fixpoint span (f : ascii -> bool) (s : list ascii) : nat :=
  match s with
  | ch :: s' => if f ch then S (span f s') else 0%nat
  | [] => 0%nat
  end.

Definition skipWhitespace (l : lexer) : lexer :=
  mkLexer (input l) (pos l + span isSpace (drop (pos l) (input l))).

(** [strings.ToUpper] on the characters an identifier can hold. *)
Definition toUpper (ch : ascii) : ascii :=
  if ((97 <=? code ch) && (code ch <=? 122))%N
  then ascii_of_N (code ch - 32) else ch.

Definition scanIdent (l : lexer) : token * lexer :=
  let start := pos l in
  let n := span isIdentChar (drop start (input l)) in
  let val := string_of_list_ascii (take n (drop start (input l))) in
  let upper :=
    string_of_list_ascii (toUpper <$> take n (drop start (input l))) in
  let l := mkLexer (input l) (start + n) in
  if String.eqb upper "AND" then (mkToken tokenAnd val, l)
  else if String.eqb upper "OR" then (mkToken tokenOr val, l)
  else (mkToken tokenIdent val, l).

Definition next (l : lexer) : token * lexer :=
  let l := skipWhitespace l in
  match input l !! pos l with
  | None => (mkToken tokenEOF "", l)
  | Some ch =>
      if Ascii.eqb ch ":" then
        (mkToken tokenColon ":", mkLexer (input l) (pos l + 1))
      else if Ascii.eqb ch "(" then
        (mkToken tokenLParen "(", mkLexer (input l) (pos l + 1))
      else if Ascii.eqb ch ")" then
        (mkToken tokenRParen ")", mkLexer (input l) (pos l + 1))
      else if isIdentStart ch then scanIdent l
      else (mkToken tokenEOF "", mkLexer (input l) (pos l + 1))
  end.

Record parser : Type := mkParser { lex : lexer; cur : token }.

Definition newParser (input : string) : parser :=
  let '(t, l) := next (newLexer input) in mkParser l t.

Definition advance (p : parser) : parser :=
  let '(t, l) := next (lex p) in mkParser l t.

(** [fmt.Errorf("expected <what>, got %q", got)]. *)
Inductive parseError : Type := Expected (what got : string).

Inductive result : Type :=
| Ok (f : Filter)
| Err (e : parseError)
| OutOfFuel.

Definition parseTag (p : parser) : result * parser :=
  if decide (typ (cur p) <> tokenIdent)
  then (Err (Expected "tag key" (val (cur p))), p)
  else
    let key := val (cur p) in
    let p := advance p in
    if decide (typ (cur p) <> tokenColon)
    then (Err (Expected "':'" (val (cur p))), p)
    else
      let p := advance p in
      if decide (typ (cur p) <> tokenIdent)
      then (Err (Expected "tag value" (val (cur p))), p)
      else
        let value := val (cur p) in
        let p := advance p in
        (Ok (TagFilter key value), p).

(** The recursive-descent functions and their two loops.  The recursion
    of the source is on the input; here every call spends one unit of
    [fuel]. *)
Fixpoint parseExpr (fuel : nat) (p : parser) : result * parser :=
  match fuel with
  | O => (OutOfFuel, p)
  | S fuel =>
      match parseTerm fuel p with
      | (Ok left_, p) => parseExprLoop fuel left_ p
      | r => r
      end
  end
with parseExprLoop (fuel : nat) (left_ : Filter) (p : parser)
  : result * parser :=
  match fuel with
  | O => (OutOfFuel, p)
  | S fuel =>
      if decide (typ (cur p) = tokenOr) then
        let p := advance p in
        match parseTerm fuel p with
        | (Ok right_, p) => parseExprLoop fuel (OrFilter left_ right_) p
        | r => r
        end
      else (Ok left_, p)
  end
with parseTerm (fuel : nat) (p : parser) : result * parser :=
  match fuel with
  | O => (OutOfFuel, p)
  | S fuel =>
      match parseFactor fuel p with
      | (Ok left_, p) => parseTermLoop fuel left_ p
      | r => r
      end
  end
with parseTermLoop (fuel : nat) (left_ : Filter) (p : parser)
  : result * parser :=
  match fuel with
  | O => (OutOfFuel, p)
  | S fuel =>
      if decide (typ (cur p) = tokenAnd) then
        let p := advance p in
        match parseFactor fuel p with
        | (Ok right_, p) => parseTermLoop fuel (AndFilter left_ right_) p
        | r => r
        end
      else (Ok left_, p)
  end
with parseFactor (fuel : nat) (p : parser) : result * parser :=
  match fuel with
  | O => (OutOfFuel, p)
  | S fuel =>
      if decide (typ (cur p) = tokenLParen) then
        let p := advance p in
        match parseExpr fuel p with
        | (Ok expr, p) =>
            if decide (typ (cur p) <> tokenRParen)
            then (Err (Expected "')'" (val (cur p))), p)
            else (Ok expr, advance p)
        | r => r
        end
      else parseTag p
  end.

(** [strings.TrimSpace(s) == ""]: the bytes decode to white space only.
    Beyond ASCII the white-space code points are U+0085, U+00A0, U+1680,
    U+2000 to U+200A, U+2028, U+2029, U+202F, U+205F and U+3000, in their
    UTF-8 encodings. *)
Fixpoint onlySpace (s : list N) : bool :=
  match s with
  | [] => true
  | c :: s' =>
      if ((9 <=? c) && (c <=? 13) || (c =? 32))%N then onlySpace s'
      else
        match c, s' with
        | 194%N, d :: s'' =>
            ((d =? 133) || (d =? 160))%N && onlySpace s''
        | 225%N, 154%N :: 128%N :: s'' => onlySpace s''
        | 226%N, 128%N :: d :: s'' =>
            ((128 <=? d) && (d <=? 138) || (d =? 168) || (d =? 169)
             || (d =? 175))%N && onlySpace s''
        | 226%N, 129%N :: 159%N :: s'' => onlySpace s''
        | 227%N, 128%N :: 128%N :: s'' => onlySpace s''
        | _, _ => false
        end
  end.

Definition isBlank (input : string) : bool :=
  onlySpace (code <$> list_ascii_of_string input).

(** Enough fuel for any input of this length. *)
Definition fuelFor (input : string) : nat := 3 * String.length input + 6.

(** [ParseFilter]: the filter, [nil] for a blank input, or the error.
    [None] would mean the fuel ran out. *)
Definition ParseFilter (input : string)
  : option (option Filter * option parseError) :=
  if isBlank input then Some (None, None)
  else
    match parseExpr (fuelFor input) (newParser input) with
    | (Ok f, _) => Some (Some f, None)
    | (Err e, _) => Some (None, Some e)
    | (OutOfFuel, _) => None
    end.

End Filter.

(** ** tagset.go *)

Module Tagset.

Record Tag : Type := mkTag { Key : string; Value : string }.

#[export] Instance Tag_eq_dec : EqDecision Tag.
Proof. solve_decision. Defined.

Definition Tagset : Type := list Tag.

(** The [less] function given to [sort.Slice]: by key, then by value,
    strings compared byte-wise. *)
Definition less (a b : Tag) : bool :=
  if negb (String.eqb (Key a) (Key b)) then String.ltb (Key a) (Key b)
  else String.ltb (Value a) (Value b).

Definition tag_le (a b : Tag) : Prop := less b a = false.

#[export] Instance tag_le_dec : RelDecision tag_le :=
  fun a b => decide (less b a = false).

(** [Tagset.Sort].  Tags that [less] does not separate are equal, so the
    sorted order does not depend on the algorithm. *)
Definition Sort (t : Tagset) : Tagset := merge_sort tag_le t.

(** [FromMap]: [nil] for an empty map. *)
Definition FromMap (m : gmap string string) : Tagset :=
  if decide (size m = 0%nat) then []
  else Sort ((fun kv : string * string => mkTag kv.1 kv.2) <$> map_to_list m).

(** [Tagset.Get]. *)
Fixpoint Get (t : Tagset) (key : string) : string :=
  match t with
  | [] => ""
  | tag :: t' => if String.eqb (Key tag) key then Value tag else Get t' key
  end.

(** [Tagset.Equal]. *)
Fixpoint Equal (t other : Tagset) : bool :=
  match t, other with
  | [], [] => true
  | a :: t', b :: other' => bool_decide (a = b) && Equal t' other'
  | _, _ => false
  end.

End Tagset.

(** ** series.go *)

Module Series.

Record SeriesMeta : Type := mkSeriesMeta {
  Metric : string;
  Tags : Tagset.Tagset
}.

Inductive error : Type :=
| ErrKeyNotFound   (* badger.ErrKeyNotFound *)
| ErrMarshal       (* json.Marshal or json.Unmarshal failed *)
| ErrCommit        (* the transaction did not commit *)
| ErrBitmap.       (* the bitmap could not be written or read *)

(** The registry: the store and the set of ids known to be stored. *)
Record SeriesRegistry : Type := mkSeriesRegistry {
  db : Badger.Store;
  cache : gset Z
}.

Section WithLibraries.

(** [xxhash.Digest.Sum64] of the bytes written since [Reset], and the
    JSON codec, from the libraries the engine links. *)
Variable Sum64 : string -> Z.
Variable json_Marshal : SeriesMeta -> option (list Z).
Variable json_Unmarshal : list Z -> option SeriesMeta.

(** What [ComputeSeriesID] writes to the hasher, in order. *)
Definition hashInput (metric : string) (tags : Tagset.Tagset) : string :=
  String.append metric
    (String.concat ""
       ((fun t => String.append (Tagset.Key t) (Tagset.Value t)) <$> tags)).

Definition ComputeSeriesID (metric : string) (tags : Tagset.Tagset) : Z :=
  Sum64 (hashInput metric tags).

(** [GetOrCreate].  [commits] tells whether the store commits the
    transaction of [db.Update]; the cache is updated inside the closure,
    before the commit.  The result is the id, [created] and the error;
    [None] is a run-time panic. *)
Definition GetOrCreate (commits : bool) (metric : string)
    (tags : Tagset.Tagset) (r : SeriesRegistry)
  : option ((Z * bool * option error) * SeriesRegistry) :=
  let tags := Tagset.Sort tags in
  let id := ComputeSeriesID metric tags in
  if decide (id ∈ cache r) then Some ((id, false, None), r)
  else
    '(keyBuf, _) ← Codec.EncodeSeriesKey (Bytes.make Codec.SeriesKeySize) id;
    match Badger.Get keyBuf (db r) with
    | Some _ =>
        let r' := mkSeriesRegistry (db r) ({[id]} ∪ cache r) in
        Some ((id, false, if commits then None else Some ErrCommit), r')
    | None =>
        match json_Marshal (mkSeriesMeta metric tags) with
        | None => Some ((id, false, Some ErrMarshal), r)
        | Some value =>
            if commits
            then Some ((id, true, None),
                       mkSeriesRegistry (Badger.Set_ keyBuf value (db r))
                         ({[id]} ∪ cache r))
            else Some ((id, true, Some ErrCommit),
                       mkSeriesRegistry (db r) ({[id]} ∪ cache r))
        end
    end.

(** [SeriesRegistry.Get]. *)
Definition Get (id : Z) (r : SeriesRegistry)
  : option (SeriesMeta + error) :=
  '(keyBuf, _) ← Codec.EncodeSeriesKey (Bytes.make Codec.SeriesKeySize) id;
  match Badger.Get keyBuf (db r) with
  | None => Some (inr ErrKeyNotFound)
  | Some val =>
      match json_Unmarshal val with
      | Some meta => Some (inl meta)
      | None => Some (inr ErrMarshal)
      end
  end.

(** [SeriesRegistry.Exists]. *)
Definition Exists (id : Z) (r : SeriesRegistry)
  : option (bool * SeriesRegistry) :=
  if decide (id ∈ cache r) then Some (true, r)
  else
    '(keyBuf, _) ← Codec.EncodeSeriesKey (Bytes.make Codec.SeriesKeySize) id;
    match Badger.Get keyBuf (db r) with
    | Some _ => Some (true, mkSeriesRegistry (db r) ({[id]} ∪ cache r))
    | None => Some (false, r)
    end.

(** A sequence of [GetOrCreate] calls, each with its commit outcome. *)
Fixpoint run (calls : list (bool * string * Tagset.Tagset))
    (r : SeriesRegistry) : option SeriesRegistry :=
  match calls with
  | [] => Some r
  | (commits, metric, tags) :: calls' =>
      '(_, r') ← GetOrCreate commits metric tags r;
      run calls' r'
  end.



End WithLibraries.

(** The key of a series record. *)
Definition seriesKey (id : Z) : list Z :=
  [Codec.PrefixSeries] ++ Bytes.PutUint64 id.

(** Every cached id has its record in the store. *)
Definition cache_sound (r : SeriesRegistry) : Prop :=
  forall id, id ∈ cache r -> is_Some (Badger.Get (seriesKey id) (db r)).

Definition emptyRegistry : SeriesRegistry := mkSeriesRegistry [] ∅.

End Series.

(** ** index.go *)

Module Index.

(** Bitmaps live on the heap and are handled through pointers; the
    content of a [roaring64.Bitmap] is a finite set of ids. *)
Abbreviation Heap := (gmap positive (gset Z)).

(** [roaring64.New()]. *)
Definition New (h : Heap) : positive * Heap :=
  let l := fresh (dom h) in (l, <[l := ∅]> h).

(** [bm.Clone()]; a nil pointer panics. *)
Definition Clone (bm : positive) (h : Heap) : option (positive * Heap) :=
  s ← h !! bm;
  let l := fresh (dom h) in Some (l, <[l := s]> h).

(** [result.And(bm)], [result.Or(bm)] and [bm.Add(x)], in place. *)
Definition And (result bm : positive) (h : Heap) : option Heap :=
  s ← h !! result; t ← h !! bm; Some (<[result := s ∩ t]> h).

Definition Or (result bm : positive) (h : Heap) : option Heap :=
  s ← h !! result; t ← h !! bm; Some (<[result := s ∪ t]> h).

Definition Add (bm : positive) (x : Z) (h : Heap) : option Heap :=
  s ← h !! bm; Some (<[bm := {[x]} ∪ s]> h).

(** The loops [for _, bm := range bitmaps[1:]]. *)
Fixpoint andAll (result : positive) (bitmaps : list positive) (h : Heap)
  : option Heap :=
  match bitmaps with
  | [] => Some h
  | bm :: rest => h ← And result bm h; andAll result rest h
  end.

Fixpoint orAll (result : positive) (bitmaps : list positive) (h : Heap)
  : option Heap :=
  match bitmaps with
  | [] => Some h
  | bm :: rest => h ← Or result bm h; orAll result rest h
  end.

(** [Intersect]. *)
Definition Intersect (bitmaps : list positive) (h : Heap)
  : option (positive * Heap) :=
  match bitmaps with
  | [] => Some (New h)
  | [bm] => Clone bm h
  | bm :: rest =>
      '(result, h) ← Clone bm h;
      h ← andAll result rest h;
      Some (result, h)
  end.

(** [Union]. *)
Definition Union (bitmaps : list positive) (h : Heap)
  : option (positive * Heap) :=
  match bitmaps with
  | [] => Some (New h)
  | [bm] => Clone bm h
  | bm :: rest =>
      '(result, h) ← Clone bm h;
      h ← orAll result rest h;
      Some (result, h)
  end.

(** [formatTagKey]. *)
Definition formatTagKey (metric tagKey tagValue : string) : string :=
  if String.eqb tagKey "" then metric
  else String.append metric
         (String.append "#"
            (String.append tagKey (String.append ":" tagValue))).

(** The store key of a posting: ['i'] followed by the posting key. *)
Definition indexKey (key : string) : list Z :=
  Codec.PrefixIndex
    :: ((fun c => Z.of_N (N_of_ascii c)) <$> list_ascii_of_string key).

(** The tag index: the store, the cache of postings and the heap the
    cached pointers refer to. *)
Record TagIndex : Type := mkTagIndex {
  db : Badger.Store;
  cache : gmap string positive;
  heap : Heap
}.

Section WithLibraries.

(** [Bitmap.ToBytes] and [Bitmap.ReadFrom], from the roaring library. *)
Variable ToBytes : gset Z -> option (list Z).
Variable ReadFrom : list Z -> option (gset Z).

(** [getBitmap]. *)
Definition getBitmap (key : string) (idx : TagIndex)
  : (positive + Series.error) * TagIndex :=
  match cache idx !! key with
  | Some bm => (inl bm, idx)
  | None =>
      let '(bm, h) := New (heap idx) in
      match Badger.Get (indexKey key) (db idx) with
      | None => (inl bm, mkTagIndex (db idx) (<[key := bm]> (cache idx)) h)
      | Some val =>
          match ReadFrom val with
          | Some s =>
              (inl bm, mkTagIndex (db idx) (<[key := bm]> (cache idx))
                         (<[bm := s]> h))
          | None => (inr Series.ErrBitmap, mkTagIndex (db idx) (cache idx) h)
          end
      end
  end.

(** [GetSeriesIDs] and [GetAllSeriesIDs]. *)
Definition GetSeriesIDs (metric tagKey tagValue : string) (idx : TagIndex)
  : (positive + Series.error) * TagIndex :=
  getBitmap (formatTagKey metric tagKey tagValue) idx.

Definition GetAllSeriesIDs (metric : string) (idx : TagIndex)
  : (positive + Series.error) * TagIndex :=
  getBitmap metric idx.

(** [indexTag]: [LoadOrStore] receives a new bitmap on every call. *)
Definition indexTag (key : string) (seriesID : Z) (idx : TagIndex)
  : option TagIndex :=
  let '(fresh_bm, h) := New (heap idx) in
  match cache idx !! key with
  | Some bm => h ← Add bm seriesID h; Some (mkTagIndex (db idx) (cache idx) h)
  | None =>
      h ← Add fresh_bm seriesID h;
      Some (mkTagIndex (db idx) (<[key := fresh_bm]> (cache idx)) h)
  end.

(** [persistKey], on the store of the open transaction. *)
Definition persistKey (key : string) (idx : TagIndex) (txn : Badger.Store)
  : option (Badger.Store + Series.error) :=
  match cache idx !! key with
  | None => Some (inl txn)
  | Some bm =>
      s ← heap idx !! bm;
      match ToBytes s with
      | None => Some (inr Series.ErrBitmap)
      | Some data => Some (inl (Badger.Set_ (indexKey key) data txn))
      end
  end.

Fixpoint persistKeys (keys : list string) (idx : TagIndex)
    (txn : Badger.Store) : option (Badger.Store + Series.error) :=
  match keys with
  | [] => Some (inl txn)
  | key :: rest =>
      r ← persistKey key idx txn;
      match r with
      | inl txn => persistKeys rest idx txn
      | inr e => Some (inr e)
      end
  end.

(** The posting keys of a series: the metric, then one per tag. *)
Definition postingKeys (metric : string) (tags : Tagset.Tagset)
  : list string :=
  metric :: ((fun t => formatTagKey metric (Tagset.Key t) (Tagset.Value t))
             <$> tags).

(** [persist]; [commits] tells whether the transaction commits. *)
Definition persist (commits : bool) (metric : string) (tags : Tagset.Tagset)
    (idx : TagIndex) : option (option Series.error * TagIndex) :=
  r ← persistKeys (postingKeys metric tags) idx (db idx);
  match r with
  | inr e => Some (Some e, idx)
  | inl txn =>
      if commits then Some (None, mkTagIndex txn (cache idx) (heap idx))
      else Some (Some Series.ErrCommit, idx)
  end.

Fixpoint indexTags (keys : list string) (seriesID : Z) (idx : TagIndex)
  : option TagIndex :=
  match keys with
  | [] => Some idx
  | key :: rest => idx ← indexTag key seriesID idx; indexTags rest seriesID idx
  end.

(** [TagIndex.Index]. *)
Definition Index_ (commits : bool) (metric : string) (tags : Tagset.Tagset)
    (seriesID : Z) (idx : TagIndex) : option (option Series.error * TagIndex) :=
  idx ← indexTags (postingKeys metric tags) seriesID idx;
  persist commits metric tags idx.

End WithLibraries.

(** The ids of the bitmap a call returned. *)
Definition returned (res : option (positive * Heap)) : option (gset Z) :=
  '(bm, h) ← res; h !! bm.

(** A call returned a bitmap that did not exist before and left every
    bitmap of the heap [h] as it was. *)
Definition fresh_result (h : Heap) (res : option (positive * Heap)) : Prop :=
  exists bm h', res = Some (bm, h') /\ h !! bm = None
    /\ forall l s, h !! l = Some s -> h' !! l = Some s.

(** The intersection and the union of a list of sets, as the loops
    compute them. *)
Definition meet (sets : list (gset Z)) : gset Z :=
  match sets with
  | [] => ∅
  | s :: rest => foldl (fun acc t => acc ∩ t) s rest
  end.

Definition join (sets : list (gset Z)) : gset Z :=
  match sets with
  | [] => ∅
  | s :: rest => foldl (fun acc t => acc ∪ t) s rest
  end.

(** A heap with the three bitmaps {1,2}, {2,3} and {2,4}. *)
Definition heap3 : Heap :=
  <[1%positive := {[1; 2]}]>
    (<[2%positive := {[2; 3]}]> (<[3%positive := {[2; 4]}]> ∅)).

End Index.

(** ** query.go *)

Module QueryEval.

Section WithLibraries.
Variable ReadFrom : list Z -> option (gset Z).

(** [Query.evalFilter] for the metric of the query.  The three filter
    types are the only implementations of [Filter], so the [default] arm
    of the type switch is not reached.  [None] is a run-time panic. *)
Fixpoint evalFilter (metric : string) (f : Filter.Filter)
    (idx : Index.TagIndex)
  : option ((positive + Series.error) * Index.TagIndex) :=
  match f with
  | Filter.TagFilter k v => Some (Index.GetSeriesIDs ReadFrom metric k v idx)
  | Filter.AndFilter l r =>
      '(rl, idx) ← evalFilter metric l idx;
      match rl with
      | inr e => Some (inr e, idx)
      | inl left_ =>
          '(rr, idx) ← evalFilter metric r idx;
          match rr with
          | inr e => Some (inr e, idx)
          | inl right_ =>
              '(bm, h) ← Index.Intersect [left_; right_] (Index.heap idx);
              Some (inl bm,
                    Index.mkTagIndex (Index.db idx) (Index.cache idx) h)
          end
      end
  | Filter.OrFilter l r =>
      '(rl, idx) ← evalFilter metric l idx;
      match rl with
      | inr e => Some (inr e, idx)
      | inl left_ =>
          '(rr, idx) ← evalFilter metric r idx;
          match rr with
          | inr e => Some (inr e, idx)
          | inl right_ =>
              '(bm, h) ← Index.Union [left_; right_] (Index.heap idx);
              Some (inl bm,
                    Index.mkTagIndex (Index.db idx) (Index.cache idx) h)
          end
      end
  end.

(** [Query.resolveFilter]: a nil filter selects the whole metric. *)
Definition resolveFilter (metric : string) (filter : option Filter.Filter)
    (idx : Index.TagIndex)
  : option ((positive + Series.error) * Index.TagIndex) :=
  match filter with
  | None => Some (Index.GetAllSeriesIDs ReadFrom metric idx)
  | Some f => evalFilter metric f idx
  end.

(** The ids posted under a key: the cached bitmap if there is one, else
    what the store holds, else nothing. *)
Definition posting (idx : Index.TagIndex) (key : string)
  : option (gset Z) :=
  match Index.cache idx !! key with
  | Some bm => Index.heap idx !! bm
  | None =>
      match Badger.Get (Index.indexKey key) (Index.db idx) with
      | None => Some ∅
      | Some val => ReadFrom val
      end
  end.

(** The set of series a filter denotes. *)
Fixpoint denote (metric : string) (idx : Index.TagIndex)
    (f : Filter.Filter) : option (gset Z) :=
  match f with
  | Filter.TagFilter k v => posting idx (Index.formatTagKey metric k v)
  | Filter.AndFilter l r =>
      a ← denote metric idx l; b ← denote metric idx r; Some (a ∩ b)
  | Filter.OrFilter l r =>
      a ← denote metric idx l; b ← denote metric idx r; Some (a ∪ b)
  end.

End WithLibraries.

(** The ids of the bitmap the cache holds for a key. *)
Definition cached (idx : Index.TagIndex) (key : string) : option (gset Z) :=
  bm ← Index.cache idx !! key; Index.heap idx !! bm.

(** The cache as the code builds it: every cached pointer refers to a
    bitmap of the heap, and no bitmap is cached under two keys. *)
Definition index_wf (idx : Index.TagIndex) : Prop :=
  (forall key bm, Index.cache idx !! key = Some bm ->
     is_Some (Index.heap idx !! bm))
  /\ (forall k1 k2 bm, Index.cache idx !! k1 = Some bm ->
        Index.cache idx !! k2 = Some bm -> k1 = k2).

(** The index of a database opened anew on the same store. *)
Definition reopen (idx : Index.TagIndex) : Index.TagIndex :=
  Index.mkTagIndex (Index.db idx) ∅ ∅.

Definition emptyIndex : Index.TagIndex := Index.mkTagIndex [] ∅ ∅.

(** Stand-ins for the bitmap codec: the sorted ids, and back. *)
Definition idsToBytes (s : gset Z) : option (list Z) := Some (elements s).
Definition idsFromBytes (b : list Z) : option (gset Z) :=
  Some (list_to_set b).

End QueryEval.

(** ** read.go: the streaming iterator *)

Module Iter.

(** The fields of [Iterator] that [Next] uses; [it] is the Badger
    cursor, held as the entries from its position on.  The callback of
    [item.Value] returns nil, so [err] stays nil and is left out. *)
Record Iterator : Type := mkIterator {
  db : Badger.Store;
  seriesID : Z;
  opts : Read.QueryOptions;
  it : Badger.Store;
  prefix : list Z;
  started : bool;
  done : bool;
  current : Read.DataPoint
}.

(** Draining an iterator ends, panics, or runs out of fuel. *)
Inductive drained : Type :=
| Points (ps : list Read.DataPoint)
| Panics
| MoreLeft.

Section WithFloatBits.
Variable Float64frombits : Z -> float.

(** [NewIterator]. *)
Definition NewIterator (db : Badger.Store) (seriesID : Z)
    (opts : Read.QueryOptions) : option Iterator :=
  '(prefix, _) ← Codec.DataKeyPrefix
                   (Bytes.make (1 + Codec.SeriesIDSize)) seriesID;
  Some (mkIterator db seriesID opts db prefix false false
          (Read.mkDataPoint 0 0%float)).

(** The loop [for iter.it.Valid()] of [Next]: the point found, if any,
    and the cursor where the loop leaves it. *)
Fixpoint find (prefix : list Z) (opts : Read.QueryOptions)
    (items : Badger.Store)
  : option (option Read.DataPoint * Badger.Store) :=
  match items with
  | [] => Some (None, [])
  | (key, val) :: rest =>
      if negb (Bytes.HasPrefix key prefix) then Some (None, items)
      else
        '(_, ts) ← Codec.DecodeDataKey key;
        if (0 <? Read.Start opts) && (ts <? Read.Start opts)
        then Some (None, items)
        else if (0 <? Read.End_ opts) && (Read.End_ opts <? ts)
        then find prefix opts rest
        else
          value ← Read.DecodeDataValue Float64frombits val;
          Some (Some (Read.mkDataPoint ts value), items)
  end.

(** The first step of [Next]: [it.Seek(seekKey)] on the first call and
    [it.Next()] on the later ones. *)
Definition reposition (iter : Iterator) : option Badger.Store :=
  if started iter then Some (tail (it iter))
  else
    seekKey ← Read.seekKeyFor (prefix iter) (seriesID iter) (opts iter);
    Some (Badger.Seek seekKey (db iter)).

(** [Iterator.Next]; [None] is a run-time panic. *)
Definition Next (iter : Iterator) : option (bool * Iterator) :=
  if done iter then Some (false, iter)
  else
    cursor ← reposition iter;
    '(found, cursor) ← find (prefix iter) (opts iter) cursor;
    match found with
    | Some p =>
        Some (true, mkIterator (db iter) (seriesID iter) (opts iter) cursor
                      (prefix iter) true false p)
    | None =>
        Some (false, mkIterator (db iter) (seriesID iter) (opts iter) cursor
                       (prefix iter) true true (current iter))
    end.

(** [for iter.Next() { points = append(points, iter.Value()) }]. *)
Fixpoint collect (fuel : nat) (iter : Iterator) : drained :=
  match fuel with
  | O => MoreLeft
  | S fuel =>
      match Next iter with
      | None => Panics
      | Some (false, _) => Points []
      | Some (true, iter) =>
          match collect fuel iter with
          | Points ps => Points (current iter :: ps)
          | r => r
          end
      end
  end.

End WithFloatBits.

(** What a call that returns a list, or panics, leaves to collect. *)
Definition outcome (r : option (list Read.DataPoint)) : drained :=
  match r with
  | Some ps => Points ps
  | None => Panics
  end.

End Iter.

(** ** write.go *)

Module Write.

Section WithFloatBits.

(** [math.Float64bits], from Go's library. *)
Variable Float64bits : float -> Z.

(** [EncodeDataValue]. *)
Definition EncodeDataValue (buf : list Z) (value : float)
  : option (list Z * nat) :=
  buf ← Bytes.poke 0 (Bytes.PutUint64 (Float64bits value)) buf;
  Some (buf, 8%nat).

(** The encoding and the [db.Update] that end [WriteAtWithTagset], on the
    two buffers taken from the pools.  [None] is a run-time panic. *)
Definition writePoint (keyBuf valueBuf : list Z) (seriesID : Z)
    (value : float) (timestamp : Z) (db : Badger.Store)
  : option Badger.Store :=
  '(keyBuf, _) ← Codec.EncodeDataKey keyBuf seriesID timestamp;
  '(valueBuf, _) ← EncodeDataValue valueBuf value;
  Some (Badger.Set_ keyBuf valueBuf db).

(** [BatchWriter]: the database and the entries of the pending batch. *)
Record BatchWriter : Type := mkBatchWriter {
  db : Badger.Store;
  batch : list (list Z * list Z)
}.

Definition NewBatchWriter (db : Badger.Store) : BatchWriter :=
  mkBatchWriter db [].

(** [BatchWriter.WriteRaw]. *)
Definition WriteRaw (seriesID : Z) (value : float) (timestamp : Z)
    (w : BatchWriter) : option BatchWriter :=
  '(keyBuf, _) ← Codec.EncodeDataKey (Bytes.make Codec.DataKeySize)
                   seriesID timestamp;
  '(valueBuf, _) ← EncodeDataValue (Bytes.make 8) value;
  Some (mkBatchWriter (db w) (batch w ++ [(keyBuf, valueBuf)])).

(** [BatchWriter.Flush]: the pending entries are set in order. *)
Definition Flush (w : BatchWriter) : Badger.Store :=
  foldl (fun s kv => Badger.Set_ kv.1 kv.2 s) (db w) (batch w).

(** [BatchWriter.Cancel]. *)
Definition Cancel (w : BatchWriter) : Badger.Store := db w.

End WithFloatBits.

End Write.

(** ** write.go: the write path of the database *)

Module Database.

(** The store with the caches of the series registry and of the tag
    index, and the heap the cached bitmaps live on. *)
Record Database : Type := mkDatabase {
  store : Badger.Store;
  series : gset Z;
  postings : gmap string positive;
  heap : Index.Heap
}.

Definition registry (d : Database) : Series.SeriesRegistry :=
  Series.mkSeriesRegistry (store d) (series d).

Definition index (d : Database) : Index.TagIndex :=
  Index.mkTagIndex (store d) (postings d) (heap d).

Section WithLibraries.
Variable Sum64 : string -> Z.
Variable json_Marshal : Series.SeriesMeta -> option (list Z).
Variable ToBytes : gset Z -> option (list Z).
Variable Float64bits : float -> Z.

(** [Database.WriteAtWithTagset].  [commits] tells, for the transaction
    of [GetOrCreate], of [Index] and of the data point in turn, whether
    it commits.  [GetOrCreate] sorts the caller's tagset in place, so
    [Index] receives it sorted.  [None] is a run-time panic. *)
Definition WriteAtWithTagset (commits : bool * bool * bool)
    (keyBuf valueBuf : list Z) (metric : string) (value : float)
    (tagset : Tagset.Tagset) (timestamp : Z) (d : Database)
  : option (option Series.error * Database) :=
  let '(commits1, commits2, commits3) := commits in
  '((id, created, err), r) ←
    Series.GetOrCreate Sum64 json_Marshal commits1 metric tagset (registry d);
  let tagset := Tagset.Sort tagset in
  let d := mkDatabase (Series.db r) (Series.cache r) (postings d) (heap d) in
  match err with
  | Some e => Some (Some e, d)
  | None =>
      '(err, d) ←
        (if created : bool then
           '(err, idx) ← Index.Index_ ToBytes commits2 metric tagset id
                           (index d);
           Some (err, mkDatabase (Index.db idx) (series d) (Index.cache idx)
                        (Index.heap idx))
         else Some (None, d));
      match err with
      | Some e => Some (Some e, d)
      | None =>
          store' ← Write.writePoint Float64bits keyBuf valueBuf id value
                     timestamp (store d);
          if commits3 : bool
          then Some (None, mkDatabase store' (series d) (postings d) (heap d))
          else Some (Some Series.ErrCommit, d)
      end
  end.

(** [Database.WriteAt]. *)
Definition WriteAt (commits : bool * bool * bool)
    (keyBuf valueBuf : list Z) (metric : string) (value : float)
    (tags : gmap string string) (timestamp : Z) (d : Database)
  : option (option Series.error * Database) :=
  WriteAtWithTagset commits keyBuf valueBuf metric value
    (Tagset.FromMap tags) timestamp d.

End WithLibraries.

Definition emptyDatabase : Database := mkDatabase [] ∅ ∅ ∅.

End Database.

(** ** query.go and read.go: queries over several series *)

Module Exec.

(** The fields of [Query] that [Execute] reads. *)
Record Query : Type := mkQuery {
  metric : string;
  filter : option Filter.Filter;
  options : Read.QueryOptions
}.

Section WithLibraries.
Variable ReadFrom : list Z -> option (gset Z).
Variable Float64frombits : Z -> float.

(** The ids of a bitmap in the order its iterator yields them. *)
Definition Iterator (s : gset Z) : list Z := merge_sort Z.le (elements s).

(** The loop [for iter.HasNext()] of [Execute] and of [QueryByMetric]:
    the series without points in range get no entry. *)
Fixpoint gather (db : Badger.Store) (opts : Read.QueryOptions)
    (ids : list Z) (results : gmap Z (list Read.DataPoint))
  : option (gmap Z (list Read.DataPoint)) :=
  match ids with
  | [] => Some results
  | sid :: rest =>
      points ← Read.Query Float64frombits db sid opts;
      gather db opts rest
        (if decide (0 < length points)%nat then <[sid := points]> results
         else results)
  end.

(** What follows the lookup of the bitmap in both functions. *)
Definition collectSeries (opts : Read.QueryOptions)
    (found : (positive + Series.error) * Index.TagIndex)
  : option ((gmap Z (list Read.DataPoint) + Series.error) * Index.TagIndex) :=
  let '(r, idx) := found in
  match r with
  | inr e => Some (inr e, idx)
  | inl bm =>
      s ← Index.heap idx !! bm;
      results ← gather (Index.db idx) opts (Iterator s) ∅;
      Some (inl results, idx)
  end.

(** [Query.Execute]; [None] is a run-time panic. *)
Definition Execute (q : Query) (idx : Index.TagIndex)
  : option ((gmap Z (list Read.DataPoint) + Series.error) * Index.TagIndex) :=
  found ← QueryEval.resolveFilter ReadFrom (metric q) (filter q) idx;
  collectSeries (options q) found.

(** [Query.ExecuteRaw]. *)
Definition ExecuteRaw (q : Query) (idx : Index.TagIndex)
  : option ((positive + Series.error) * Index.TagIndex) :=
  QueryEval.resolveFilter ReadFrom (metric q) (filter q) idx.

(** [Database.QueryByMetric]. *)
Definition QueryByMetric (metric : string) (opts : Read.QueryOptions)
    (idx : Index.TagIndex)
  : option ((gmap Z (list Read.DataPoint) + Series.error) * Index.TagIndex) :=
  collectSeries opts (Index.GetAllSeriesIDs ReadFrom metric idx).

(** The series a query selects: those of the filter, or all of the
    metric when there is no filter. *)
Definition selected (q : Query) (idx : Index.TagIndex) : option (gset Z) :=
  match filter q with
  | Some f => QueryEval.denote ReadFrom (metric q) idx f
  | None => QueryEval.posting ReadFrom idx (metric q)
  end.

End WithLibraries.

End Exec.

(** ** Notions used to state what a read returns *)

Module ReadAux.

Section WithFloatBits.
Variable Float64frombits : Z -> float.

(** The points stored for a series, in iteration order. *)
Definition series_points (seriesID : Z) (db : Badger.Store)
  : list Read.DataPoint :=
  omap (λ kv : list Z * list Z,
          if Bytes.HasPrefix kv.1
               ([Codec.PrefixData] ++ Bytes.PutUint64 seriesID)
          then '(_, ts) ← Codec.DecodeDataKey kv.1;
               value ← Read.DecodeDataValue Float64frombits kv.2;
               Some (Read.mkDataPoint ts value)
          else None) db.

End WithFloatBits.

(** The time bounds of [QueryOptions], where a bound that is not
    positive is no bound. *)
Definition in_range (opts : Read.QueryOptions) (ts : Z) : bool :=
  negb ((0 <? Read.Start opts) && (ts <? Read.Start opts))
  && negb ((0 <? Read.End_ opts) && (Read.End_ opts <? ts)).

(** The limit of [QueryOptions], where a limit that is not positive is
    no limit. *)
Definition limited (opts : Read.QueryOptions) (ps : list Read.DataPoint)
  : list Read.DataPoint :=
  if 0 <? Read.Limit opts then take (Z.to_nat (Read.Limit opts)) ps else ps.

Definition unlimited (opts : Read.QueryOptions) : Read.QueryOptions :=
  Read.mkQueryOptions (Read.Start opts) (Read.End_ opts) 0.

(** The series holds no data key of a negative timestamp. *)
Definition nonneg (seriesID : Z) (db : Badger.Store) : Prop :=
  forall t v, Int.is_int64 t -> (Codec.dataKey seriesID t, v) ∈ db -> 0 <= t.

(** The query for the one instant [ts]. *)
Definition instant (ts : Z) : Read.QueryOptions :=
  Read.mkQueryOptions ts ts 0.

(** What the read path relies on for a series: keys in order and data
    entries as the write path stores them. *)
Definition readable (seriesID : Z) (db : Badger.Store) : Prop :=
  Badger.ordered db /\ Read.well_formed seriesID db.

End ReadAux.

(** ** Notions used to reason about the parser *)

Module FilterAux.
Import Filter.

(** Characters still ahead of the lexer. *)
Definition remaining (l : lexer) : nat := length (input l) - pos l.

(** What is left to consume, the current token included. *)
Definition measure (p : parser) : nat :=
  remaining (lex p)
  + (if decide (typ (cur p) = tokenEOF) then 0 else 1)%nat.

(** Two lexers at the same position, one on [s] and one on [s ++ t]. *)
Definition lexers_agree (s t : list ascii) (l1 l2 : lexer) : Prop :=
  input l1 = s /\ input l2 = s ++ t /\ pos l1 = pos l2
  /\ (pos l1 <= length s)%nat.

(** Two parsers that hold the same token and, unless that token is the
    end of input, lexers that agree. *)
Definition parsers_agree (s t : list ascii) (p1 p2 : parser) : Prop :=
  cur p1 = cur p2
  /\ (typ (cur p1) = tokenEOF \/ lexers_agree s t (lex p1) (lex p2)).

Definition results_agree (s t : list ascii) (x y : result * parser) : Prop :=
  x.1 = y.1 /\ parsers_agree s t x.2 y.2.

(** A tail of input that the lexer turns into end-of-input: white space,
    then a character that starts no token. *)
Definition ignored_tail (t : list ascii) : Prop :=
  exists ws c rest,
    t = ws ++ c :: rest
    /\ Forall (fun ch => isSpace ch = true) ws
    /\ isSpace c = false /\ isIdentChar c = false
    /\ c <> ":"%char /\ c <> "("%char /\ c <> ")"%char.

(** *** Expressions written without parentheses *)

(** What the lexer has not read yet. *)
Definition ahead (l : lexer) : list ascii := drop (pos l) (input l).

(** The parser holds the first token of the text [r] and its lexer has
    just read it. *)
Definition upcoming (p : parser) (r : list ascii) : Prop :=
  exists l, ahead l = r /\ next l = (cur p, lex p).

(** The text ends here or goes on with a character that no identifier
    holds. *)
Definition boundary (r : list ascii) : Prop :=
  match r with
  | [] => True
  | ch :: _ => isIdentChar ch = false
  end.

(** The token type [scanIdent] gives a word. *)
Definition wordType (w : list ascii) : tokenType :=
  let upper := string_of_list_ascii (toUpper <$> w) in
  if String.eqb upper "AND" then tokenAnd
  else if String.eqb upper "OR" then tokenOr
  else tokenIdent.

(** A tag [key:value], a conjunction of tags and a disjunction of
    conjunctions. *)
Definition tag : Type := string * string.
Definition term : Type := tag * list tag.
Definition expr : Type := term * list term.

(** A string the lexer reads as one identifier: it starts as an
    identifier starts, holds identifier characters only and is not
    [AND] or [OR] in any letter case. *)
Definition isIdent (s : string) : bool :=
  match list_ascii_of_string s with
  | [] => false
  | ch :: rest =>
      isIdentStart ch && forallb isIdentChar rest
      && bool_decide (wordType (ch :: rest) = tokenIdent)
  end.

Definition tagOk (t : tag) : bool := isIdent t.1 && isIdent t.2.
Definition termOk (t : term) : bool := tagOk t.1 && forallb tagOk t.2.
Definition exprOk (e : expr) : bool := termOk e.1 && forallb termOk e.2.

(** The text of an expression: tags joined by [" AND "] into terms,
    terms joined by [" OR "]. *)
Definition tagChars (t : tag) : list ascii :=
  list_ascii_of_string t.1 ++ ":"%char :: list_ascii_of_string t.2.

Fixpoint andTail (ts : list tag) : list ascii :=
  match ts with
  | [] => []
  | t :: ts => list_ascii_of_string " AND " ++ tagChars t ++ andTail ts
  end.

Definition termChars (t : term) : list ascii := tagChars t.1 ++ andTail t.2.

Fixpoint orTail (ts : list term) : list ascii :=
  match ts with
  | [] => []
  | t :: ts => list_ascii_of_string " OR " ++ termChars t ++ orTail ts
  end.

Definition exprChars (e : expr) : list ascii := termChars e.1 ++ orTail e.2.

Definition exprText (e : expr) : string := string_of_list_ascii (exprChars e).

(** The filter the expression stands for when [AND] binds tighter than
    [OR] and both group to the left. *)
Definition tagFilter (t : tag) : Filter := TagFilter t.1 t.2.

Definition termFilter (t : term) : Filter :=
  foldl (fun acc u => AndFilter acc (tagFilter u)) (tagFilter t.1) t.2.

Definition exprFilter (e : expr) : Filter :=
  foldl (fun acc t => OrFilter acc (termFilter t)) (termFilter e.1) e.2.

(** Fuel that is enough for the terms that follow the first. *)
Fixpoint termsFuel (ts : list term) : nat :=
  match ts with
  | [] => 1
  | t :: ts => S (length t.2 + 2 + termsFuel ts)
  end.

End FilterAux.

(** ** Sample data *)

Module Sample.

Definition bits0 (_ : Z) : float := 0%float.

(** Series 7 with points at 1000, 2000 and 3000. *)
Definition db7 : Badger.Store :=
  [ (Codec.dataKey 7 3000, Bytes.PutUint64 3);
    (Codec.dataKey 7 2000, Bytes.PutUint64 2);
    (Codec.dataKey 7 1000, Bytes.PutUint64 1) ].

Definition opts7 : Read.QueryOptions := Read.mkQueryOptions 1500 2500 1.



(** Stand-ins for the hash and the JSON encoder, to run the registry. *)
Definition lengthHash (s : string) : Z := Z.of_nat (String.length s).

Definition metricBytes (m : Series.SeriesMeta) : option (list Z) :=
  Some ((fun c => Z.of_N (N_of_ascii c))
        <$> list_ascii_of_string (Series.Metric m)).

Definition tags_a_bc : Tagset.Tagset := [Tagset.mkTag "a" "bc"].
Definition tags_ab_c : Tagset.Tagset := [Tagset.mkTag "ab" "c"].

(** An index over [db7] whose cache holds the posting of the metric. *)
Definition idx7 : Index.TagIndex :=
  Index.mkTagIndex db7 {["cpu" := 1%positive]} {[1%positive := {[7]}]}.

Definition query7 : Exec.Query := Exec.mkQuery "cpu" None opts7.

(** The four points of the aggregation test. *)
Definition points4 : list Read.DataPoint :=
  [ Read.mkDataPoint 1000 10; Read.mkDataPoint 1500 20;
    Read.mkDataPoint 2000 30; Read.mkDataPoint 2500 40 ].

End Sample.

(* ================================================================== *)
(** * Properties *)
(* ================================================================== *)

(** ** Big-endian words *)

Module BytesFacts.
Import Int Bytes.

Lemma lor_shiftl_add (lo hi k : Z) :
  0 <= k -> 0 <= lo < 2 ^ k -> Z.lor lo (Z.shiftl hi k) = lo + hi * 2 ^ k.
Proof.
  intros Hk Hlo.
  rewrite <- (Z.shiftl_mul_pow2 hi k Hk).
  enough (Hz : Z.land lo (Z.shiftl hi k) = 0).
  { pose proof (Z.add_lor_land lo (Z.shiftl hi k)) as Ha. lia. }
  apply Z.bits_inj'; intros n Hn.
  rewrite Z.land_spec, Z.bits_0.
  destruct (Z.lt_ge_cases n k) as [Hlt | Hge].
  - rewrite (Z.shiftl_spec_low hi k n Hlt). apply andb_false_r.
  - assert (Hb : Z.testbit lo n = false).
    { rewrite <- (Z.mod_small lo (2 ^ k)) by lia.
      apply Z.mod_pow2_bits_high. lia. }
    rewrite Hb. reflexivity.
Qed.

Lemma to_byte_mod (z : Z) : to_byte z = z mod 256.
Proof. unfold to_byte. exact (Z.land_ones z 8 ltac:(lia)). Qed.

Lemma to_byte_range (z : Z) : is_byte (to_byte z).
Proof. rewrite to_byte_mod. unfold is_byte. apply Z.mod_pos_bound. lia. Qed.

(** The bytes of [PutUint64] as quotients and remainders. *)
Lemma PutUint64_div (v : Z) :
  PutUint64 v =
  [ (v / 2 ^ 56) mod 256; (v / 2 ^ 48) mod 256; (v / 2 ^ 40) mod 256;
    (v / 2 ^ 32) mod 256; (v / 2 ^ 24) mod 256; (v / 2 ^ 16) mod 256;
    (v / 2 ^ 8) mod 256; v mod 256 ].
Proof.
  unfold PutUint64.
  rewrite !to_byte_mod, !Z.shiftr_div_pow2 by lia. reflexivity.
Qed.

Lemma PutUint64_length (v : Z) : length (PutUint64 v) = 8%nat.
Proof. reflexivity. Qed.

Lemma PutUint64_bytes (v : Z) : Forall is_byte (PutUint64 v).
Proof. unfold PutUint64. repeat constructor; apply to_byte_range. Qed.

(** Reading back what [PutUint64] stored. *)
Lemma Uint64_PutUint64 (v : Z) (rest : list Z) :
  is_uint64 v -> Uint64 (PutUint64 v ++ rest) = Some v.
Proof.
  unfold is_uint64, two64. intros Hv.
  rewrite PutUint64_div. cbn [app Uint64]. f_equal.
  assert (H256 : forall x, 0 <= x mod 256 < 256)
    by (intros x; apply Z.mod_pos_bound; lia).
  rewrite (lor_shiftl_add _ _ 8) by (pose proof (H256 v); lia).
  rewrite (lor_shiftl_add _ _ 16)
    by (pose proof (H256 v); pose proof (H256 (v / 2 ^ 8)); lia).
  rewrite (lor_shiftl_add _ _ 24)
    by (pose proof (H256 v); pose proof (H256 (v / 2 ^ 8));
        pose proof (H256 (v / 2 ^ 16)); lia).
  rewrite (lor_shiftl_add _ _ 32)
    by (pose proof (H256 v); pose proof (H256 (v / 2 ^ 8));
        pose proof (H256 (v / 2 ^ 16)); pose proof (H256 (v / 2 ^ 24)); lia).
  rewrite (lor_shiftl_add _ _ 40)
    by (pose proof (H256 v); pose proof (H256 (v / 2 ^ 8));
        pose proof (H256 (v / 2 ^ 16)); pose proof (H256 (v / 2 ^ 24));
        pose proof (H256 (v / 2 ^ 32)); lia).
  rewrite (lor_shiftl_add _ _ 48)
    by (pose proof (H256 v); pose proof (H256 (v / 2 ^ 8));
        pose proof (H256 (v / 2 ^ 16)); pose proof (H256 (v / 2 ^ 24));
        pose proof (H256 (v / 2 ^ 32)); pose proof (H256 (v / 2 ^ 40)); lia).
  rewrite (lor_shiftl_add _ _ 56)
    by (pose proof (H256 v); pose proof (H256 (v / 2 ^ 8));
        pose proof (H256 (v / 2 ^ 16)); pose proof (H256 (v / 2 ^ 24));
        pose proof (H256 (v / 2 ^ 32)); pose proof (H256 (v / 2 ^ 40));
        pose proof (H256 (v / 2 ^ 48)); lia).
  clear H256.
  Z.to_euclidean_division_equations. lia.
Qed.

Lemma compare_split (a b : Z) :
  (a ?= b) =
  match a / 256 ?= b / 256 with
  | Eq => a mod 256 ?= b mod 256
  | c => c
  end.
Proof.
  destruct (Z.compare_spec (a / 256) (b / 256));
  [ destruct (Z.compare_spec (a mod 256) (b mod 256)) | | ];
  first [ apply Z.compare_eq_iff | apply Z.compare_lt_iff
        | apply Z.compare_gt_iff ];
  Z.to_euclidean_division_equations; lia.
Qed.

Lemma compare_split_pow (a b k : Z) :
  0 <= k ->
  (a / 2 ^ k ?= b / 2 ^ k) =
  match a / 2 ^ (k + 8) ?= b / 2 ^ (k + 8) with
  | Eq => (a / 2 ^ k) mod 256 ?= (b / 2 ^ k) mod 256
  | c => c
  end.
Proof.
  intros Hk. rewrite (compare_split (a / 2 ^ k) (b / 2 ^ k)).
  rewrite !Z.div_div by lia.
  replace (2 ^ k * 256) with (2 ^ (k + 8))
    by (rewrite Z.pow_add_r by lia; reflexivity).
  reflexivity.
Qed.

(** Lexicographic order on the stored bytes is numeric order. *)
Lemma Compare_PutUint64 (a b : Z) :
  is_uint64 a -> is_uint64 b ->
  Compare (PutUint64 a) (PutUint64 b) = (a ?= b).
Proof.
  unfold is_uint64, two64. intros Ha Hb.
  rewrite !PutUint64_div. cbn [Compare].
  rewrite (compare_split a b).
  change (a / 256) with (a / 2 ^ 8). change (b / 256) with (b / 2 ^ 8).
  rewrite (compare_split_pow a b 8) by lia. change (8 + 8) with 16.
  rewrite (compare_split_pow a b 16) by lia. change (16 + 8) with 24.
  rewrite (compare_split_pow a b 24) by lia. change (24 + 8) with 32.
  rewrite (compare_split_pow a b 32) by lia. change (32 + 8) with 40.
  rewrite (compare_split_pow a b 40) by lia. change (40 + 8) with 48.
  rewrite (compare_split_pow a b 48) by lia. change (48 + 8) with 56.
  rewrite (compare_split_pow a b 56) by lia. change (56 + 8) with 64.
  rewrite (Z.div_small a (2 ^ 64)), (Z.div_small b (2 ^ 64)) by lia.
  change (0 ?= 0) with Eq. lazy iota.
  destruct ((a / 2 ^ 56) mod 256 ?= (b / 2 ^ 56) mod 256); try reflexivity.
  destruct ((a / 2 ^ 48) mod 256 ?= (b / 2 ^ 48) mod 256); try reflexivity.
  destruct ((a / 2 ^ 40) mod 256 ?= (b / 2 ^ 40) mod 256); try reflexivity.
  destruct ((a / 2 ^ 32) mod 256 ?= (b / 2 ^ 32) mod 256); try reflexivity.
  destruct ((a / 2 ^ 24) mod 256 ?= (b / 2 ^ 24) mod 256); try reflexivity.
  destruct ((a / 2 ^ 16) mod 256 ?= (b / 2 ^ 16) mod 256); try reflexivity.
  destruct ((a / 2 ^ 8) mod 256 ?= (b / 2 ^ 8) mod 256); try reflexivity.
  destruct (a mod 256 ?= b mod 256); reflexivity.
Qed.

Lemma Compare_app_same (p a b : list Z) :
  Compare (p ++ a) (p ++ b) = Compare a b.
Proof.
  induction p as [| x p IH]; simpl; [reflexivity |].
  rewrite Z.compare_refl. exact IH.
Qed.

End BytesFacts.

(** ** Data keys *)

Module CodecFacts.
Import Int Bytes Codec BytesFacts.

Tactic Notation "split_buffer" ident(buf) hyp(H) integer(n) :=
  do n (destruct buf as [| ? buf]; [simpl in H; lia |]).

(** The complemented timestamp as an unsigned word. *)
Lemma enc_ts_val (ts : Z) :
  is_int64 ts ->
  to_uint64 (not_int64 ts) = if ts <? 0 then - ts - 1 else two64 - ts - 1.
Proof.
  unfold is_int64, to_uint64, not_int64, to_int64, two63, two64.
  intros H. pose proof (Z.add_lnot_diag ts) as Hn.
  destruct (Z.ltb_spec ts 0); Z.to_euclidean_division_equations; lia.
Qed.

Lemma enc_ts_range (ts : Z) : is_uint64 (to_uint64 (not_int64 ts)).
Proof. unfold is_uint64, to_uint64, two64. apply Z.mod_pos_bound. lia. Qed.

Lemma dec_enc_ts (ts : Z) :
  is_int64 ts -> to_int64 (not_uint64 (to_uint64 (not_int64 ts))) = ts.
Proof.
  intros H. rewrite (enc_ts_val ts H).
  unfold not_uint64. unfold is_int64, to_uint64, to_int64, two63, two64 in *.
  destruct (Z.ltb_spec ts 0);
    match goal with |- context [Z.lnot ?x] =>
      pose proof (Z.add_lnot_diag x) end;
    Z.to_euclidean_division_equations; lia.
Qed.

Lemma poke_length (off : nat) (bs buf buf' : list Z) :
  poke off bs buf = Some buf' -> length buf' = length buf.
Proof.
  unfold poke. case_decide; [| discriminate]. intros [= <-].
  rewrite !length_app, length_take, length_drop. lia.
Qed.

(** What [EncodeDataKey] leaves in a buffer that is long enough. *)
Lemma EncodeDataKey_buf (buf : list Z) (seriesID timestamp : Z) :
  (DataKeySize <= length buf)%nat ->
  EncodeDataKey buf seriesID timestamp
  = Some (dataKey seriesID timestamp ++ drop DataKeySize buf, DataKeySize).
Proof.
  unfold DataKeySize, SeriesIDSize, TimestampSize. simpl Nat.add. intros H.
  split_buffer buf H 17. reflexivity.
Qed.

Lemma EncodeSeriesKey_buf (buf : list Z) (seriesID : Z) :
  (SeriesKeySize <= length buf)%nat ->
  EncodeSeriesKey buf seriesID
  = Some ([PrefixSeries] ++ PutUint64 seriesID ++ drop SeriesKeySize buf,
          SeriesKeySize).
Proof.
  unfold SeriesKeySize, SeriesIDSize. simpl Nat.add. intros H.
  split_buffer buf H 9. reflexivity.
Qed.

Lemma DataKeyPrefix_buf (buf : list Z) (seriesID : Z) :
  (1 + SeriesIDSize <= length buf)%nat ->
  DataKeyPrefix buf seriesID
  = Some ([PrefixData] ++ PutUint64 seriesID ++ drop (1 + SeriesIDSize) buf,
          (1 + SeriesIDSize)%nat).
Proof.
  unfold SeriesIDSize. simpl Nat.add. intros H.
  split_buffer buf H 9. reflexivity.
Qed.

Lemma Uint64_PutUint64_exact (v : Z) :
  is_uint64 v -> Uint64 (PutUint64 v) = Some v.
Proof.
  intros H. rewrite <- (app_nil_r (PutUint64 v)).
  apply Uint64_PutUint64, H.
Qed.

Lemma DecodeDataKey_dataKey (seriesID timestamp : Z) (rest : list Z) :
  is_uint64 seriesID -> is_int64 timestamp ->
  DecodeDataKey (dataKey seriesID timestamp ++ rest)
  = Some (seriesID, timestamp).
Proof.
  intros Hid Hts. unfold DecodeDataKey, dataKey.
  assert (S1 : slice 1 9 (([PrefixData] ++ PutUint64 seriesID ++
      PutUint64 (to_uint64 (not_int64 timestamp))) ++ rest)
      = Some (PutUint64 seriesID)).
  { unfold slice. rewrite decide_True by (simpl; lia). reflexivity. }
  assert (S2 : slice 9 17 (([PrefixData] ++ PutUint64 seriesID ++
      PutUint64 (to_uint64 (not_int64 timestamp))) ++ rest)
      = Some (PutUint64 (to_uint64 (not_int64 timestamp)))).
  { unfold slice. rewrite decide_True by (simpl; lia). reflexivity. }
  rewrite S1, S2. cbn [mbind option_bind].
  rewrite (Uint64_PutUint64_exact seriesID Hid). cbn [mbind option_bind].
  rewrite (Uint64_PutUint64_exact _ (enc_ts_range timestamp)).
  cbn [mbind option_bind].
  rewrite dec_enc_ts by assumption. reflexivity.
Qed.

(** Key order is the order of the complemented timestamps. *)
Lemma Compare_dataKey (seriesID ts1 ts2 : Z) :
  Compare (dataKey seriesID ts1) (dataKey seriesID ts2)
  = (to_uint64 (not_int64 ts1) ?= to_uint64 (not_int64 ts2)).
Proof.
  unfold dataKey. rewrite !app_assoc, Compare_app_same.
  apply Compare_PutUint64; apply enc_ts_range.
Qed.

(** C4. Decoding the buffer [EncodeDataKey] filled returns the series id
    and the timestamp that were encoded, for every [uint64] id and every
    [int64] timestamp, the extremes included. *)
Theorem DecodeDataKey_EncodeDataKey (buf : list Z) (seriesID timestamp : Z) :
  (DataKeySize <= length buf)%nat ->
  is_uint64 seriesID -> is_int64 timestamp ->
  exists key,
    EncodeDataKey buf seriesID timestamp = Some (key, DataKeySize)
    /\ DecodeDataKey key = Some (seriesID, timestamp).
Proof.
  intros Hlen Hid Hts. eexists. split.
  - apply EncodeDataKey_buf, Hlen.
  - apply DecodeDataKey_dataKey; assumption.
Qed.

Lemma DecodeDataKey_EncodeDataKey_extremes :
  ((DataKeySize <= length (make DataKeySize))%nat
   /\ is_uint64 (two64 - 1) /\ is_int64 (- two63))
  /\ exists key,
       EncodeDataKey (make DataKeySize) (two64 - 1) (- two63)
         = Some (key, DataKeySize)
       /\ DecodeDataKey key = Some (two64 - 1, - two63).
Proof.
  assert (H1 : (DataKeySize <= length (make DataKeySize))%nat)
    by (cbv; lia).
  assert (H2 : is_uint64 (two64 - 1)) by (unfold is_uint64, two64; lia).
  assert (H3 : is_int64 (- two63)) by (unfold is_int64, two63; lia).
  split; [auto |].
  exact (DecodeDataKey_EncodeDataKey _ _ _ H1 H2 H3).
Defined.

(** C1, at the input where the code departs from it: the key of the newer
    timestamp 0 sorts after the key of the older timestamp -1. *)
Theorem EncodeDataKey_order_across_zero :
  exists newer older,
    EncodeDataKey (make DataKeySize) 100 0 = Some (newer, DataKeySize)
    /\ EncodeDataKey (make DataKeySize) 100 (-1) = Some (older, DataKeySize)
    /\ 0 > -1
    /\ Compare newer older = Gt.
Proof.
  do 2 eexists. split; [reflexivity |]. split; [reflexivity |].
  split; [lia | reflexivity].
Qed.

End CodecFacts.

(** ** Byte-string order and the store *)

Module BadgerFacts.
Import Bytes Badger.

Lemma Compare_eq (a b : list Z) : Compare a b = Eq <-> a = b.
Proof.
  revert b. induction a as [| x a IH]; intros [| y b]; simpl;
    try (split; congruence).
  destruct (Z.compare_spec x y) as [-> | Hlt | Hgt].
  - rewrite IH. split; congruence.
  - split; [discriminate | intros [= -> _]; lia].
  - split; [discriminate | intros [= -> _]; lia].
Qed.

Lemma Compare_refl (a : list Z) : Compare a a = Eq.
Proof. apply Compare_eq. reflexivity. Qed.

Lemma Compare_antisym (a b : list Z) : Compare b a = CompOpp (Compare a b).
Proof.
  revert b. induction a as [| x a IH]; intros [| y b]; simpl; try reflexivity.
  rewrite (Z.compare_antisym x y).
  destruct (x ?= y); simpl; auto.
Qed.

Lemma lt_trans (a b c : list Z) : lt a b -> lt b c -> lt a c.
Proof.
  unfold lt. revert b c.
  induction a as [| x a IH]; intros [| y b] [| z c]; simpl; try congruence.
  destruct (Z.compare_spec x y) as [-> | Hxy | Hxy]; try discriminate.
  - destruct (Z.compare_spec y z); try discriminate; eauto.
  - intros _. destruct (Z.compare_spec y z) as [-> | Hyz | Hyz];
      try discriminate; intros _.
    + apply Z.compare_lt_iff in Hxy. rewrite Hxy. reflexivity.
    + assert (Hxz : x < z) by lia.
      apply Z.compare_lt_iff in Hxz. rewrite Hxz. reflexivity.
Qed.

#[export] Instance lt_transitive : Transitive lt.
Proof. intros a b c. apply lt_trans. Qed.

Lemma lt_irrefl (a : list Z) : ~ lt a a.
Proof. unfold lt. rewrite Compare_refl. discriminate. Qed.

(** [Seek] returns a suffix of the store. *)
Lemma Seek_suffix (key : list Z) (s : Store) :
  exists skipped, s = skipped ++ Seek key s.
Proof.
  induction s as [| [k v] s [sk IH]]; simpl.
  - exists []. reflexivity.
  - destruct (Compare k key).
    + exists []. reflexivity.
    + exists ((k, v) :: sk). simpl. congruence.
    + exists []. reflexivity.
Qed.

(** Nothing [Seek] skips is at or above the seek key. *)
Lemma Seek_skipped (key : list Z) (s : Store) :
  exists skipped, s = skipped ++ Seek key s
    /\ Forall (fun kv => lt kv.1 key) skipped.
Proof.
  induction s as [| [k v] s (sk & IH & Hall)]; simpl.
  - exists []. split; [reflexivity | constructor].
  - destruct (Compare k key) eqn:E.
    + exists []. split; [reflexivity | constructor].
    + exists ((k, v) :: sk). split; [simpl; congruence |].
      constructor; [exact E | exact Hall].
    + exists []. split; [reflexivity | constructor].
Qed.

Lemma Get_Some_elem (key val : list Z) (s : Store) :
  Get key s = Some val -> (key, val) ∈ s.
Proof.
  induction s as [| [k v] s IH]; simpl; [discriminate |].
  destruct (Compare key k) eqn:E.
  - apply Compare_eq in E. subst k. intros [= ->]. left.
  - intros H. right. auto.
  - intros H. right. auto.
Qed.

Lemma Get_Set_eq (key val : list Z) (s : Store) :
  Get key (Set_ key val s) = Some val.
Proof.
  induction s as [| [k v] s IH]; simpl.
  - rewrite Compare_refl. reflexivity.
  - destruct (Compare key k) eqn:E; simpl.
    + rewrite Compare_refl. reflexivity.
    + rewrite Compare_refl. reflexivity.
    + rewrite E. exact IH.
Qed.

Lemma Get_Set_ne (key key' val : list Z) (s : Store) :
  key <> key' -> Get key' (Set_ key val s) = Get key' s.
Proof.
  intros Hne.
  assert (Hc : Compare key' key <> Eq)
    by (rewrite Compare_eq; congruence).
  induction s as [| [k v] s IH]; simpl.
  - destruct (Compare key' key); congruence.
  - destruct (Compare key k) eqn:E; simpl.
    + apply Compare_eq in E. subst k.
      destruct (Compare key' key); congruence.
    + destruct (Compare key' key); congruence.
    + rewrite IH. reflexivity.
Qed.

Lemma Set_keys_Forall (P : list Z -> Prop) (key val : list Z) (s : Store) :
  P key -> Forall P s.*1 -> Forall P (Set_ key val s).*1.
Proof.
  intros Hk. induction s as [| [k v] s IH]; simpl; intros Hs.
  - constructor; [exact Hk | constructor].
  - inversion Hs as [| ? ? Hk' Hs']; subst.
    destruct (Compare key k); simpl.
    + constructor; assumption.
    + constructor; [exact Hk | constructor; assumption].
    + constructor; [exact Hk' | apply IH, Hs'].
Qed.

(** [Set_] keeps the iteration order. *)
Lemma Set_ordered (key val : list Z) (s : Store) :
  ordered s -> ordered (Set_ key val s).
Proof.
  unfold ordered. induction s as [| [k v] s IH]; simpl; intros Hs.
  - repeat constructor.
  - apply StronglySorted_inv in Hs as [Hs Hk].
    destruct (Compare key k) eqn:E; simpl.
    + apply Compare_eq in E. subst k. constructor; assumption.
    + constructor; [constructor; assumption |].
      constructor; [exact E |].
      eapply Forall_impl; [exact Hk |]. intros k' Hk'.
      exact (lt_trans _ _ _ E Hk').
    + constructor; [apply IH, Hs |].
      apply Set_keys_Forall; [| exact Hk].
      unfold lt. rewrite Compare_antisym, E. reflexivity.
Qed.

End BadgerFacts.

(** ** Range reads *)

Module ReadFacts.
Import Int Bytes Codec Badger Read BytesFacts CodecFacts BadgerFacts.


Lemma Uint64_long (b : list Z) :
  (8 <= length b)%nat -> is_Some (Uint64 b).
Proof.
  intros H. split_buffer b H 8. simpl. eauto.
Qed.


Lemma well_formed_app (seriesID : Z) (a b : Store) :
  well_formed seriesID (a ++ b) ->
  well_formed seriesID a /\ well_formed seriesID b.
Proof. unfold well_formed. apply Forall_app. Qed.

Lemma DecodeDataKey_exact (seriesID ts : Z) :
  is_uint64 seriesID -> is_int64 ts ->
  DecodeDataKey (dataKey seriesID ts) = Some (seriesID, ts).
Proof.
  intros. rewrite <- (app_nil_r (dataKey seriesID ts)).
  apply DecodeDataKey_dataKey; assumption.
Qed.


(** On non-negative timestamps, ascending keys are descending times. *)
Lemma dataKey_lt_nonneg (seriesID t1 t2 : Z) :
  is_int64 t1 -> is_int64 t2 -> 0 <= t1 -> 0 <= t2 ->
  lt (dataKey seriesID t1) (dataKey seriesID t2) -> t1 > t2.
Proof.
  intros H1 H2 P1 P2. unfold lt. rewrite Compare_dataKey.
  rewrite !enc_ts_val by assumption.
  destruct (Z.ltb_spec t1 0); [lia |]. destruct (Z.ltb_spec t2 0); [lia |].
  rewrite Z.compare_lt_iff. lia.
Qed.



Section WithFloatBits.
Variable Float64frombits : Z -> float.



End WithFloatBits.

End ReadFacts.

(** ** [Database.Query] *)

Module QueryFacts.
Import Int Bytes Codec Badger Read BytesFacts CodecFacts BadgerFacts ReadFacts.




End QueryFacts.

(** ** [Aggregate] *)

Module AggFacts.
Import Int Agg.

(** On [int64] operands with a positive divisor nothing wraps: the key
    is the truncated quotient times the bucket size. *)
Lemma bucketKey_quot (bucketSize ts : Z) :
  0 < bucketSize -> is_int64 bucketSize -> is_int64 ts ->
  bucketKey bucketSize ts = Z.quot ts bucketSize * bucketSize.
Proof.
  unfold is_int64, bucketKey, mul_int64, div_int64, to_int64, two63, two64.
  intros Hb Hb64 Hts.
  pose proof (Z.quot_rem' ts bucketSize) as Hqr.
  assert (Hq : - 2 ^ 63 <= Z.quot ts bucketSize < 2 ^ 63
               /\ - 2 ^ 63 <= Z.quot ts bucketSize * bucketSize < 2 ^ 63).
  { destruct (Z.le_gt_cases 0 ts) as [Hpos | Hneg].
    - pose proof (Z.rem_bound_pos ts bucketSize Hpos Hb).
      pose proof (Z.quot_pos ts bucketSize Hpos Hb). nia.
    - pose proof (Z.rem_bound_pos_neg ts bucketSize Hb ltac:(lia)).
      assert (Z.quot ts bucketSize <= 0).
      { rewrite <- (Z.opp_involutive ts), Z.quot_opp_l by lia.
        pose proof (Z.quot_pos (- ts) bucketSize ltac:(lia) Hb). lia. }
      nia. }
  destruct Hq as [Hq1 Hq2].
  rewrite (Z.mod_small (Z.quot ts bucketSize + 2 ^ 63)) by lia.
  replace (Z.quot ts bucketSize + 2 ^ 63 - 2 ^ 63)
    with (Z.quot ts bucketSize) by lia.
  rewrite Z.mod_small by lia. lia.
Qed.

Lemma foldl_snoc {A B} (f : A -> B -> A) (a : A) (l : list B) (x : B) :
  foldl f a (l ++ [x]) = f (foldl f a l) x.
Proof. revert a. induction l as [| y l IH]; intros a; simpl; auto. Qed.

Lemma inBucket_snoc (bucketSize k : Z) (l : list Read.DataPoint)
    (p : Read.DataPoint) :
  inBucket bucketSize k (l ++ [p]) =
  inBucket bucketSize k l
    ++ (if decide (bucketKey bucketSize (Read.Timestamp p) = k)
        then [p] else []).
Proof.
  unfold inBucket. rewrite filter_app. reflexivity.
Qed.

Lemma inBucket_length (bucketSize k : Z) (l : list Read.DataPoint) :
  (length (inBucket bucketSize k l) <= length l)%nat.
Proof. unfold inBucket. apply length_filter. Qed.

(** The map built by the loop: one accumulator per occupied bucket,
    counting the points of that bucket. *)
Lemma buckets_count (bucketSize : Z) (points : list Read.DataPoint) :
  Z.of_nat (length points) < two63 ->
  forall k,
    match foldl (addPoint bucketSize) ∅ points !! k with
    | Some acc =>
        count acc = Z.of_nat (length (inBucket bucketSize k points))
        /\ 0 < count acc
    | None => inBucket bucketSize k points = []
    end.
Proof.
  induction points as [| p l IH] using rev_ind; intros Hlen k.
  - simpl. rewrite lookup_empty. reflexivity.
  - rewrite length_app in Hlen. simpl in Hlen.
    rewrite foldl_snoc, inBucket_snoc. unfold addPoint at 1.
    set (m := foldl (addPoint bucketSize) ∅ l) in *.
    set (kp := bucketKey bucketSize (Read.Timestamp p)).
    specialize (IH ltac:(lia)).
    destruct (decide (kp = k)) as [Heq | Hne].
    + subst k. rewrite lookup_insert_eq. specialize (IH kp).
      pose proof (inBucket_length bucketSize kp l) as Hle.
      assert (Hc : count (default newAccumulator (m !! kp))
                   = Z.of_nat (length (inBucket bucketSize kp l))).
      { destruct (m !! kp) as [acc |]; simpl; [tauto |].
        rewrite IH. reflexivity. }
      unfold add. cbn [count]. rewrite Hc, length_app. simpl.
      unfold to_int64, two63, two64 in *.
      rewrite Z.mod_small by lia. lia.
    + rewrite lookup_insert_ne by exact Hne. rewrite app_nil_r. apply IH.
Qed.

(** Membership in the result of [Aggregate]. *)
Lemma Aggregate_elem (points : list Read.DataPoint) (opts : AggregateOptions)
    (b : Bucket) :
  points <> [] -> 0 < BucketSize opts ->
  b ∈ Aggregate points opts <->
  exists acc,
    foldl (addPoint (BucketSize opts)) ∅ points !! Timestamp b = Some acc
    /\ b = mkBucket (Timestamp b) (compute (Func opts) acc) (count acc).
Proof.
  intros Hne Hbs. unfold Aggregate.
  destruct points as [| p0 l]; [congruence |].
  replace (length (p0 :: l) =? 0)%nat with false by reflexivity.
  replace (BucketSize opts <=? 0) with false
    by (symmetry; apply Z.leb_gt; lia).
  cbn [orb]. unfold sortBuckets. rewrite merge_sort_Permutation.
  rewrite list_elem_of_fmap. split.
  - intros ([k acc] & -> & Hin). apply elem_of_map_to_list in Hin.
    exists acc. simpl. auto.
  - intros (acc & Hl & Hb). exists (Timestamp b, acc). split; [exact Hb |].
    apply elem_of_map_to_list. exact Hl.
Qed.




(** C8. The four test points with bucket size 2000 give the buckets 0 and
    2000, in this order, with values (15, 35) under AVG, (30, 70) under
    SUM and (2, 2) under COUNT. *)
Theorem Aggregate_four_points :
  Aggregate Sample.points4 (mkAggregateOptions AggAvg 2000)
    = [mkBucket 0 15 2; mkBucket 2000 35 2]
  /\ Aggregate Sample.points4 (mkAggregateOptions AggSum 2000)
    = [mkBucket 0 30 2; mkBucket 2000 70 2]
  /\ Aggregate Sample.points4 (mkAggregateOptions AggCount 2000)
    = [mkBucket 0 2 2; mkBucket 2000 2 2].
Proof. repeat split; vm_compute; reflexivity. Qed.

End AggFacts.

(** ** The filter parser *)

Module FilterFacts.
Import Filter.

(** *** Characters *)

Lemma isSpace_not_ident (ch : ascii) :
  isSpace ch = true -> isIdentChar ch = false.
Proof.
  destruct ch as [[] [] [] [] [] [] [] []]; vm_compute; congruence.
Qed.

Lemma isIdentStart_isIdentChar (ch : ascii) :
  isIdentStart ch = true -> isIdentChar ch = true.
Proof. unfold isIdentChar. intros ->. reflexivity. Qed.

Lemma isIdentStart_not_space (ch : ascii) :
  isIdentStart ch = true -> isSpace ch = false.
Proof.
  destruct ch as [[] [] [] [] [] [] [] []]; vm_compute; congruence.
Qed.

(** *** [span] *)

Lemma span_le (f : ascii -> bool) (s : list ascii) :
  (span f s <= length s)%nat.
Proof. induction s as [| c s IH]; simpl; [lia |]. destruct (f c); simpl; lia. Qed.

Lemma span_app_short (f : ascii -> bool) (s t : list ascii) :
  (span f s < length s)%nat -> span f (s ++ t) = span f s.
Proof.
  induction s as [| c s IH]; simpl; [lia |].
  destruct (f c); [| reflexivity]. intros H. f_equal. apply IH. lia.
Qed.

Lemma span_app_full (f : ascii -> bool) (s t : list ascii) :
  span f s = length s -> span f (s ++ t) = (length s + span f t)%nat.
Proof.
  induction s as [| c s IH]; simpl; [reflexivity |].
  destruct (f c); [| discriminate]. intros [= H]. f_equal. auto.
Qed.

Lemma span_all (f : ascii -> bool) (s t : list ascii) :
  Forall (fun ch => f ch = true) s -> span f (s ++ t) = (length s + span f t)%nat.
Proof.
  intros H. apply span_app_full. induction H as [| c s Hc _ IH]; simpl;
    [reflexivity |]. rewrite Hc. f_equal. exact IH.
Qed.

Lemma span_take (f : ascii -> bool) (s : list ascii) :
  Forall (fun ch => f ch = true) (take (span f s) s).
Proof.
  induction s as [| c s IH]; simpl; [constructor |].
  destruct (f c) eqn:E; simpl; [| constructor].
  constructor; assumption.
Qed.

Lemma span_stop (f : ascii -> bool) (s : list ascii) (ch : ascii) :
  s !! span f s = Some ch -> f ch = false.
Proof.
  induction s as [| c s IH]; simpl; [discriminate |].
  destruct (f c) eqn:E; simpl; [exact IH |]. intros [= <-]. exact E.
Qed.

Lemma ignored_tail_span_ident (t : list ascii) :
  FilterAux.ignored_tail t -> span isIdentChar t = 0%nat.
Proof.
  intros (ws & c & rest & -> & Hws & _ & Hc & _).
  destruct Hws as [| w ws Hw _]; simpl.
  - rewrite Hc. reflexivity.
  - rewrite (isSpace_not_ident w Hw). reflexivity.
Qed.

Lemma ignored_tail_span_space (t : list ascii) :
  FilterAux.ignored_tail t ->
  exists c, t !! span isSpace t = Some c
    /\ isSpace c = false /\ isIdentStart c = false
    /\ c <> ":"%char /\ c <> "("%char /\ c <> ")"%char.
Proof.
  intros (ws & c & rest & -> & Hws & Hsp & Hc & H1 & H2 & H3).
  exists c. rewrite span_all by exact Hws. simpl. rewrite Hsp, Nat.add_0_r.
  rewrite lookup_app_r by lia. rewrite Nat.sub_diag. simpl.
  repeat split; auto.
  destruct (isIdentStart c) eqn:E; [| reflexivity].
  rewrite (isIdentStart_isIdentChar c E) in Hc. discriminate.
Qed.

(** *** The lexer *)

Lemma scanIdent_lexer (l : lexer) :
  (scanIdent l).2
  = mkLexer (input l) (pos l + span isIdentChar (drop (pos l) (input l))).
Proof.
  unfold scanIdent. repeat match goal with
  | |- context [if ?b then _ else _] => destruct b
  end; reflexivity.
Qed.

Lemma scanIdent_not_EOF (l : lexer) : typ (scanIdent l).1 <> tokenEOF.
Proof.
  unfold scanIdent. repeat match goal with
  | |- context [if ?b then _ else _] => destruct b
  end; discriminate.
Qed.

Lemma scanIdent_token (l1 l2 : lexer) :
  pos l1 = pos l2 ->
  take (span isIdentChar (drop (pos l1) (input l1))) (drop (pos l1) (input l1))
  = take (span isIdentChar (drop (pos l2) (input l2)))
      (drop (pos l2) (input l2)) ->
  (scanIdent l1).1 = (scanIdent l2).1.
Proof. unfold scanIdent. intros _ ->. repeat match goal with
  | |- context [if ?b then _ else _] => destruct b
  end; reflexivity.
Qed.

Lemma span_ident_agree (d t : list ascii) :
  FilterAux.ignored_tail t ->
  span isIdentChar (d ++ t) = span isIdentChar d.
Proof.
  intros Ht.
  destruct (Nat.lt_ge_cases (span isIdentChar d) (length d)) as [Hlt | Hge].
  - apply span_app_short, Hlt.
  - pose proof (span_le isIdentChar d).
    rewrite span_app_full by lia.
    rewrite (ignored_tail_span_ident t Ht). lia.
Qed.

Lemma scanIdent_agree (s t : list ascii) (l1 l2 : lexer) :
  FilterAux.ignored_tail t ->
  FilterAux.lexers_agree s t l1 l2 ->
  (scanIdent l1).1 = (scanIdent l2).1
  /\ FilterAux.lexers_agree s t (scanIdent l1).2 (scanIdent l2).2.
Proof.
  intros Ht (H1 & H2 & Hp & Hle).
  assert (Hd : drop (pos l2) (input l2) = drop (pos l1) (input l1) ++ t).
  { rewrite H1, H2, <- Hp. apply drop_app_le, Hle. }
  pose proof (span_le isIdentChar (drop (pos l1) (input l1))) as Hsp.
  split.
  - apply scanIdent_token; [exact Hp |].
    rewrite Hd, span_ident_agree by exact Ht.
    rewrite take_app_le by exact Hsp. reflexivity.
  - rewrite !scanIdent_lexer. rewrite Hd, span_ident_agree by exact Ht.
    rewrite H1 in Hsp |- *. rewrite length_drop in Hsp.
    unfold FilterAux.lexers_agree. simpl. repeat split; auto; lia.
Qed.

(** The lexer reads the same token from [s] and from [s ++ t], or the
    end of input from both. *)
Lemma next_agree (s t : list ascii) (l1 l2 : lexer) :
  FilterAux.ignored_tail t ->
  FilterAux.lexers_agree s t l1 l2 ->
  (next l1).1 = (next l2).1
  /\ (typ (next l1).1 = tokenEOF
      \/ FilterAux.lexers_agree s t (next l1).2 (next l2).2).
Proof.
  intros Ht (H1 & H2 & Hp & Hle).
  unfold next, skipWhitespace. rewrite H1, H2, <- Hp. cbn [input pos].
  rewrite (drop_app_le s t (pos l1) Hle).
  set (d := drop (pos l1) s).
  assert (Hdl : length d = (length s - pos l1)%nat) by apply length_drop.
  destruct (Nat.lt_ge_cases (span isSpace d) (length d)) as [Hlt | Hge].
  - rewrite (span_app_short isSpace d t Hlt).
    set (q := (pos l1 + span isSpace d)%nat).
    assert (Hq : (q < length s)%nat) by (unfold q; lia).
    rewrite (lookup_app_l s t q Hq).
    destruct (lookup_lt_is_Some_2 s q Hq) as [ch Hch]. rewrite Hch.
    assert (HL : FilterAux.lexers_agree s t (mkLexer s q) (mkLexer (s ++ t) q))
      by (unfold FilterAux.lexers_agree; simpl; repeat split; auto; lia).
    assert (HL1 : FilterAux.lexers_agree s t
                    (mkLexer s (q + 1)) (mkLexer (s ++ t) (q + 1)))
      by (unfold FilterAux.lexers_agree; simpl; repeat split; auto; lia).
    destruct (Ascii.eqb ch ":"); [simpl; auto |].
    destruct (Ascii.eqb ch "("); [simpl; auto |].
    destruct (Ascii.eqb ch ")"); [simpl; auto |].
    destruct (isIdentStart ch); [| simpl; auto].
    destruct (scanIdent_agree s t _ _ Ht HL). auto.
  - pose proof (span_le isSpace d) as Hsp.
    rewrite (span_app_full isSpace d t) by lia.
    replace (pos l1 + span isSpace d)%nat with (length s) by lia.
    rewrite (lookup_ge_None_2 s (length s)) by lia.
    destruct (ignored_tail_span_space t Ht)
      as (c & Hc & Hsp' & Hid & Hn1 & Hn2 & Hn3).
    replace (pos l1 + (length d + span isSpace t))%nat
      with (length s + span isSpace t)%nat by lia.
    rewrite lookup_app_r by lia.
    replace (length s + span isSpace t - length s)%nat
      with (span isSpace t) by lia.
    rewrite Hc.
    apply Ascii.eqb_neq in Hn1, Hn2, Hn3. rewrite Hn1, Hn2, Hn3, Hid.
    simpl. auto.
Qed.

Lemma next_input (l : lexer) : input (next l).2 = input l.
Proof.
  unfold next. cbn [input pos skipWhitespace].
  destruct (_ !! _) as [ch |]; [| reflexivity].
  repeat match goal with
  | |- context [if ?b then _ else _] => destruct b
  end; try reflexivity.
  rewrite scanIdent_lexer. reflexivity.
Qed.

(** Every token read shortens what is ahead; a real token strictly. *)
Lemma next_remaining (l : lexer) :
  (FilterAux.remaining (next l).2 <= FilterAux.remaining l)%nat
  /\ (typ (next l).1 <> tokenEOF ->
      (FilterAux.remaining (next l).2 < FilterAux.remaining l)%nat).
Proof.
  unfold next, FilterAux.remaining. cbn [input pos skipWhitespace].
  pose proof (span_le isSpace (drop (pos l) (input l))) as Hsp.
  rewrite length_drop in Hsp.
  set (q := (pos l + span isSpace (drop (pos l) (input l)))%nat) in *.
  destruct (input l !! q) as [ch |] eqn:Hch.
  2:{ simpl. split; [lia | congruence]. }
  pose proof (lookup_lt_Some _ _ _ Hch) as Hq.
  destruct (Ascii.eqb ch ":"); [simpl; lia |].
  destruct (Ascii.eqb ch "("); [simpl; lia |].
  destruct (Ascii.eqb ch ")"); [simpl; lia |].
  destruct (isIdentStart ch) eqn:Hid; [| simpl; lia].
  rewrite scanIdent_lexer. unfold skipWhitespace. cbn [input pos]. fold q.
  assert (Hn : (1 <= span isIdentChar (drop q (input l)))%nat).
  { rewrite (drop_S _ _ _ Hch). simpl.
    rewrite (isIdentStart_isIdentChar ch Hid). lia. }
  lia.
Qed.

Lemma advance_measure (p : parser) :
  typ (cur p) <> tokenEOF ->
  (FilterAux.measure (advance p) < FilterAux.measure p)%nat.
Proof.
  intros Hne. unfold FilterAux.measure, advance.
  destruct (next_remaining (lex p)) as [Hle Hlt].
  destruct (next (lex p)) as [t l']. cbn [lex cur fst snd] in *.
  rewrite (decide_False (P := typ (cur p) = tokenEOF)) by exact Hne.
  destruct (decide (typ t = tokenEOF)); [lia |].
  specialize (Hlt ltac:(assumption)). lia.
Qed.

Lemma advance_agree (s t : list ascii) (p1 p2 : parser) :
  FilterAux.ignored_tail t ->
  FilterAux.parsers_agree s t p1 p2 ->
  typ (cur p1) <> tokenEOF ->
  FilterAux.parsers_agree s t (advance p1) (advance p2).
Proof.
  intros Ht [Hc [He | HL]] Hne; [contradiction |].
  destruct (next_agree s t _ _ Ht HL) as [Htok Hl].
  unfold advance, FilterAux.parsers_agree.
  destruct (next (lex p1)) as [t1 l1], (next (lex p2)) as [t2 l2].
  simpl in *. subst t2. auto.
Qed.

(** *** The parser *)

Lemma parseExpr_S (n : nat) (p : parser) :
  parseExpr (S n) p =
  match parseTerm n p with
  | (Ok l, p) => parseExprLoop n l p
  | r => r
  end.
Proof. reflexivity. Qed.

Lemma parseExprLoop_S (n : nat) (l : Filter.Filter) (p : parser) :
  parseExprLoop (S n) l p =
  if decide (typ (cur p) = tokenOr) then
    match parseTerm n (advance p) with
    | (Ok r, p) => parseExprLoop n (OrFilter l r) p
    | r => r
    end
  else (Ok l, p).
Proof. reflexivity. Qed.

Lemma parseTerm_S (n : nat) (p : parser) :
  parseTerm (S n) p =
  match parseFactor n p with
  | (Ok l, p) => parseTermLoop n l p
  | r => r
  end.
Proof. reflexivity. Qed.

Lemma parseTermLoop_S (n : nat) (l : Filter.Filter) (p : parser) :
  parseTermLoop (S n) l p =
  if decide (typ (cur p) = tokenAnd) then
    match parseFactor n (advance p) with
    | (Ok r, p) => parseTermLoop n (AndFilter l r) p
    | r => r
    end
  else (Ok l, p).
Proof. reflexivity. Qed.

Lemma parseFactor_S (n : nat) (p : parser) :
  parseFactor (S n) p =
  if decide (typ (cur p) = tokenLParen) then
    match parseExpr n (advance p) with
    | (Ok e, p) =>
        if decide (typ (cur p) <> tokenRParen)
        then (Err (Expected "')'" (val (cur p))), p)
        else (Ok e, advance p)
    | r => r
    end
  else parseTag p.
Proof. reflexivity. Qed.

Section Agreement.
Variables s t : list ascii.
Hypothesis Ht : FilterAux.ignored_tail t.

Local Abbreviation agree := (FilterAux.results_agree s t).
Local Abbreviation pagree := (FilterAux.parsers_agree s t).

Lemma agree_intro (r : result) (p1 p2 : parser) :
  pagree p1 p2 -> agree (r, p1) (r, p2).
Proof. intros H. split; [reflexivity | exact H]. Qed.

Lemma parseTag_agree (p1 p2 : parser) :
  pagree p1 p2 -> agree (parseTag p1) (parseTag p2).
Proof.
  intros HR. unfold parseTag.
  pose proof HR as [Hc _]. rewrite <- Hc.
  destruct (decide (typ (cur p1) <> tokenIdent)) as [| Hid];
    [apply agree_intro, HR |].
  assert (HR1 : pagree (advance p1) (advance p2)).
  { apply advance_agree; auto. intros E. apply Hid. rewrite E. discriminate. }
  pose proof HR1 as [Hc1 _]. rewrite <- Hc1.
  destruct (decide (typ (cur (advance p1)) <> tokenColon)) as [| Hcol];
    [apply agree_intro, HR1 |].
  assert (HR2 : pagree (advance (advance p1)) (advance (advance p2))).
  { apply advance_agree; auto. intros E. apply Hcol. rewrite E. discriminate. }
  pose proof HR2 as [Hc2 _]. rewrite <- Hc2.
  destruct (decide (typ (cur (advance (advance p1))) <> tokenIdent))
    as [| Hid2]; [apply agree_intro, HR2 |].
  apply agree_intro, advance_agree; auto.
  intros E. apply Hid2. rewrite E. discriminate.
Qed.

(** With the same fuel, the five functions give the same result on [s]
    and on [s ++ t]. *)
Lemma parse_agree (n : nat) :
  (forall p1 p2, pagree p1 p2 -> agree (parseExpr n p1) (parseExpr n p2))
  /\ (forall l p1 p2, pagree p1 p2 ->
        agree (parseExprLoop n l p1) (parseExprLoop n l p2))
  /\ (forall p1 p2, pagree p1 p2 -> agree (parseTerm n p1) (parseTerm n p2))
  /\ (forall l p1 p2, pagree p1 p2 ->
        agree (parseTermLoop n l p1) (parseTermLoop n l p2))
  /\ (forall p1 p2, pagree p1 p2 ->
        agree (parseFactor n p1) (parseFactor n p2)).
Proof.
  induction n as [| n (IHe & IHel & IHt & IHtl & IHf)].
  { repeat apply conj; intros; simpl; apply agree_intro; assumption. }
  assert (Hadv : forall p1 p2 ty, pagree p1 p2 -> typ (cur p1) = ty ->
            ty <> tokenEOF -> pagree (advance p1) (advance p2)).
  { intros p1 p2 ty HR E Hne. apply advance_agree; auto. congruence. }
  split; [| split; [| split; [| split]]].
  - intros p1 p2 HR. rewrite !parseExpr_S.
    destruct (IHt p1 p2 HR) as [Hr HR'].
    destruct (parseTerm n p1) as [r1 q1], (parseTerm n p2) as [r2 q2].
    simpl in Hr, HR'. subst r2.
    destruct r1; [apply IHel, HR' | |]; apply agree_intro, HR'.
  - intros l p1 p2 HR. rewrite !parseExprLoop_S.
    pose proof HR as [Hc _]. rewrite <- Hc.
    destruct (decide (typ (cur p1) = tokenOr)) as [E |];
      [| apply agree_intro, HR].
    destruct (IHt _ _ (Hadv _ _ _ HR E ltac:(discriminate))) as [Hr HR'].
    destruct (parseTerm n (advance p1)) as [r1 q1],
             (parseTerm n (advance p2)) as [r2 q2].
    simpl in Hr, HR'. subst r2.
    destruct r1; [apply IHel, HR' | |]; apply agree_intro, HR'.
  - intros p1 p2 HR. rewrite !parseTerm_S.
    destruct (IHf p1 p2 HR) as [Hr HR'].
    destruct (parseFactor n p1) as [r1 q1], (parseFactor n p2) as [r2 q2].
    simpl in Hr, HR'. subst r2.
    destruct r1; [apply IHtl, HR' | |]; apply agree_intro, HR'.
  - intros l p1 p2 HR. rewrite !parseTermLoop_S.
    pose proof HR as [Hc _]. rewrite <- Hc.
    destruct (decide (typ (cur p1) = tokenAnd)) as [E |];
      [| apply agree_intro, HR].
    destruct (IHf _ _ (Hadv _ _ _ HR E ltac:(discriminate))) as [Hr HR'].
    destruct (parseFactor n (advance p1)) as [r1 q1],
             (parseFactor n (advance p2)) as [r2 q2].
    simpl in Hr, HR'. subst r2.
    destruct r1; [apply IHtl, HR' | |]; apply agree_intro, HR'.
  - intros p1 p2 HR. rewrite !parseFactor_S.
    pose proof HR as [Hc _]. rewrite <- Hc.
    destruct (decide (typ (cur p1) = tokenLParen)) as [E |];
      [| apply parseTag_agree, HR].
    destruct (IHe _ _ (Hadv _ _ _ HR E ltac:(discriminate))) as [Hr HR'].
    destruct (parseExpr n (advance p1)) as [r1 q1],
             (parseExpr n (advance p2)) as [r2 q2].
    simpl in Hr, HR'. subst r2.
    destruct r1; [| apply agree_intro, HR' | apply agree_intro, HR'].
    pose proof HR' as [Hc' _]. rewrite <- Hc'.
    destruct (decide (typ (cur q1) <> tokenRParen)) as [| Hrp];
      [apply agree_intro, HR' |].
    apply agree_intro, advance_agree; auto.
    intros E'. apply Hrp. rewrite E'. discriminate.
Qed.

End Agreement.

(** *** Fuel *)

(** A run that did not exhaust its fuel gives the same result with
    more. *)
Lemma parse_fuel_mono (n : nat) :
  (forall p m, (n <= m)%nat -> (parseExpr n p).1 <> OutOfFuel ->
     parseExpr m p = parseExpr n p)
  /\ (forall l p m, (n <= m)%nat -> (parseExprLoop n l p).1 <> OutOfFuel ->
     parseExprLoop m l p = parseExprLoop n l p)
  /\ (forall p m, (n <= m)%nat -> (parseTerm n p).1 <> OutOfFuel ->
     parseTerm m p = parseTerm n p)
  /\ (forall l p m, (n <= m)%nat -> (parseTermLoop n l p).1 <> OutOfFuel ->
     parseTermLoop m l p = parseTermLoop n l p)
  /\ (forall p m, (n <= m)%nat -> (parseFactor n p).1 <> OutOfFuel ->
     parseFactor m p = parseFactor n p).
Proof.
  induction n as [| n (IHe & IHel & IHt & IHtl & IHf)].
  { repeat apply conj; intros; simpl in *; congruence. }
  split; [| split; [| split; [| split]]].
  - intros p [| m] Hle; [lia |]. rewrite !parseExpr_S. intros Hr.
    destruct (parseTerm n p) as [r q] eqn:E.
    rewrite (IHt p m ltac:(lia)), E by (rewrite E; destruct r; auto).
    destruct r; auto. apply IHel; [lia | exact Hr].
  - intros l p [| m] Hle; [lia |]. rewrite !parseExprLoop_S. intros Hr.
    destruct (decide (typ (cur p) = tokenOr)); [| reflexivity].
    destruct (parseTerm n (advance p)) as [r q] eqn:E.
    rewrite (IHt (advance p) m ltac:(lia)), E by (rewrite E; destruct r; auto).
    destruct r; auto. apply IHel; [lia | exact Hr].
  - intros p [| m] Hle; [lia |]. rewrite !parseTerm_S. intros Hr.
    destruct (parseFactor n p) as [r q] eqn:E.
    rewrite (IHf p m ltac:(lia)), E by (rewrite E; destruct r; auto).
    destruct r; auto. apply IHtl; [lia | exact Hr].
  - intros l p [| m] Hle; [lia |]. rewrite !parseTermLoop_S. intros Hr.
    destruct (decide (typ (cur p) = tokenAnd)); [| reflexivity].
    destruct (parseFactor n (advance p)) as [r q] eqn:E.
    rewrite (IHf (advance p) m ltac:(lia)), E
      by (rewrite E; destruct r; auto).
    destruct r; auto. apply IHtl; [lia | exact Hr].
  - intros p [| m] Hle; [lia |]. rewrite !parseFactor_S. intros Hr.
    destruct (decide (typ (cur p) = tokenLParen)); [| reflexivity].
    destruct (parseExpr n (advance p)) as [r q] eqn:E.
    rewrite (IHe (advance p) m ltac:(lia)), E
      by (rewrite E; destruct r; auto).
    reflexivity.
Qed.

Lemma parseTag_measure (p : parser) :
  (parseTag p).1 <> OutOfFuel
  /\ (FilterAux.measure (parseTag p).2 <= FilterAux.measure p)%nat.
Proof.
  unfold parseTag.
  destruct (decide (typ (cur p) <> tokenIdent)) as [| H1];
    [simpl; split; [discriminate | lia] |].
  assert (M1 : (FilterAux.measure (advance p) < FilterAux.measure p)%nat).
  { apply advance_measure. intros E. apply H1. rewrite E. discriminate. }
  destruct (decide (typ (cur (advance p)) <> tokenColon)) as [| H2];
    [simpl; split; [discriminate | lia] |].
  assert (M2 : (FilterAux.measure (advance (advance p))
                < FilterAux.measure (advance p))%nat).
  { apply advance_measure. intros E. apply H2. rewrite E. discriminate. }
  destruct (decide (typ (cur (advance (advance p))) <> tokenIdent))
    as [| H3]; [simpl; split; [discriminate | lia] |].
  assert (M3 : (FilterAux.measure (advance (advance (advance p)))
                < FilterAux.measure (advance (advance p)))%nat).
  { apply advance_measure. intros E. apply H3. rewrite E. discriminate. }
  simpl. split; [discriminate | lia].
Qed.

(** Three units of fuel per character ahead are enough. *)
Lemma parse_fuel_enough (n : nat) :
  (forall p, (3 * FilterAux.measure p + 3 <= n)%nat ->
     (parseExpr n p).1 <> OutOfFuel
     /\ (FilterAux.measure (parseExpr n p).2 <= FilterAux.measure p)%nat)
  /\ (forall l p, (3 * FilterAux.measure p + 1 <= n)%nat ->
     (parseExprLoop n l p).1 <> OutOfFuel
     /\ (FilterAux.measure (parseExprLoop n l p).2
         <= FilterAux.measure p)%nat)
  /\ (forall p, (3 * FilterAux.measure p + 2 <= n)%nat ->
     (parseTerm n p).1 <> OutOfFuel
     /\ (FilterAux.measure (parseTerm n p).2 <= FilterAux.measure p)%nat)
  /\ (forall l p, (3 * FilterAux.measure p + 1 <= n)%nat ->
     (parseTermLoop n l p).1 <> OutOfFuel
     /\ (FilterAux.measure (parseTermLoop n l p).2
         <= FilterAux.measure p)%nat)
  /\ (forall p, (3 * FilterAux.measure p + 1 <= n)%nat ->
     (parseFactor n p).1 <> OutOfFuel
     /\ (FilterAux.measure (parseFactor n p).2 <= FilterAux.measure p)%nat).
Proof.
  induction n as [| n (IHe & IHel & IHt & IHtl & IHf)].
  { repeat apply conj; intros; lia. }
  assert (Hadv : forall p ty, typ (cur p) = ty -> ty <> tokenEOF ->
            (FilterAux.measure (advance p) < FilterAux.measure p)%nat).
  { intros p ty E Hne. apply advance_measure. congruence. }
  split; [| split; [| split; [| split]]].
  - intros p Hn. rewrite parseExpr_S.
    destruct (IHt p ltac:(lia)) as [Hr Hm].
    destruct (parseTerm n p) as [r q]. simpl in Hr, Hm.
    destruct r; simpl; [| split; [discriminate | lia] | congruence].
    destruct (IHel f q ltac:(lia)). split; [auto | lia].
  - intros l p Hn. rewrite parseExprLoop_S.
    destruct (decide (typ (cur p) = tokenOr)) as [E |];
      [| simpl; split; [discriminate | lia]].
    pose proof (Hadv p _ E ltac:(discriminate)) as Ha.
    destruct (IHt (advance p) ltac:(lia)) as [Hr Hm].
    destruct (parseTerm n (advance p)) as [r q]. simpl in Hr, Hm.
    destruct r; simpl; [| split; [discriminate | lia] | congruence].
    destruct (IHel (OrFilter l f) q ltac:(lia)). split; [auto | lia].
  - intros p Hn. rewrite parseTerm_S.
    destruct (IHf p ltac:(lia)) as [Hr Hm].
    destruct (parseFactor n p) as [r q]. simpl in Hr, Hm.
    destruct r; simpl; [| split; [discriminate | lia] | congruence].
    destruct (IHtl f q ltac:(lia)). split; [auto | lia].
  - intros l p Hn. rewrite parseTermLoop_S.
    destruct (decide (typ (cur p) = tokenAnd)) as [E |];
      [| simpl; split; [discriminate | lia]].
    pose proof (Hadv p _ E ltac:(discriminate)) as Ha.
    destruct (IHf (advance p) ltac:(lia)) as [Hr Hm].
    destruct (parseFactor n (advance p)) as [r q]. simpl in Hr, Hm.
    destruct r; simpl; [| split; [discriminate | lia] | congruence].
    destruct (IHtl (AndFilter l f) q ltac:(lia)). split; [auto | lia].
  - intros p Hn. rewrite parseFactor_S.
    destruct (decide (typ (cur p) = tokenLParen)) as [E |];
      [| apply parseTag_measure].
    pose proof (Hadv p _ E ltac:(discriminate)) as Ha.
    destruct (IHe (advance p) ltac:(lia)) as [Hr Hm].
    destruct (parseExpr n (advance p)) as [r q]. simpl in Hr, Hm.
    destruct r; simpl; [| split; [discriminate | lia] | congruence].
    destruct (decide (typ (cur q) <> tokenRParen)) as [| Hrp];
      [simpl; split; [discriminate | lia] |].
    assert (FilterAux.measure (advance q) < FilterAux.measure q)%nat.
    { apply advance_measure. intros E'. apply Hrp. rewrite E'. discriminate. }
    simpl. split; [discriminate | lia].
Qed.

Lemma length_list_ascii_of_string (s : string) :
  length (list_ascii_of_string s) = String.length s.
Proof. induction s as [| c s IH]; simpl; congruence. Qed.

Lemma newParser_measure (input : string) :
  (FilterAux.measure (newParser input) <= String.length input + 1)%nat.
Proof.
  unfold newParser, FilterAux.measure.
  destruct (next_remaining (newLexer input)) as [Hle _].
  destruct (next (newLexer input)) as [t l]. cbn [lex cur fst snd] in *.
  unfold FilterAux.remaining at 2 in Hle. unfold newLexer in Hle.
  cbn [Filter.input pos] in Hle. rewrite length_list_ascii_of_string in Hle.
  destruct (decide (typ t = tokenEOF)); lia.
Qed.

(** *** [ParseFilter] *)

Lemma list_ascii_of_string_app (a b : string) :
  list_ascii_of_string (String.append a b)
  = list_ascii_of_string a ++ list_ascii_of_string b.
Proof.
  induction a as [| c a IH]; [reflexivity |].
  change (c :: list_ascii_of_string (String.append a b)
          = c :: (list_ascii_of_string a ++ list_ascii_of_string b)).
  rewrite IH. reflexivity.
Qed.

Lemma newParser_eq (input : string) :
  newParser input
  = mkParser (next (newLexer input)).2 (next (newLexer input)).1.
Proof. unfold newParser. destruct (next (newLexer input)). reflexivity. Qed.

(** A successful parse starts at an identifier or at a parenthesis. *)
Lemma parseExpr_Ok_first (n : nat) (p p' : parser) (f : Filter.Filter) :
  parseExpr n p = (Ok f, p') ->
  typ (cur p) = tokenIdent \/ typ (cur p) = tokenLParen.
Proof.
  destruct n as [| [| [| n]]].
  - intros H. discriminate H.
  - rewrite parseExpr_S. intros H. discriminate H.
  - rewrite parseExpr_S, parseTerm_S. intros H. discriminate H.
  - rewrite parseExpr_S, parseTerm_S, parseFactor_S.
    destruct (decide (typ (cur p) = tokenLParen)); [auto |].
    intros H. left.
    destruct (decide (typ (cur p) = tokenIdent)) as [| Hne]; [assumption |].
    exfalso. revert H. unfold parseTag.
    rewrite (decide_True (P := typ (cur p) <> tokenIdent)) by exact Hne.
    discriminate.
Qed.

Lemma onlySpace_false (sp more : list ascii) (ch : ascii) :
  Forall (fun c => isSpace c = true) sp ->
  isIdentStart ch = true \/ ch = "("%char ->
  onlySpace (code <$> (sp ++ ch :: more)) = false.
Proof.
  intros Hsp Hch. induction Hsp as [| x sp Hx _ IH].
  - simpl app. rewrite fmap_cons.
    destruct Hch as [Hid | ->]; [| reflexivity].
    revert Hid.
    destruct ch as [[] [] [] [] [] [] [] []]; vm_compute; try reflexivity;
      discriminate.
  - simpl app. rewrite fmap_cons. revert Hx.
    destruct x as [[] [] [] [] [] [] [] []]; intros Hx;
      try discriminate Hx; try exact IH; reflexivity.
Qed.

Lemma first_token_shape (l : list ascii) :
  typ (next (mkLexer l 0)).1 = tokenIdent
  \/ typ (next (mkLexer l 0)).1 = tokenLParen ->
  exists sp ch more,
    l = sp ++ ch :: more
    /\ Forall (fun c => isSpace c = true) sp
    /\ (isIdentStart ch = true \/ ch = "("%char).
Proof.
  unfold next, skipWhitespace. cbn [input pos]. rewrite drop_0.
  cbn [Nat.add].
  destruct (l !! span isSpace l) as [ch |] eqn:Hch;
    [| simpl; intros [H | H]; discriminate].
  intros H. exists (take (span isSpace l) l), ch, (drop (S (span isSpace l)) l).
  split; [symmetry; apply take_drop_middle, Hch |].
  split; [apply span_take |].
  destruct (Ascii.eqb ch ":"); [simpl in H; destruct H; discriminate |].
  destruct (Ascii.eqb ch "(") eqn:E; [right; apply Ascii.eqb_eq, E |].
  destruct (Ascii.eqb ch ")"); [simpl in H; destruct H; discriminate |].
  destruct (isIdentStart ch); [auto |].
  simpl in H; destruct H; discriminate.
Qed.

(** [ParseFilter] returns on every input: the fuel never runs out. *)
Theorem ParseFilter_total (input : string) : ParseFilter input <> None.
Proof.
  unfold ParseFilter. destruct (isBlank input); [discriminate |].
  pose proof (newParser_measure input) as Hm.
  destruct (parse_fuel_enough (fuelFor input)) as [He _].
  destruct (He (newParser input)) as [Hr _]; [unfold fuelFor; lia |].
  destruct (parseExpr (fuelFor input) (newParser input)) as [[| |] q];
    simpl in Hr; congruence.
Qed.

(** C10. If an input parses to a filter, so does the input followed by
    optional white space, a character that is neither white space, an
    identifier character, [':'], ['('] nor [')'], and any further text:
    the result is the same filter and no error. *)
Theorem ParseFilter_ignores_tail (s tail : string) (f : Filter.Filter) :
  ParseFilter s = Some (Some f, None) ->
  FilterAux.ignored_tail (list_ascii_of_string tail) ->
  ParseFilter (String.append s tail) = Some (Some f, None).
Proof.
  unfold ParseFilter. intros Hs Ht.
  destruct (isBlank s); [discriminate |].
  destruct (parseExpr (fuelFor s) (newParser s)) as [r q] eqn:E.
  destruct r as [f' | |]; try discriminate. injection Hs as ->.
  set (ls := list_ascii_of_string s) in *.
  set (lt := list_ascii_of_string tail) in *.
  assert (Hblank : isBlank (String.append s tail) = false).
  { pose proof (parseExpr_Ok_first _ _ _ _ E) as Hfirst.
    rewrite newParser_eq in Hfirst. cbn [cur] in Hfirst.
    destruct (first_token_shape ls Hfirst) as (sp & ch & more & Hl & Hsp & Hch).
    unfold isBlank. rewrite list_ascii_of_string_app. fold ls. rewrite Hl.
    rewrite <- app_assoc. simpl app.
    apply onlySpace_false; assumption. }
  rewrite Hblank.
  assert (HR : FilterAux.parsers_agree ls lt
                 (newParser s) (newParser (String.append s tail))).
  { rewrite !newParser_eq.
    assert (HL : FilterAux.lexers_agree ls lt
                   (newLexer s) (newLexer (String.append s tail))).
    { unfold FilterAux.lexers_agree, newLexer. cbn [input pos].
      rewrite list_ascii_of_string_app. repeat split; auto; lia. }
    destruct (next_agree ls lt _ _ Ht HL) as [Htok Hl].
    split; cbn [cur lex]; auto. }
  destruct (parse_agree ls lt Ht (fuelFor s)) as [He _].
  destruct (He _ _ HR) as [Hr _]. rewrite E in Hr. simpl in Hr.
  destruct (parse_fuel_mono (fuelFor s)) as [Hmono _].
  assert (Hfuel : (fuelFor s <= fuelFor (String.append s tail))%nat).
  { unfold fuelFor. rewrite <- !length_list_ascii_of_string.
    rewrite list_ascii_of_string_app, length_app. lia. }
  rewrite (Hmono _ _ Hfuel) by (rewrite <- Hr; discriminate).
  destruct (parseExpr (fuelFor s) (newParser (String.append s tail)))
    as [r2 q2].
  simpl in Hr. subst r2. reflexivity.
Qed.

Lemma ParseFilter_ignores_tail_sample :
  (ParseFilter "env:prod" = Some (Some (TagFilter "env" "prod"), None)
   /\ FilterAux.ignored_tail (list_ascii_of_string " & junk"))
  /\ ParseFilter (String.append "env:prod" " & junk")
     = Some (Some (TagFilter "env" "prod"), None).
Proof.
  assert (H1 : ParseFilter "env:prod"
               = Some (Some (TagFilter "env" "prod"), None))
    by (vm_compute; reflexivity).
  assert (H2 : FilterAux.ignored_tail (list_ascii_of_string " & junk")).
  { exists [" "%char], "&"%char, (list_ascii_of_string " junk").
    split; [reflexivity |].
    split; [repeat constructor |].
    repeat split; try reflexivity; discriminate. }
  split; [auto |].
  exact (ParseFilter_ignores_tail "env:prod" " & junk" _ H1 H2).
Defined.

(** *** Precedence and grouping *)

Import FilterAux.

Lemma isIdentStart_not_punct (ch : ascii) :
  isIdentStart ch = true ->
  Ascii.eqb ch ":" = false /\ Ascii.eqb ch "(" = false
  /\ Ascii.eqb ch ")" = false.
Proof.
  destruct ch as [[] [] [] [] [] [] [] []]; vm_compute; intros H;
    repeat split; congruence.
Qed.

Lemma ahead_lookup (l : lexer) (n : nat) :
  input l !! (pos l + n)%nat = ahead l !! n.
Proof. unfold ahead. rewrite lookup_drop. reflexivity. Qed.

Lemma ahead_drop (l : lexer) (n : nat) :
  drop (pos l + n) (input l) = drop n (ahead l).
Proof. unfold ahead. rewrite drop_drop. reflexivity. Qed.

Lemma boundary_span (r : list ascii) :
  boundary r -> span isIdentChar r = 0%nat.
Proof. destruct r as [| ch r]; simpl; [reflexivity |]. intros ->. reflexivity. Qed.

(** The lexer on optional white space followed by a word. *)
Lemma next_word (l : lexer) (sp rest : list ascii) (ch : ascii)
    (w : list ascii) :
  ahead l = sp ++ (ch :: w) ++ rest ->
  Forall (fun c => isSpace c = true) sp ->
  isIdentStart ch = true -> forallb isIdentChar w = true ->
  boundary rest ->
  exists l',
    next l = (mkToken (wordType (ch :: w)) (string_of_list_ascii (ch :: w)),
              l')
    /\ ahead l' = rest.
Proof.
  intros Ha Hsp Hch Hw Hb.
  assert (Hspan : span isSpace (ahead l) = length sp).
  { rewrite Ha, (span_all _ _ _ Hsp). simpl.
    rewrite (isIdentStart_not_space ch Hch). lia. }
  assert (Hwall : Forall (fun c => isIdentChar c = true) (ch :: w)).
  { constructor; [apply isIdentStart_isIdentChar, Hch |].
    apply Forall_forall. intros c Hc.
    rewrite forallb_forall in Hw. apply Hw. apply list_elem_of_In, Hc. }
  assert (Hd : drop (pos l + length sp) (input l) = (ch :: w) ++ rest).
  { rewrite ahead_drop, Ha, drop_app_length. reflexivity. }
  unfold next, skipWhitespace. cbn [input pos].
  fold (ahead l). rewrite Hspan.
  rewrite ahead_lookup, Ha, lookup_app_r by lia.
  replace (length sp - length sp)%nat with 0%nat by lia. cbn [app lookup].
  simpl List.app. cbn.
  destruct (isIdentStart_not_punct ch Hch) as (-> & -> & ->).
  rewrite Hch. unfold scanIdent. cbn [input pos].
  rewrite Hd.
  rewrite (span_all _ _ _ Hwall), (boundary_span rest Hb), Nat.add_0_r.
  rewrite take_app_length.
  exists (mkLexer (input l) (pos l + length sp + length (ch :: w))).
  split.
  - unfold wordType.
    destruct (String.eqb (string_of_list_ascii (toUpper <$> ch :: w)) "AND");
      [reflexivity |].
    destruct (String.eqb (string_of_list_ascii (toUpper <$> ch :: w)) "OR");
      reflexivity.
  - unfold ahead. cbn [input pos]. rewrite <- drop_drop, Hd.
    apply drop_app_length.
Qed.

Lemma next_colon (l : lexer) (rest : list ascii) :
  ahead l = ":"%char :: rest ->
  exists l', next l = (mkToken tokenColon ":", l') /\ ahead l' = rest.
Proof.
  intros Ha. unfold next, skipWhitespace. cbn [input pos].
  fold (ahead l). rewrite Ha. cbn [span]. 
  change (isSpace ":") with false. cbv iota. rewrite Nat.add_0_r.
  assert (Hl : input l !! pos l = Some ":"%char).
  { rewrite <- (Nat.add_0_r (pos l)), ahead_lookup, Ha. reflexivity. }
  rewrite Hl. cbn [Ascii.eqb]. 
  change (Ascii.eqb ":" ":") with true. cbv iota.
  eexists. split; [reflexivity |].
  unfold ahead. cbn [input pos]. rewrite ahead_drop, Ha. reflexivity.
Qed.

Lemma next_end (l : lexer) :
  ahead l = [] -> typ (next l).1 = tokenEOF.
Proof.
  intros Ha. unfold next, skipWhitespace. cbn [input pos].
  fold (ahead l). rewrite Ha. cbn [span]. rewrite Nat.add_0_r.
  assert (Hl : input l !! pos l = None).
  { rewrite <- (Nat.add_0_r (pos l)), ahead_lookup, Ha. reflexivity. }
  rewrite Hl. reflexivity.
Qed.

(** *** The parser on the text of an expression *)

Lemma upcoming_advance (p : parser) (r : list ascii) :
  ahead (lex p) = r -> upcoming (advance p) r.
Proof.
  intros Ha. exists (lex p). split; [exact Ha |].
  unfold advance. destruct (next (lex p)). reflexivity.
Qed.

Lemma upcoming_newParser (s : string) :
  upcoming (newParser s) (list_ascii_of_string s).
Proof.
  exists (newLexer s). split; [reflexivity |].
  unfold newParser. destruct (next (newLexer s)). reflexivity.
Qed.

Lemma upcoming_word (p : parser) (sp rest : list ascii) (ch : ascii)
    (w : list ascii) :
  upcoming p (sp ++ (ch :: w) ++ rest) ->
  Forall (fun c => isSpace c = true) sp ->
  isIdentStart ch = true -> forallb isIdentChar w = true ->
  boundary rest ->
  cur p = mkToken (wordType (ch :: w)) (string_of_list_ascii (ch :: w))
  /\ ahead (lex p) = rest.
Proof.
  intros (l & Ha & Hn) Hsp Hch Hw Hb.
  destruct (next_word l sp rest ch w Ha Hsp Hch Hw Hb) as (l' & Hn' & Ha').
  rewrite Hn in Hn'. injection Hn' as -> ->. auto.
Qed.

Lemma upcoming_colon (p : parser) (rest : list ascii) :
  upcoming p (":"%char :: rest) ->
  cur p = mkToken tokenColon ":" /\ ahead (lex p) = rest.
Proof.
  intros (l & Ha & Hn).
  destruct (next_colon l rest Ha) as (l' & Hn' & Ha').
  rewrite Hn in Hn'. injection Hn' as -> ->. auto.
Qed.

Lemma upcoming_end (p : parser) : upcoming p [] -> typ (cur p) = tokenEOF.
Proof.
  intros (l & Ha & Hn). pose proof (next_end l Ha) as H.
  rewrite Hn in H. exact H.
Qed.

(** An identifier, as [isIdent] accepts it. *)
Lemma isIdent_chars (s : string) :
  isIdent s = true ->
  exists ch w,
    list_ascii_of_string s = ch :: w
    /\ isIdentStart ch = true /\ forallb isIdentChar w = true
    /\ wordType (ch :: w) = tokenIdent.
Proof.
  unfold isIdent. destruct (list_ascii_of_string s) as [| ch w];
    [discriminate |].
  intros [[H1 H2]%andb_prop H3%bool_decide_eq_true]%andb_prop.
  eauto 10.
Qed.

Lemma space_chars : Forall (fun c => isSpace c = true) [" "%char].
Proof. repeat constructor. Qed.

Lemma boundary_colon (r : list ascii) : boundary (":"%char :: r).
Proof. reflexivity. Qed.

Lemma boundary_space (r : list ascii) : boundary (" "%char :: r).
Proof. reflexivity. Qed.

Lemma boundary_andTail (ts : list tag) (r : list ascii) :
  boundary r -> boundary (andTail ts ++ r).
Proof. destruct ts; [auto | intros _; reflexivity]. Qed.

Lemma boundary_orTail (ts : list term) : boundary (orTail ts).
Proof. destruct ts; reflexivity. Qed.

(** [parseTag] on the text of a tag, after optional white space. *)
Lemma parseTag_text (p : parser) (sp rest : list ascii) (t : tag) :
  upcoming p (sp ++ tagChars t ++ rest) ->
  Forall (fun c => isSpace c = true) sp ->
  tagOk t = true -> boundary rest ->
  exists p', parseTag p = (Ok (tagFilter t), p') /\ upcoming p' rest.
Proof.
  intros Hup Hsp [Hk Hv]%andb_prop Hb. destruct t as [k v]. cbn [fst snd] in *.
  destruct (isIdent_chars k Hk) as (c1 & w1 & Ek & Hc1 & Hw1 & Ht1).
  destruct (isIdent_chars v Hv) as (c2 & w2 & Ev & Hc2 & Hw2 & Ht2).
  unfold tagChars in Hup. cbn [fst snd] in Hup.
  rewrite Ek, <- app_assoc in Hup.
  destruct (upcoming_word p sp _ c1 w1 Hup Hsp Hc1 Hw1 (boundary_colon _))
    as [Hcur1 Ha1].
  rewrite Ht1, <- Ek, string_of_list_ascii_of_string in Hcur1.
  pose proof (upcoming_advance p _ Ha1) as Hup2.
  destruct (upcoming_colon _ _ Hup2) as [Hcur2 Ha2].
  pose proof (upcoming_advance _ _ Ha2) as Hup3.
  rewrite Ev in Hup3.
  destruct (upcoming_word _ [] rest c2 w2 Hup3 ltac:(constructor) Hc2 Hw2 Hb)
    as [Hcur3 Ha3].
  rewrite Ht2, <- Ev, string_of_list_ascii_of_string in Hcur3.
  exists (advance (advance (advance p))).
  split; [| apply upcoming_advance, Ha3].
  unfold parseTag. rewrite Hcur1. cbn [typ val].
  rewrite decide_False by (intros H; apply H; reflexivity).
  rewrite Hcur2. cbn [typ val].
  rewrite decide_False by (intros H; apply H; reflexivity).
  rewrite Hcur3. cbn [typ val].
  rewrite decide_False by (intros H; apply H; reflexivity).
  reflexivity.
Qed.


Lemma upcoming_tag_first (p : parser) (sp rest : list ascii) (t : tag) :
  upcoming p (sp ++ tagChars t ++ rest) ->
  Forall (fun c => isSpace c = true) sp ->
  tagOk t = true ->
  typ (cur p) = tokenIdent.
Proof.
  intros Hup Hsp [Hk _]%andb_prop.
  destruct (isIdent_chars _ Hk) as (c1 & w1 & Ek & Hc1 & Hw1 & Ht1).
  unfold tagChars in Hup. rewrite Ek, <- app_assoc in Hup.
  destruct (upcoming_word p sp _ c1 w1 Hup Hsp Hc1 Hw1 (boundary_colon _))
    as [Hcur _].
  rewrite Hcur. exact Ht1.
Qed.

Lemma parseFactor_text (n : nat) (p : parser) (sp rest : list ascii)
    (t : tag) :
  upcoming p (sp ++ tagChars t ++ rest) ->
  Forall (fun c => isSpace c = true) sp ->
  tagOk t = true -> boundary rest ->
  exists p', parseFactor (S n) p = (Ok (tagFilter t), p') /\ upcoming p' rest.
Proof.
  intros Hup Hsp Hok Hb. rewrite parseFactor_S.
  rewrite decide_False
    by (rewrite (upcoming_tag_first p sp rest t Hup Hsp Hok); discriminate).
  exact (parseTag_text p sp rest t Hup Hsp Hok Hb).
Qed.

(** What follows a term is the end of the text or [OR]. *)
Lemma upcoming_orTail (p : parser) (more : list term) :
  upcoming p (orTail more) ->
  match more with
  | [] => typ (cur p) = tokenEOF
  | t :: more' =>
      typ (cur p) = tokenOr
      /\ ahead (lex p) = " "%char :: termChars t ++ orTail more'
  end.
Proof.
  destruct more as [| t more']; [apply upcoming_end |].
  intros Hup.
  destruct (upcoming_word p [" "%char]
              (" "%char :: termChars t ++ orTail more') "O"%char ["R"%char]
              Hup space_chars eq_refl eq_refl (boundary_space _))
    as [Hcur Ha].
  rewrite Hcur. auto.
Qed.

(** The loop of [parseTerm] on the rest of a term. *)
Lemma parseTermLoop_text (ts : list tag) (more : list term) :
  forallb tagOk ts = true ->
  forall (n : nat) (left_ : Filter.Filter) (p : parser),
    (length ts < n)%nat ->
    upcoming p (andTail ts ++ orTail more) ->
    exists p',
      parseTermLoop n left_ p
      = (Ok (foldl (fun acc u => AndFilter acc (tagFilter u)) left_ ts), p')
      /\ upcoming p' (orTail more).
Proof.
  induction ts as [| u ts IH]; intros Hok n left_ p Hn Hup.
  - destruct n as [| n]; [simpl in Hn; lia |].
    rewrite parseTermLoop_S. cbn [andTail app] in Hup.
    pose proof (upcoming_orTail p more Hup) as Hcur.
    rewrite decide_False.
    + exists p. auto.
    + destruct more; [rewrite Hcur | rewrite (proj1 Hcur)]; discriminate.
  - cbn [forallb] in Hok. apply andb_prop in Hok as [Hu Hok].
    destruct n as [| [| n]]; [simpl in Hn; lia | simpl in Hn; lia |].
    rewrite parseTermLoop_S. cbn [andTail] in Hup.
    destruct (upcoming_word p [" "%char]
                (" "%char :: tagChars u ++ andTail ts ++ orTail more)
                "A"%char ["N"%char; "D"%char])
      as [Hcur Ha];
      [rewrite <- !app_assoc in Hup; exact Hup | exact space_chars
       | reflexivity | reflexivity | apply boundary_space |].
    rewrite Hcur. cbn [typ wordType].
    rewrite decide_True by reflexivity.
    destruct (parseFactor_text n (advance p) [" "%char]
                (andTail ts ++ orTail more) u)
      as (p1 & Hf & Hup1);
      [apply upcoming_advance; exact Ha | exact space_chars | exact Hu
       | apply boundary_andTail, boundary_orTail |].
    rewrite Hf.
    apply IH; [exact Hok | simpl in Hn; lia | exact Hup1].
Qed.

Lemma parseTerm_text (n : nat) (p : parser) (sp : list ascii) (t : term)
    (more : list term) :
  upcoming p (sp ++ termChars t ++ orTail more) ->
  Forall (fun c => isSpace c = true) sp ->
  termOk t = true ->
  (length t.2 + 1 < n)%nat ->
  exists p',
    parseTerm n p = (Ok (termFilter t), p') /\ upcoming p' (orTail more).
Proof.
  intros Hup Hsp [Hfirst Hrest]%andb_prop Hn.
  destruct n as [| [| n]]; [lia | lia |].
  rewrite parseTerm_S. unfold termChars in Hup. rewrite <- app_assoc in Hup.
  destruct (parseFactor_text n p sp (andTail t.2 ++ orTail more) t.1)
    as (p1 & Hf & Hup1);
    [exact Hup | exact Hsp | exact Hfirst
     | apply boundary_andTail, boundary_orTail |].
  rewrite Hf.
  apply parseTermLoop_text; [exact Hrest | lia | exact Hup1].
Qed.

(** The loop of [parseExpr] on the rest of an expression. *)
Lemma parseExprLoop_text (more : list term) :
  forallb termOk more = true ->
  forall (n : nat) (left_ : Filter.Filter) (p : parser),
    (termsFuel more <= n)%nat ->
    upcoming p (orTail more) ->
    exists p',
      parseExprLoop n left_ p
      = (Ok (foldl (fun acc t => OrFilter acc (termFilter t)) left_ more), p')
      /\ upcoming p' [].
Proof.
  induction more as [| t more IH]; intros Hok n left_ p Hn Hup.
  - destruct n as [| n]; [simpl in Hn; lia |].
    rewrite parseExprLoop_S.
    rewrite decide_False
      by (rewrite (upcoming_orTail p [] Hup); discriminate).
    exists p. auto.
  - cbn [forallb] in Hok. apply andb_prop in Hok as [Ht Hok].
    cbn [termsFuel] in Hn. destruct n as [| n]; [lia |].
    rewrite parseExprLoop_S.
    destruct (upcoming_orTail p (t :: more) Hup) as [Hcur Ha].
    rewrite decide_True by exact Hcur.
    destruct (parseTerm_text n (advance p) [" "%char] t more)
      as (p1 & Hf & Hup1);
      [apply upcoming_advance; exact Ha | exact space_chars | exact Ht
       | lia |].
    rewrite Hf. apply IH; [exact Hok | lia | exact Hup1].
Qed.

Lemma parseExpr_text (e : expr) (p : parser) :
  exprOk e = true ->
  upcoming p (exprChars e) ->
  exists n p',
    parseExpr n p = (Ok (exprFilter e), p') /\ upcoming p' [].
Proof.
  intros [Hfirst Hrest]%andb_prop Hup.
  exists (S (length e.1.2 + 2 + termsFuel e.2)).
  rewrite parseExpr_S.
  destruct (parseTerm_text (length e.1.2 + 2 + termsFuel e.2) p [] e.1 e.2)
    as (p1 & Hf & Hup1);
    [exact Hup | constructor | exact Hfirst | pose proof (I); 
      destruct e.2; simpl; lia |].
  rewrite Hf.
  apply parseExprLoop_text; [exact Hrest | lia | exact Hup1].
Qed.

(** C5. On every expression written without parentheses, with tags
    joined by [AND] and the conjunctions joined by [OR], [ParseFilter]
    returns the filter in which AND binds tighter than OR and both
    operators group to the left. *)
Theorem ParseFilter_precedence_associativity (e : expr) :
  exprOk e = true ->
  ParseFilter (exprText e) = Some (Some (exprFilter e), None).
Proof.
  intros Hok. unfold ParseFilter, exprText.
  assert (Hblank : isBlank (string_of_list_ascii (exprChars e)) = false).
  { unfold isBlank. rewrite list_ascii_of_string_of_list_ascii.
    pose proof Hok as [[[Hk _]%andb_prop _]%andb_prop _]%andb_prop.
    destruct (isIdent_chars _ Hk) as (c & w & Ek & Hc & _ & _).
    unfold exprChars, termChars, tagChars. rewrite Ek.
    rewrite <- !app_assoc. cbn [app].
    apply (onlySpace_false [] _ c); [constructor | auto]. }
  rewrite Hblank.
  set (input := string_of_list_ascii (exprChars e)).
  destruct (parseExpr_text e (newParser input) Hok) as (n & p' & Hn & _).
  { pose proof (upcoming_newParser input) as Hup. unfold input in Hup.
    rewrite list_ascii_of_string_of_list_ascii in Hup. exact Hup. }
  assert (Hfuel : parseExpr (fuelFor input) (newParser input)
                  = parseExpr n (newParser input)).
  { destruct (Nat.le_ge_cases n (fuelFor input)) as [Hle | Hge].
    - apply (proj1 (parse_fuel_mono n)); [exact Hle |].
      rewrite Hn. discriminate.
    - symmetry. apply (proj1 (parse_fuel_mono (fuelFor input)));
        [exact Hge |].
      pose proof (newParser_measure input) as Hm.
      destruct (parse_fuel_enough (fuelFor input)) as [He _].
      apply He. unfold fuelFor. lia. }
  rewrite Hfuel, Hn. reflexivity.
Qed.

Lemma ParseFilter_precedence_associativity_sample :
  (exprOk (("env", "prod"), [], [(("env", "dev"), [("host", "h1")])]) = true
   /\ exprOk (("a", "1"), [("b", "2"); ("c", "3")], []) = true)
  /\ ParseFilter "env:prod OR env:dev AND host:h1"
     = Some (Some (OrFilter (TagFilter "env" "prod")
                     (AndFilter (TagFilter "env" "dev")
                                (TagFilter "host" "h1"))), None)
  /\ ParseFilter "a:1 AND b:2 AND c:3"
     = Some (Some (AndFilter (AndFilter (TagFilter "a" "1")
                                        (TagFilter "b" "2"))
                             (TagFilter "c" "3")), None).
Proof.
  split; [split; reflexivity |]. split.
  - exact (ParseFilter_precedence_associativity
             (("env", "prod"), [], [(("env", "dev"), [("host", "h1")])])
             eq_refl).
  - exact (ParseFilter_precedence_associativity
             (("a", "1"), [("b", "2"); ("c", "3")], []) eq_refl).
Defined.

End FilterFacts.

(** ** The series registry *)

Module SeriesFacts.
Import Int Bytes Codec Badger Series BytesFacts CodecFacts BadgerFacts.

Lemma EncodeSeriesKey_make (id : Z) :
  EncodeSeriesKey (make SeriesKeySize) id = Some (seriesKey id, SeriesKeySize).
Proof.
  rewrite EncodeSeriesKey_buf by (cbv; lia). unfold seriesKey.
  change (drop SeriesKeySize (make SeriesKeySize)) with (@nil Z).
  rewrite app_nil_r. reflexivity.
Qed.

Section WithLibraries.
Variable Sum64 : string -> Z.
Variable json_Marshal : SeriesMeta -> option (list Z).

Local Abbreviation GetOrCreate := (Series.GetOrCreate Sum64 json_Marshal).
Local Abbreviation ComputeSeriesID := (Series.ComputeSeriesID Sum64).
Local Abbreviation run := (Series.run Sum64 json_Marshal).

(** [GetOrCreate] never panics, returns the hash of the sorted tags, only
    adds to the cache, and writes the store exactly when it reports
    [created] without an error. *)
Lemma GetOrCreate_effect (commits : bool) (metric : string)
    (tags : Tagset.Tagset) (r : SeriesRegistry) :
  exists created err r',
    GetOrCreate commits metric tags r
      = Some ((ComputeSeriesID metric (Tagset.Sort tags), created, err), r')
    /\ cache r ⊆ cache r'
    /\ (created = true /\ err = None ->
        exists value,
          json_Marshal (mkSeriesMeta metric (Tagset.Sort tags)) = Some value
          /\ Badger.Get (seriesKey (ComputeSeriesID metric (Tagset.Sort tags))) (db r)
             = None
          /\ db r' = Badger.Set_ (seriesKey (ComputeSeriesID metric (Tagset.Sort tags)))
                       value (db r))
    /\ (~ (created = true /\ err = None) -> db r' = db r).
Proof.
  unfold Series.GetOrCreate.
  set (id := ComputeSeriesID metric (Tagset.Sort tags)).
  destruct (decide (id ∈ cache r)) as [Hin | Hout].
  { exists false, None, r.
    split; [reflexivity |]. split; [reflexivity |].
    split; [intros [? _]; discriminate | reflexivity]. }
  rewrite EncodeSeriesKey_make. cbn [mbind option_bind].
  destruct (Badger.Get (seriesKey id) (db r)) as [v |] eqn:Hget.
  { eexists false, _, _. split; [reflexivity |]. cbn [cache db].
    split; [set_solver |].
    split; [intros [? _]; discriminate | reflexivity]. }
  destruct (json_Marshal _) as [value |] eqn:Hm.
  2:{ exists false, (Some ErrMarshal), r.
      split; [reflexivity |]. split; [reflexivity |].
      split; [intros [? _]; discriminate | reflexivity]. }
  destruct commits.
  - eexists true, None, _. split; [reflexivity |]. cbn [cache db].
    split; [set_solver |].
    split; [intros _; exists value; auto | intros H; tauto].
  - eexists true, (Some ErrCommit), _. split; [reflexivity |].
    cbn [cache db]. split; [set_solver |].
    split; [intros [_ ?]; discriminate | reflexivity].
Qed.

Lemma run_cache_mono (calls : list (bool * string * Tagset.Tagset))
    (r r' : SeriesRegistry) :
  run calls r = Some r' -> cache r ⊆ cache r'.
Proof.
  revert r. induction calls as [| [[c m] t] calls IH]; intros r; simpl.
  - intros [= ->]. reflexivity.
  - destruct (GetOrCreate_effect c m t r) as (cr & e & r1 & E & Hsub & _).
    rewrite E. cbn [mbind option_bind]. intros H.
    specialize (IH _ H). set_solver.
Qed.





End WithLibraries.


(** [ComputeSeriesID] hashes the bare concatenation of the metric, the
    keys and the values, so these two series get one id whatever the
    hash function. *)
Lemma ComputeSeriesID_concatenation (Sum64 : string -> Z) :
  Series.ComputeSeriesID Sum64 "cpu" (Tagset.Sort Sample.tags_a_bc)
  = Series.ComputeSeriesID Sum64 "cpu" (Tagset.Sort Sample.tags_ab_c).
Proof. reflexivity. Qed.


End SeriesFacts.

(** ** Bitmap algebra and the tag index *)

Module IndexFacts.
Import Index.

Lemma fresh_not_in (h : Heap) : h !! fresh (dom h) = None.
Proof. apply not_elem_of_dom, is_fresh. Qed.

Lemma andAll_spec (h : Heap) (result : positive) (cur : gset Z)
    (bitmaps : list positive) (sets : list (gset Z)) :
  h !! result = None ->
  Forall2 (fun bm s => h !! bm = Some s) bitmaps sets ->
  andAll result bitmaps (<[result := cur]> h)
  = Some (<[result := foldl (fun acc t => acc ∩ t) cur sets]> h).
Proof.
  intros Hfresh H. revert cur.
  induction H as [| bm s bitmaps sets Hbm _ IH]; intros cur; [reflexivity |].
  simpl. unfold And. rewrite lookup_insert_eq. cbn [mbind option_bind].
  rewrite lookup_insert_ne by congruence. rewrite Hbm.
  cbn [mbind option_bind]. rewrite insert_insert_eq. apply IH.
Qed.

Lemma orAll_spec (h : Heap) (result : positive) (cur : gset Z)
    (bitmaps : list positive) (sets : list (gset Z)) :
  h !! result = None ->
  Forall2 (fun bm s => h !! bm = Some s) bitmaps sets ->
  orAll result bitmaps (<[result := cur]> h)
  = Some (<[result := foldl (fun acc t => acc ∪ t) cur sets]> h).
Proof.
  intros Hfresh H. revert cur.
  induction H as [| bm s bitmaps sets Hbm _ IH]; intros cur; [reflexivity |].
  simpl. unfold Or. rewrite lookup_insert_eq. cbn [mbind option_bind].
  rewrite lookup_insert_ne by congruence. rewrite Hbm.
  cbn [mbind option_bind]. rewrite insert_insert_eq. apply IH.
Qed.

(** [Intersect] allocates one bitmap, holding the intersection of its
    arguments, and changes nothing else. *)
Lemma Intersect_spec (h : Heap) (bitmaps : list positive)
    (sets : list (gset Z)) :
  Forall2 (fun bm s => h !! bm = Some s) bitmaps sets ->
  Intersect bitmaps h
  = Some (fresh (dom h), <[fresh (dom h) := meet sets]> h).
Proof.
  intros H. pose proof (fresh_not_in h) as Hf.
  destruct H as [| bm s bitmaps sets Hbm Hrest]; [reflexivity |].
  destruct Hrest as [| bm2 s2 bitmaps sets Hbm2 Hrest].
  - simpl. unfold Clone. rewrite Hbm. reflexivity.
  - unfold Intersect, Clone. rewrite Hbm. cbn [mbind option_bind].
    rewrite (andAll_spec h _ s (bm2 :: bitmaps) (s2 :: sets) Hf)
      by (constructor; assumption).
    reflexivity.
Qed.

Lemma Union_spec (h : Heap) (bitmaps : list positive)
    (sets : list (gset Z)) :
  Forall2 (fun bm s => h !! bm = Some s) bitmaps sets ->
  Union bitmaps h
  = Some (fresh (dom h), <[fresh (dom h) := join sets]> h).
Proof.
  intros H. pose proof (fresh_not_in h) as Hf.
  destruct H as [| bm s bitmaps sets Hbm Hrest]; [reflexivity |].
  destruct Hrest as [| bm2 s2 bitmaps sets Hbm2 Hrest].
  - simpl. unfold Clone. rewrite Hbm. reflexivity.
  - unfold Union, Clone. rewrite Hbm. cbn [mbind option_bind].
    rewrite (orAll_spec h _ s (bm2 :: bitmaps) (s2 :: sets) Hf)
      by (constructor; assumption).
    reflexivity.
Qed.

Lemma returned_insert (h : Heap) (bm : positive) (s : gset Z) :
  returned (Some (bm, <[bm := s]> h)) = Some s.
Proof. unfold returned. simpl. apply lookup_insert_eq. Qed.

Lemma fresh_result_insert (h : Heap) (s : gset Z) :
  fresh_result h (Some (fresh (dom h), <[fresh (dom h) := s]> h)).
Proof.
  exists (fresh (dom h)), (<[fresh (dom h) := s]> h).
  pose proof (fresh_not_in h) as Hf.
  split; [reflexivity |]. split; [exact Hf |].
  intros l t Hl. rewrite lookup_insert_ne by congruence. exact Hl.
Qed.

Lemma all_allocated (h : Heap) (bitmaps : list positive) :
  Forall (fun bm => is_Some (h !! bm)) bitmaps ->
  exists sets, Forall2 (fun bm s => h !! bm = Some s) bitmaps sets.
Proof.
  induction 1 as [| bm bitmaps [s Hs] _ [sets IH]].
  - exists []. constructor.
  - exists (s :: sets). constructor; assumption.
Qed.

(** C7. On allocated bitmaps, [Intersect] and [Union] are commutative
    and associative in the set they return; they return a new bitmap
    and leave every existing bitmap, their arguments included,
    unchanged; with no argument they return an empty bitmap and with
    one argument a copy of it. *)
Theorem Intersect_Union_laws (h : Heap) (a b c : positive)
    (sa sb sc : gset Z) :
  h !! a = Some sa -> h !! b = Some sb -> h !! c = Some sc ->
  (returned (Intersect [a; b] h) = Some (sa ∩ sb)
   /\ returned (Intersect [a; b] h) = returned (Intersect [b; a] h))
  /\ (returned (Union [a; b] h) = Some (sa ∪ sb)
      /\ returned (Union [a; b] h) = returned (Union [b; a] h))
  /\ returned ('(ab, h1) ← Intersect [a; b] h; Intersect [ab; c] h1)
     = returned ('(bc, h1) ← Intersect [b; c] h; Intersect [a; bc] h1)
  /\ returned ('(ab, h1) ← Union [a; b] h; Union [ab; c] h1)
     = returned ('(bc, h1) ← Union [b; c] h; Union [a; bc] h1)
  /\ (forall bitmaps, Forall (fun bm => is_Some (h !! bm)) bitmaps ->
        fresh_result h (Intersect bitmaps h)
        /\ fresh_result h (Union bitmaps h))
  /\ (returned (Intersect [] h) = Some ∅ /\ returned (Union [] h) = Some ∅)
  /\ (returned (Intersect [a] h) = Some sa
      /\ returned (Union [a] h) = Some sa).
Proof.
  intros Ha Hb Hc.
  pose proof (fresh_not_in h) as Hf.
  assert (Hfa : fresh (dom h) <> a) by congruence.
  assert (Hfb : fresh (dom h) <> b) by congruence.
  assert (Hfc : fresh (dom h) <> c) by congruence.
  assert (Hab : Forall2 (fun bm s => h !! bm = Some s) [a; b] [sa; sb])
    by (repeat constructor; assumption).
  assert (Hba : Forall2 (fun bm s => h !! bm = Some s) [b; a] [sb; sa])
    by (repeat constructor; assumption).
  assert (Hbc : Forall2 (fun bm s => h !! bm = Some s) [b; c] [sb; sc])
    by (repeat constructor; assumption).
  split; [| split; [| split; [| split; [| split; [| split]]]]].
  - rewrite (Intersect_spec _ _ _ Hab), (Intersect_spec _ _ _ Hba).
    rewrite !returned_insert. simpl. split; [reflexivity |].
    f_equal. set_solver.
  - rewrite (Union_spec _ _ _ Hab), (Union_spec _ _ _ Hba).
    rewrite !returned_insert. simpl. split; [reflexivity |].
    f_equal. set_solver.
  - rewrite (Intersect_spec _ _ _ Hab), (Intersect_spec _ _ _ Hbc).
    cbn [mbind option_bind].
    rewrite (Intersect_spec _ [fresh (dom h); c] [meet [sa; sb]; sc])
      by (repeat constructor;
          [apply lookup_insert_eq | rewrite lookup_insert_ne; assumption]).
    rewrite (Intersect_spec _ [a; fresh (dom h)] [sa; meet [sb; sc]])
      by (repeat constructor;
          [rewrite lookup_insert_ne; assumption | apply lookup_insert_eq]).
    rewrite !returned_insert. simpl. f_equal. set_solver.
  - rewrite (Union_spec _ _ _ Hab), (Union_spec _ _ _ Hbc).
    cbn [mbind option_bind].
    rewrite (Union_spec _ [fresh (dom h); c] [join [sa; sb]; sc])
      by (repeat constructor;
          [apply lookup_insert_eq | rewrite lookup_insert_ne; assumption]).
    rewrite (Union_spec _ [a; fresh (dom h)] [sa; join [sb; sc]])
      by (repeat constructor;
          [rewrite lookup_insert_ne; assumption | apply lookup_insert_eq]).
    rewrite !returned_insert. simpl. f_equal. set_solver.
  - intros bitmaps Hall. destruct (all_allocated h bitmaps Hall) as [sets Hs].
    rewrite (Intersect_spec _ _ _ Hs), (Union_spec _ _ _ Hs).
    split; apply fresh_result_insert.
  - rewrite (Intersect_spec h [] []), (Union_spec h [] []) by constructor.
    rewrite !returned_insert. auto.
  - assert (H1 : Forall2 (fun bm s => h !! bm = Some s) [a] [sa])
      by (repeat constructor; assumption).
    rewrite (Intersect_spec _ _ _ H1), (Union_spec _ _ _ H1).
    rewrite !returned_insert. auto.
Qed.

Lemma Intersect_Union_laws_sample :
  (heap3 !! 1%positive = Some {[1; 2]}
   /\ heap3 !! 2%positive = Some {[2; 3]}
   /\ heap3 !! 3%positive = Some {[2; 4]})
  /\ returned (Intersect [1%positive; 2%positive] heap3)
     = Some ({[1; 2]} ∩ {[2; 3]})
  /\ returned (Intersect [1%positive; 2%positive] heap3)
     = returned (Intersect [2%positive; 1%positive] heap3).
Proof.
  assert (H1 : heap3 !! 1%positive = Some ({[1; 2]} : gset Z))
    by (unfold heap3; apply lookup_insert_eq).
  assert (H2 : heap3 !! 2%positive = Some ({[2; 3]} : gset Z)).
  { unfold heap3. rewrite lookup_insert_ne by discriminate.
    apply lookup_insert_eq. }
  assert (H3 : heap3 !! 3%positive = Some ({[2; 4]} : gset Z)).
  { unfold heap3. rewrite !lookup_insert_ne by discriminate.
    apply lookup_insert_eq. }
  split; [auto |].
  exact (proj1 (Intersect_Union_laws heap3 1 2 3 _ _ _ H1 H2 H3)).
Defined.

(** C9. With an empty tag key, [GetSeriesIDs] is [GetAllSeriesIDs]: the
    tag value is ignored and the posting of the metric is returned, with
    the same effect on the index. *)
Theorem GetSeriesIDs_empty_key (ReadFrom : list Z -> option (gset Z))
    (metric tagValue : string) (idx : TagIndex) :
  GetSeriesIDs ReadFrom metric "" tagValue idx
  = GetAllSeriesIDs ReadFrom metric idx.
Proof. reflexivity. Qed.

End IndexFacts.

(** ** The order of the key space *)

Module KeySpace.
Import Int Bytes Codec BytesFacts CodecFacts BadgerFacts.

Lemma Compare_app_lt (a b x y : list Z) :
  length a = length b -> Compare a b = Lt -> Compare (a ++ x) (b ++ y) = Lt.
Proof.
  revert b. induction a as [| u a IH]; intros [| v b]; simpl; try congruence.
  intros [= Hlen]. destruct (u ?= v); auto.
Qed.

Lemma HasPrefix_app (p x : list Z) : HasPrefix (p ++ x) p = true.
Proof.
  induction p as [| u p IH]; [destruct x; reflexivity |].
  simpl. rewrite Z.eqb_refl. exact IH.
Qed.

Lemma HasPrefix_app_inv (p q x : list Z) :
  length p = length q -> HasPrefix (q ++ x) p = true -> p = q.
Proof.
  revert q. induction p as [| u p IH]; intros [| v q]; simpl; try congruence.
  intros [= Hlen] H. apply andb_true_iff in H as [Huv H].
  apply Z.eqb_eq in Huv. subst v. f_equal. auto.
Qed.

Lemma PutUint64_inj (a b : Z) :
  is_uint64 a -> is_uint64 b -> PutUint64 a = PutUint64 b -> a = b.
Proof.
  intros Ha Hb E.
  pose proof (Uint64_PutUint64_exact a Ha) as Ea.
  pose proof (Uint64_PutUint64_exact b Hb) as Eb.
  rewrite E in Ea. congruence.
Qed.

(** On a buffer of at least 17 bytes [EncodeDataKey] fills the first 17
    with the prefix, the id and the complemented timestamp, leaves the
    rest of the buffer alone and returns 17; on an empty buffer the
    first store panics. *)
Theorem EncodeDataKey_frame (buf : list Z) (seriesID timestamp : Z) :
  (DataKeySize <= length buf)%nat ->
  EncodeDataKey buf seriesID timestamp
  = Some ([PrefixData] ++ PutUint64 seriesID
            ++ PutUint64 (to_uint64 (not_int64 timestamp))
            ++ drop DataKeySize buf, DataKeySize)
  /\ EncodeDataKey [] seriesID timestamp = None.
Proof.
  intros H. split; [| reflexivity].
  rewrite (EncodeDataKey_buf _ _ _ H). unfold dataKey.
  rewrite <- !app_assoc. reflexivity.
Qed.

Lemma EncodeDataKey_frame_sample :
  (DataKeySize <= length (replicate 20 7))%nat
  /\ EncodeDataKey (replicate 20 7) 1 1000
     = Some ([PrefixData] ++ PutUint64 1
               ++ PutUint64 (to_uint64 (not_int64 1000))
               ++ [7; 7; 7], DataKeySize)
  /\ EncodeDataKey [] 1 1000 = None.
Proof.
  assert (H : (DataKeySize <= length (replicate 20 (7 : Z)))%nat)
    by (cbv; lia).
  split; [exact H |].
  exact (EncodeDataKey_frame (replicate 20 7) 1 1000 H).
Defined.

(** For two timestamps of the same sign, the key of the newer one sorts
    first, and only then: key order is reverse time order. *)
Theorem dataKey_order_same_sign (seriesID ts1 ts2 : Z) :
  is_int64 ts1 -> is_int64 ts2 ->
  (0 <= ts1 /\ 0 <= ts2) \/ (ts1 < 0 /\ ts2 < 0) ->
  (lt (dataKey seriesID ts1) (dataKey seriesID ts2) <-> ts1 > ts2).
Proof.
  intros H1 H2 Hs. unfold lt. rewrite Compare_dataKey.
  rewrite !enc_ts_val by assumption. rewrite Z.compare_lt_iff.
  unfold is_int64, two63, two64 in *.
  destruct (Z.ltb_spec ts1 0), (Z.ltb_spec ts2 0); lia.
Qed.

Lemma dataKey_order_same_sign_sample :
  (is_int64 2000 /\ is_int64 1000
   /\ ((0 <= 2000 /\ 0 <= 1000) \/ (2000 < 0 /\ 1000 < 0)))
  /\ (lt (dataKey 100 2000) (dataKey 100 1000) <-> 2000 > 1000).
Proof.
  assert (H1 : is_int64 2000) by (unfold is_int64, two63; lia).
  assert (H2 : is_int64 1000) by (unfold is_int64, two63; lia).
  assert (H3 : (0 <= 2000 /\ 0 <= 1000) \/ (2000 < 0 /\ 1000 < 0))
    by (left; lia).
  split; [auto |].
  exact (dataKey_order_same_sign 100 2000 1000 H1 H2 H3).
Defined.

(** The key of every negative timestamp sorts before the key of every
    non-negative one: a forward scan of a series meets the times before
    the epoch first. *)
Theorem dataKey_negative_first (seriesID ts1 ts2 : Z) :
  is_int64 ts1 -> is_int64 ts2 -> ts1 < 0 -> 0 <= ts2 ->
  lt (dataKey seriesID ts1) (dataKey seriesID ts2).
Proof.
  intros H1 H2 Hn Hp. unfold lt. rewrite Compare_dataKey.
  rewrite !enc_ts_val by assumption. rewrite Z.compare_lt_iff.
  unfold is_int64, two63, two64 in *.
  destruct (Z.ltb_spec ts1 0), (Z.ltb_spec ts2 0); lia.
Qed.

Lemma dataKey_negative_first_sample :
  (is_int64 (-1) /\ is_int64 5 /\ -1 < 0 /\ 0 <= 5)
  /\ lt (dataKey 100 (-1)) (dataKey 100 5).
Proof.
  assert (H1 : is_int64 (-1)) by (unfold is_int64, two63; lia).
  assert (H2 : is_int64 5) by (unfold is_int64, two63; lia).
  assert (H3 : -1 < 0) by lia.
  assert (H4 : 0 <= 5) by lia.
  split; [auto |].
  exact (dataKey_negative_first 100 (-1) 5 H1 H2 H3 H4).
Defined.

(** Series do not interleave: all data keys of a smaller id sort before
    all data keys of a larger id, whatever the timestamps. *)
Theorem dataKey_series_order (id1 id2 ts1 ts2 : Z) :
  is_uint64 id1 -> is_uint64 id2 -> id1 < id2 ->
  lt (dataKey id1 ts1) (dataKey id2 ts2).
Proof.
  intros H1 H2 Hlt. unfold lt, dataKey.
  rewrite Compare_app_same. apply Compare_app_lt; [reflexivity |].
  rewrite Compare_PutUint64 by assumption. apply Z.compare_lt_iff, Hlt.
Qed.

Lemma dataKey_series_order_sample :
  (is_uint64 1 /\ is_uint64 2 /\ 1 < 2)
  /\ lt (dataKey 1 0) (dataKey 2 5000).
Proof.
  assert (H1 : is_uint64 1) by (unfold is_uint64, two64; lia).
  assert (H2 : is_uint64 2) by (unfold is_uint64, two64; lia).
  assert (H3 : 1 < 2) by lia.
  split; [auto |].
  exact (dataKey_series_order 1 2 0 5000 H1 H2 H3).
Defined.

(** [DataKeyPrefix] yields a prefix of exactly the data keys of its
    series: a data key has the prefix of [id] iff it was made for [id]. *)
Theorem DataKeyPrefix_selects_series (id id' ts : Z) :
  is_uint64 id -> is_uint64 id' ->
  exists prefix,
    DataKeyPrefix (make (1 + SeriesIDSize)) id
      = Some (prefix, (1 + SeriesIDSize)%nat)
    /\ (HasPrefix (dataKey id' ts) prefix = true <-> id' = id).
Proof.
  intros H1 H2. rewrite DataKeyPrefix_buf by (cbv; lia).
  change (drop (1 + SeriesIDSize) (make (1 + SeriesIDSize))) with (@nil Z).
  rewrite app_nil_r. eexists. split; [reflexivity |].
  unfold dataKey. rewrite app_assoc. split.
  - intros H. apply HasPrefix_app_inv in H; [| reflexivity].
    apply (app_inv_head [PrefixData]) in H.
    symmetry. apply PutUint64_inj; assumption.
  - intros ->. apply HasPrefix_app.
Qed.

Lemma DataKeyPrefix_selects_series_sample :
  (is_uint64 7 /\ is_uint64 8)
  /\ exists prefix,
    DataKeyPrefix (make (1 + SeriesIDSize)) 7
      = Some (prefix, (1 + SeriesIDSize)%nat)
    /\ (HasPrefix (dataKey 8 1000) prefix = true <-> 8 = 7).
Proof.
  assert (H1 : is_uint64 7) by (unfold is_uint64, two64; lia).
  assert (H2 : is_uint64 8) by (unfold is_uint64, two64; lia).
  split; [auto |].
  exact (DataKeyPrefix_selects_series 7 8 1000 H1 H2).
Defined.

(** [DecodeSeriesKey] reads back the id [EncodeSeriesKey] stored. *)
Theorem DecodeSeriesKey_EncodeSeriesKey (buf : list Z) (seriesID : Z) :
  (SeriesKeySize <= length buf)%nat -> is_uint64 seriesID ->
  exists key,
    EncodeSeriesKey buf seriesID = Some (key, SeriesKeySize)
    /\ DecodeSeriesKey key = Some seriesID.
Proof.
  intros Hlen Hid. rewrite (EncodeSeriesKey_buf _ _ Hlen).
  eexists. split; [reflexivity |].
  unfold DecodeSeriesKey.
  assert (S1 : slice 1 9 ([PrefixSeries] ++ PutUint64 seriesID
                            ++ drop SeriesKeySize buf)
               = Some (PutUint64 seriesID)).
  { unfold slice. rewrite decide_True by (simpl; lia). reflexivity. }
  rewrite S1. cbn [mbind option_bind].
  apply Uint64_PutUint64_exact, Hid.
Qed.

Lemma DecodeSeriesKey_EncodeSeriesKey_sample :
  ((SeriesKeySize <= length (make SeriesKeySize))%nat
   /\ is_uint64 (two64 - 1))
  /\ exists key,
    EncodeSeriesKey (make SeriesKeySize) (two64 - 1)
      = Some (key, SeriesKeySize)
    /\ DecodeSeriesKey key = Some (two64 - 1).
Proof.
  assert (H1 : (SeriesKeySize <= length (make SeriesKeySize))%nat)
    by (cbv; lia).
  assert (H2 : is_uint64 (two64 - 1)) by (unfold is_uint64, two64; lia).
  split; [auto |].
  exact (DecodeSeriesKey_EncodeSeriesKey _ _ H1 H2).
Defined.

End KeySpace.

(** ** More on [Aggregate] *)

Module AggMore.
Import Int Agg AggFacts.

#[export] Instance bucket_le_total : Total bucket_le.
Proof. intros a b. unfold bucket_le. lia. Qed.

#[export] Instance bucket_le_trans : Transitive bucket_le.
Proof. intros a b c. unfold bucket_le. lia. Qed.

Lemma Aggregate_unfold (points : list Read.DataPoint)
    (opts : AggregateOptions) :
  points <> [] -> 0 < BucketSize opts ->
  Aggregate points opts
  = sortBuckets
      ((fun kv : Z * accumulator =>
          mkBucket kv.1 (compute (Func opts) kv.2) (count kv.2))
       <$> map_to_list (foldl (addPoint (BucketSize opts)) ∅ points)).
Proof.
  intros Hne Hbs. unfold Aggregate.
  destruct points as [| p0 l]; [congruence |].
  replace (length (p0 :: l) =? 0)%nat with false by reflexivity.
  replace (BucketSize opts <=? 0) with false
    by (symmetry; apply Z.leb_gt; lia).
  reflexivity.
Qed.

Lemma Aggregate_degenerate (points : list Read.DataPoint)
    (opts : AggregateOptions) :
  points = [] \/ BucketSize opts <= 0 -> Aggregate points opts = [].
Proof.
  unfold Aggregate. intros [-> | H]; [reflexivity |].
  apply Z.leb_le in H. rewrite H, orb_true_r. reflexivity.
Qed.

(** [Aggregate] returns no bucket exactly when there is no point or the
    bucket size is not positive. *)
Theorem Aggregate_empty_iff (points : list Read.DataPoint)
    (opts : AggregateOptions) :
  Z.of_nat (length points) < two63 ->
  (Aggregate points opts = [] <-> points = [] \/ BucketSize opts <= 0).
Proof.
  intros Hlen. split; [| apply Aggregate_degenerate].
  intros Hnil.
  destruct points as [| p0 l]; [auto |]. right.
  destruct (Z.le_gt_cases (BucketSize opts) 0) as [| Hbs]; [assumption |].
  exfalso.
  set (k := bucketKey (BucketSize opts) (Read.Timestamp p0)).
  pose proof (buckets_count (BucketSize opts) (p0 :: l) Hlen k) as Hc.
  assert (Hin : p0 ∈ inBucket (BucketSize opts) k (p0 :: l)).
  { unfold inBucket. apply list_elem_of_filter. split; [reflexivity | left]. }
  destruct (foldl _ _ _ !! k) as [acc |] eqn:Hl.
  2:{ rewrite Hc in Hin. inversion Hin. }
  assert (Hb : mkBucket k (compute (Func opts) acc) (count acc)
               ∈ Aggregate (p0 :: l) opts).
  { apply Aggregate_elem; [discriminate | lia |]. exists acc. auto. }
  rewrite Hnil in Hb. inversion Hb.
Qed.

Lemma Aggregate_empty_iff_sample :
  Z.of_nat (length Sample.points4) < two63
  /\ (Aggregate Sample.points4 (mkAggregateOptions AggAvg 0) = []
      <-> Sample.points4 = [] \/ 0 <= 0).
Proof.
  assert (H : Z.of_nat (length Sample.points4) < two63)
    by (unfold two63; simpl; lia).
  split; [exact H |].
  exact (Aggregate_empty_iff Sample.points4 (mkAggregateOptions AggAvg 0) H).
Defined.

Lemma strictly_sorted {A} (f : A -> Z) (l : list A) :
  StronglySorted (fun a b => f a <= f b) l -> NoDup (f <$> l) ->
  StronglySorted (fun a b => f a < f b) l.
Proof.
  induction l as [| x l IH]; intros Hs Hnd; [constructor |].
  apply StronglySorted_inv in Hs as [Hs Hx].
  rewrite fmap_cons in Hnd. apply NoDup_cons in Hnd as [Hnin Hnd].
  constructor; [auto |].
  rewrite Forall_forall in Hx |- *. intros y Hy.
  specialize (Hx y Hy).
  assert (f x <> f y).
  { intros E. apply Hnin. rewrite E. apply list_elem_of_fmap. eauto. }
  lia.
Qed.

(** The buckets come out in strictly ascending timestamp order: sorted,
    and no timestamp twice. *)
Theorem Aggregate_ascending (points : list Read.DataPoint)
    (opts : AggregateOptions) :
  StronglySorted (fun a b => Timestamp a < Timestamp b)
    (Aggregate points opts).
Proof.
  destruct (decide (points = [])) as [-> | Hne]; [constructor |].
  destruct (Z.le_gt_cases (BucketSize opts) 0) as [Hbs | Hbs].
  { rewrite Aggregate_degenerate by auto. constructor. }
  rewrite (Aggregate_unfold _ _ Hne) by lia.
  apply strictly_sorted.
  - apply (StronglySorted_merge_sort bucket_le).
  - unfold sortBuckets. rewrite merge_sort_Permutation.
    rewrite <- list_fmap_compose.
    apply (NoDup_fst_map_to_list
             (foldl (addPoint (BucketSize opts)) ∅ points)).
Qed.

(** The sum of a column of integers. *)
Lemma sum_Permutation {A} (f : A -> Z) (l1 l2 : list A) :
  l1 ≡ₚ l2 -> foldr (fun x s => f x + s) 0 l1 = foldr (fun x s => f x + s) 0 l2.
Proof. induction 1; simpl; lia. Qed.

Lemma buckets_total (bucketSize : Z) (points : list Read.DataPoint) :
  Z.of_nat (length points) < two63 ->
  foldr (fun kv s => count kv.2 + s) 0
    (map_to_list (foldl (addPoint bucketSize) ∅ points))
  = Z.of_nat (length points).
Proof.
  induction points as [| p l IH] using rev_ind; intros Hlen.
  - simpl. rewrite map_to_list_empty. reflexivity.
  - rewrite length_app in Hlen |- *. simpl in Hlen |- *.
    specialize (IH ltac:(lia)).
    rewrite foldl_snoc. unfold addPoint at 1.
    set (m := foldl (addPoint bucketSize) ∅ l) in *.
    set (kp := bucketKey bucketSize (Read.Timestamp p)).
    pose proof (buckets_count bucketSize l ltac:(lia) kp) as Hc.
    fold m in Hc.
    pose proof (inBucket_length bucketSize kp l) as Hle.
    destruct (m !! kp) as [acc |] eqn:Hl; cbn [default].
    + destruct Hc as [Hc Hpos].
      assert (Hd : map_to_list m ≡ₚ (kp, acc) :: map_to_list (delete kp m))
        by (symmetry; apply map_to_list_delete, Hl).
      rewrite (sum_Permutation _ _ _ Hd) in IH. simpl in IH.
      rewrite <- (insert_delete_eq m kp).
      rewrite (sum_Permutation _ _ _
                 (map_to_list_insert _ kp _ (lookup_delete_eq m kp))).
      simpl. unfold to_int64, two63, two64 in *.
      rewrite Z.mod_small by lia. lia.
    + rewrite (sum_Permutation _ _ _ (map_to_list_insert _ kp _ Hl)).
      simpl. rewrite IH. unfold to_int64, two63, two64. 
      rewrite Z.mod_small by lia. lia.
Qed.

(** Every point is counted once: the counts of the buckets add up to the
    number of points, and no bucket is empty. *)
Theorem Aggregate_counts (points : list Read.DataPoint)
    (opts : AggregateOptions) :
  Z.of_nat (length points) < two63 -> 0 < BucketSize opts ->
  foldr (fun b s => Count b + s) 0 (Aggregate points opts)
    = Z.of_nat (length points)
  /\ Forall (fun b => 1 <= Count b) (Aggregate points opts).
Proof.
  intros Hlen Hbs.
  destruct (decide (points = [])) as [-> | Hne];
    [split; [reflexivity | constructor] |].
  split.
  - rewrite (Aggregate_unfold _ _ Hne Hbs). unfold sortBuckets.
    rewrite (sum_Permutation _ _ _ (merge_sort_Permutation _ _)).
    rewrite <- (buckets_total (BucketSize opts) points Hlen).
    generalize (map_to_list (foldl (addPoint (BucketSize opts)) ∅ points)).
    intros l. induction l as [| kv l IH]; [reflexivity |].
    rewrite fmap_cons. cbn [foldr Count]. rewrite IH. reflexivity.
  - rewrite Forall_forall. intros b Hb.
    apply Aggregate_elem in Hb as (acc & Hl & ->); auto.
    pose proof (buckets_count (BucketSize opts) points Hlen (Timestamp b))
      as Hc.
    rewrite Hl in Hc. simpl. lia.
Qed.

Lemma Aggregate_counts_sample :
  (Z.of_nat (length Sample.points4) < two63 /\ 0 < 2000)
  /\ foldr (fun b s => Count b + s) 0
       (Aggregate Sample.points4 (mkAggregateOptions AggMax 2000))
     = Z.of_nat (length Sample.points4)
  /\ Forall (fun b => 1 <= Count b)
       (Aggregate Sample.points4 (mkAggregateOptions AggMax 2000)).
Proof.
  assert (H1 : Z.of_nat (length Sample.points4) < two63)
    by (unfold two63; simpl; lia).
  assert (H2 : 0 < 2000) by lia.
  split; [auto |].
  exact (Aggregate_counts Sample.points4 (mkAggregateOptions AggMax 2000)
           H1 H2).
Defined.

(** Truncation makes bucket 0 twice as wide as the others: every
    timestamp strictly between [-bucketSize] and [bucketSize] has key 0,
    and a negative timestamp is never below its bucket key. *)
Theorem bucketKey_around_zero (bucketSize ts : Z) :
  0 < bucketSize -> is_int64 bucketSize -> is_int64 ts ->
  (- bucketSize < ts < bucketSize -> bucketKey bucketSize ts = 0)
  /\ (ts < 0 -> ts <= bucketKey bucketSize ts <= 0).
Proof.
  intros Hb Hb64 Hts. rewrite (bucketKey_quot _ _ Hb Hb64 Hts).
  pose proof (Z.quot_rem' ts bucketSize) as Hqr.
  split.
  - intros Hr. destruct (Z.le_gt_cases 0 ts) as [Hpos | Hneg].
    + rewrite Z.quot_small by lia. reflexivity.
    + rewrite <- (Z.opp_involutive ts), Z.quot_opp_l by lia.
      rewrite Z.quot_small by lia. reflexivity.
  - intros Hneg.
    pose proof (Z.rem_bound_pos_neg ts bucketSize Hb ltac:(lia)).
    assert (Z.quot ts bucketSize <= 0).
    { rewrite <- (Z.opp_involutive ts), Z.quot_opp_l by lia.
      pose proof (Z.quot_pos (- ts) bucketSize ltac:(lia) Hb). lia. }
    nia.
Qed.

Lemma bucketKey_around_zero_sample :
  (0 < 2000 /\ is_int64 2000 /\ is_int64 (-1999))
  /\ (- 2000 < -1999 < 2000 -> bucketKey 2000 (-1999) = 0)
  /\ (-1999 < 0 -> -1999 <= bucketKey 2000 (-1999) <= 0).
Proof.
  assert (H1 : 0 < 2000) by lia.
  assert (H2 : is_int64 2000) by (unfold is_int64, two63; lia).
  assert (H3 : is_int64 (-1999)) by (unfold is_int64, two63; lia).
  split; [auto |].
  exact (bucketKey_around_zero 2000 (-1999) H1 H2 H3).
Defined.

End AggMore.

(** ** Tagsets *)

Module TagsetFacts.
Import Bytes Codec Tagset BadgerFacts.

(** Go compares strings byte by byte, as [bytes.Compare] does. *)
Lemma String_compare_bytes (a b : string) :
  String.compare a b = Compare (bytesOf a) (bytesOf b).
Proof.
  revert b. induction a as [| x a IH]; intros [| y b]; try reflexivity.
  change (bytesOf (String x a))
    with (Z.of_N (N_of_ascii x) :: bytesOf a).
  change (bytesOf (String y b))
    with (Z.of_N (N_of_ascii y) :: bytesOf b).
  cbn [String.compare Compare]. rewrite IH.
  unfold Ascii.compare. rewrite N2Z.inj_compare. reflexivity.
Qed.

Lemma bytesOf_inj (a b : string) : bytesOf a = bytesOf b -> a = b.
Proof.
  revert b. induction a as [| x a IH]; intros [| y b]; try discriminate;
    [reflexivity |].
  change (bytesOf (String x a))
    with (Z.of_N (N_of_ascii x) :: bytesOf a).
  change (bytesOf (String y b))
    with (Z.of_N (N_of_ascii y) :: bytesOf b).
  intros [= Hxy Hab]. apply N2Z.inj in Hxy.
  f_equal; [| auto].
  rewrite <- (ascii_N_embedding x), <- (ascii_N_embedding y). congruence.
Qed.

Lemma less_spec (a b : Tag) :
  less a b = true <->
  lt (bytesOf (Key a)) (bytesOf (Key b))
  \/ (Key a = Key b /\ lt (bytesOf (Value a)) (bytesOf (Value b))).
Proof.
  unfold less, String.ltb, lt. rewrite !String_compare_bytes.
  destruct (String.eqb_spec (Key a) (Key b)) as [E | NE]; cbn [negb].
  - rewrite E, Compare_refl.
    destruct (Compare (bytesOf (Value a)) (bytesOf (Value b)));
      split; try discriminate; auto; intros [H | [_ H]]; discriminate.
  - destruct (Compare (bytesOf (Key a)) (bytesOf (Key b))) eqn:C;
      split; try discriminate; auto; intros [H | [H _]];
      try discriminate; contradiction.
Qed.

Lemma lt_asym (a b : list Z) : lt a b -> lt b a -> False.
Proof. intros H1 H2. exact (lt_irrefl a (lt_trans _ _ _ H1 H2)). Qed.

Lemma lt_total (a b : list Z) : lt a b \/ a = b \/ lt b a.
Proof.
  unfold lt. rewrite (Compare_antisym a b).
  destruct (Compare a b) eqn:E; simpl; auto.
  right. left. apply Compare_eq, E.
Qed.

#[export] Instance tag_le_total : Total tag_le.
Proof.
  intros a b. unfold tag_le.
  destruct (less b a) eqn:E1; [| auto]. right.
  destruct (less a b) eqn:E2; [| reflexivity].
  apply less_spec in E1, E2. exfalso.
  destruct E1 as [H1 | [K1 H1]], E2 as [H2 | [K2 H2]].
  - exact (lt_asym _ _ H1 H2).
  - rewrite K2 in H1. exact (lt_irrefl _ H1).
  - rewrite K1 in H2. exact (lt_irrefl _ H2).
  - exact (lt_asym _ _ H1 H2).
Qed.

Lemma tag_le_spec (a b : Tag) :
  tag_le a b <->
  lt (bytesOf (Key a)) (bytesOf (Key b))
  \/ (Key a = Key b
      /\ (lt (bytesOf (Value a)) (bytesOf (Value b)) \/ Value a = Value b)).
Proof.
  unfold tag_le. split.
  - intros H.
    destruct (lt_total (bytesOf (Key a)) (bytesOf (Key b)))
      as [Hk | [Hk | Hk]]; [auto | |].
    + apply bytesOf_inj in Hk. right. split; [exact Hk |].
      destruct (lt_total (bytesOf (Value a)) (bytesOf (Value b)))
        as [Hv | [Hv | Hv]]; [auto | right; apply bytesOf_inj, Hv |].
      assert (less b a = true) by (apply less_spec; auto).
      congruence.
    + assert (less b a = true) by (apply less_spec; auto). congruence.
  - intros H. destruct (less b a) eqn:E; [| reflexivity]. exfalso.
    apply less_spec in E.
    destruct H as [H | [K [H | H]]], E as [E | [K' E]].
    + exact (lt_asym _ _ H E).
    + rewrite K' in H. exact (lt_irrefl _ H).
    + rewrite K in E. exact (lt_irrefl _ E).
    + exact (lt_asym _ _ H E).
    + rewrite K in E. exact (lt_irrefl _ E).
    + rewrite H in E. exact (lt_irrefl _ E).
Qed.

#[export] Instance tag_le_trans : Transitive tag_le.
Proof.
  intros a b c. rewrite !tag_le_spec.
  intros [H1 | [K1 H1]] [H2 | [K2 H2]].
  - left. exact (lt_trans _ _ _ H1 H2).
  - left. rewrite <- K2. exact H1.
  - left. rewrite K1. exact H2.
  - right. split; [congruence |].
    destruct H1 as [H1 | H1], H2 as [H2 | H2].
    + left. exact (lt_trans _ _ _ H1 H2).
    + left. rewrite <- H2. exact H1.
    + left. rewrite H1. exact H2.
    + right. congruence.
Qed.

#[export] Instance tag_le_antisym : AntiSymm (=) tag_le.
Proof.
  intros a b. rewrite !tag_le_spec.
  intros [H1 | [K1 H1]] [H2 | [K2 H2]].
  - destruct (lt_asym _ _ H1 H2).
  - rewrite K2 in H1. destruct (lt_irrefl _ H1).
  - rewrite K1 in H2. destruct (lt_irrefl _ H2).
  - destruct a as [ka va], b as [kb vb]. simpl in *. subst kb.
    f_equal.
    destruct H1 as [H1 | H1], H2 as [H2 | H2]; auto.
    destruct (lt_asym _ _ H1 H2).
Qed.

(** [Sort] rearranges the tags into ascending order by key, then by
    value; the result depends on the tags only, not on their order
    before the call. *)
Theorem Sort_canonical (t t' : Tagset) :
  StronglySorted tag_le (Sort t)
  /\ Sort t ≡ₚ t
  /\ (t ≡ₚ t' -> Sort t = Sort t').
Proof.
  split; [apply StronglySorted_merge_sort; apply _ |].
  split; [apply merge_sort_Permutation |].
  intros Hp.
  apply (Sorted_unique tag_le).
  - apply Sorted_merge_sort; apply _.
  - apply Sorted_merge_sort; apply _.
  - unfold Sort. rewrite !merge_sort_Permutation. exact Hp.
Qed.

Lemma Get_found (t : Tagset) (k v : string) :
  NoDup (Key <$> t) -> mkTag k v ∈ t -> Get t k = v.
Proof.
  induction t as [| x t IH]; intros Hnd Hin; [inversion Hin |].
  rewrite fmap_cons in Hnd. apply NoDup_cons in Hnd as [Hx Hnd].
  simpl. apply elem_of_cons in Hin as [<- | Hin].
  - simpl. rewrite String.eqb_refl. reflexivity.
  - destruct (String.eqb_spec (Key x) k) as [E | NE]; [| auto].
    exfalso. apply Hx. rewrite E.
    apply list_elem_of_fmap. exists (mkTag k v). auto.
Qed.

Lemma Get_missing (t : Tagset) (k : string) :
  k ∉ Key <$> t -> Get t k = "".
Proof.
  induction t as [| x t IH]; intros Hn; [reflexivity |].
  rewrite fmap_cons in Hn. apply not_elem_of_cons in Hn as [Hx Hn].
  simpl. destruct (String.eqb_spec (Key x) k); [congruence | auto].
Qed.

(** [FromMap(m).Get(k)] is [m[k]]: the value of the key, or the empty
    string when the map has no such key. *)
Theorem Get_FromMap (m : gmap string string) (k : string) :
  Get (FromMap m) k = default "" (m !! k).
Proof.
  unfold FromMap. destruct (decide (size m = 0%nat)) as [E | _].
  { apply map_size_empty_iff in E. subst m. reflexivity. }
  set (l := (fun kv : string * string => mkTag kv.1 kv.2) <$> map_to_list m).
  assert (Hp : Sort l ≡ₚ l) by apply merge_sort_Permutation.
  assert (Hkeys : Key <$> l = (map_to_list m).*1).
  { unfold l. rewrite <- list_fmap_compose. reflexivity. }
  assert (Hnd : NoDup (Key <$> Sort l)).
  { rewrite Hp, Hkeys. apply NoDup_fst_map_to_list. }
  destruct (m !! k) as [v |] eqn:Hl; simpl.
  - apply Get_found; [exact Hnd |]. rewrite Hp. unfold l.
    apply list_elem_of_fmap. exists (k, v). split; [reflexivity |].
    apply elem_of_map_to_list, Hl.
  - apply Get_missing. rewrite Hp, Hkeys.
    intros Hin. apply list_elem_of_fmap in Hin as ([k' v] & -> & Hin).
    apply elem_of_map_to_list in Hin. simpl in Hl. congruence.
Qed.

(** [FromMap] keeps one tag per map entry, and nothing else. *)
Theorem FromMap_tags (m : gmap string string) (k v : string) :
  (mkTag k v ∈ FromMap m <-> m !! k = Some v)
  /\ length (FromMap m) = size m.
Proof.
  unfold FromMap. destruct (decide (size m = 0%nat)) as [E | _].
  { pose proof E as E'. apply map_size_empty_iff in E. subst m.
    split; [| reflexivity]. rewrite lookup_empty.
    split; [intros H; inversion H | discriminate]. }
  split.
  - unfold Sort. rewrite merge_sort_Permutation, list_elem_of_fmap. split.
    + intros ([k' v'] & [= -> ->] & Hin). apply elem_of_map_to_list, Hin.
    + intros Hl. exists (k, v). split; [reflexivity |].
      apply elem_of_map_to_list, Hl.
  - unfold Sort. rewrite merge_sort_Permutation, length_fmap.
    apply length_map_to_list.
Qed.

(** [Equal] decides equality of tagsets. *)
Theorem Equal_iff (t other : Tagset) : Equal t other = true <-> t = other.
Proof.
  revert other. induction t as [| a t IH]; intros [| b other]; simpl;
    try (split; congruence).
  rewrite andb_true_iff, bool_decide_eq_true, IH.
  split; [intros [-> ->]; reflexivity | intros [= -> ->]; auto].
Qed.

End TagsetFacts.

(** ** More on the series registry *)

Module SeriesMore.
Import Int Bytes Codec Badger Series BytesFacts CodecFacts BadgerFacts.
Import SeriesFacts TagsetFacts.

Section WithLibraries.
Variable Sum64 : string -> Z.
Variable json_Marshal : SeriesMeta -> option (list Z).
Variable json_Unmarshal : list Z -> option SeriesMeta.

Local Abbreviation GetOrCreate := (Series.GetOrCreate Sum64 json_Marshal).
Local Abbreviation ComputeSeriesID := (Series.ComputeSeriesID Sum64).

(** [GetOrCreate] never panics and always returns the hash of the
    sorted tags.  It never removes an id from the cache.  It writes the
    store exactly when it returns [created = true] without an error,
    and then it only sets the record of that id, which was absent. *)
Theorem GetOrCreate_writes_iff_created (commits : bool) (metric : string)
    (tags : Tagset.Tagset) (r : SeriesRegistry) :
  exists created err r',
    GetOrCreate commits metric tags r
      = Some ((ComputeSeriesID metric (Tagset.Sort tags), created, err), r')
    /\ cache r ⊆ cache r'
    /\ (created = true /\ err = None ->
        exists value,
          json_Marshal (mkSeriesMeta metric (Tagset.Sort tags)) = Some value
          /\ Badger.Get
               (seriesKey (ComputeSeriesID metric (Tagset.Sort tags))) (db r)
             = None
          /\ db r'
             = Badger.Set_
                 (seriesKey (ComputeSeriesID metric (Tagset.Sort tags)))
                 value (db r))
    /\ (~ (created = true /\ err = None) -> db r' = db r).
Proof. apply GetOrCreate_effect. Qed.

(** The id and the whole outcome of [GetOrCreate] do not depend on the
    order in which the caller lists the tags. *)
Theorem GetOrCreate_tag_order (commits : bool) (metric : string)
    (tags tags' : Tagset.Tagset) (r : SeriesRegistry) :
  tags ≡ₚ tags' ->
  GetOrCreate commits metric tags r = GetOrCreate commits metric tags' r.
Proof.
  intros Hp. unfold Series.GetOrCreate.
  destruct (Sort_canonical tags tags') as (_ & _ & Hs).
  rewrite (Hs Hp). reflexivity.
Qed.

(** When the store does not commit, the id is cached all the same: the
    call reports [created = true] with the error, the record is not
    written, and the next call answers [created = false] without
    error from the cache. *)
Theorem GetOrCreate_failed_commit (metric : string) (tags : Tagset.Tagset)
    (r : SeriesRegistry) (value : list Z) :
  ComputeSeriesID metric (Tagset.Sort tags) ∉ cache r ->
  Badger.Get (seriesKey (ComputeSeriesID metric (Tagset.Sort tags))) (db r)
    = None ->
  json_Marshal (mkSeriesMeta metric (Tagset.Sort tags)) = Some value ->
  exists r1,
    GetOrCreate false metric tags r
      = Some ((ComputeSeriesID metric (Tagset.Sort tags), true,
               Some ErrCommit), r1)
    /\ db r1 = db r
    /\ GetOrCreate true metric tags r1
       = Some ((ComputeSeriesID metric (Tagset.Sort tags), false, None), r1)
    /\ Series.Get json_Unmarshal
         (ComputeSeriesID metric (Tagset.Sort tags)) r1
       = Some (inr ErrKeyNotFound).
Proof.
  intros Hout Hget Hm.
  set (id := ComputeSeriesID metric (Tagset.Sort tags)) in *.
  eexists. split; [| split; [| split]].
  - unfold Series.GetOrCreate. fold id.
    rewrite (decide_False (P := id ∈ cache r)) by exact Hout.
    rewrite EncodeSeriesKey_make. cbn [mbind option_bind].
    rewrite Hget, Hm. reflexivity.
  - reflexivity.
  - unfold Series.GetOrCreate. fold id. cbn [cache].
    rewrite (decide_True (P := id ∈ {[id]} ∪ cache r)) by set_solver.
    reflexivity.
  - unfold Series.Get. rewrite EncodeSeriesKey_make.
    cbn [mbind option_bind db]. rewrite Hget. reflexivity.
Qed.

(** With a store that commits, [GetOrCreate] keeps the cache sound:
    every cached id has its record in the store. *)
Theorem GetOrCreate_keeps_cache_sound (metric : string)
    (tags : Tagset.Tagset) (r r' : SeriesRegistry)
    (res : Z * bool * option error) :
  cache_sound r ->
  GetOrCreate true metric tags r = Some (res, r') ->
  cache_sound r'.
Proof.
  intros Hs. unfold Series.GetOrCreate.
  set (id := ComputeSeriesID metric (Tagset.Sort tags)).
  destruct (decide (id ∈ cache r)); [intros [= _ <-]; exact Hs |].
  rewrite EncodeSeriesKey_make. cbn [mbind option_bind].
  destruct (Badger.Get (seriesKey id) (db r)) as [v |] eqn:Hget.
  { intros [= _ <-]. intros i Hi. cbn [cache db] in *.
    apply elem_of_union in Hi as [Hi | Hi]; [| auto].
    apply elem_of_singleton in Hi. subst i. rewrite Hget. eauto. }
  destruct (json_Marshal _) as [value |]; [| intros [= _ <-]; exact Hs].
  intros [= _ <-]. intros i Hi. cbn [cache db] in *.
  destruct (decide (seriesKey i = seriesKey id)) as [E | NE].
  - rewrite E, Get_Set_eq. eauto.
  - rewrite Get_Set_ne by congruence.
    apply elem_of_union in Hi as [Hi | Hi]; [| auto].
    apply elem_of_singleton in Hi. subst i. congruence.
Qed.

(** [Exists] answers whether the record is stored, never changes the
    store, and [Get] reports a missing record as not found. *)
Theorem Exists_iff_stored (id : Z) (r : SeriesRegistry) :
  cache_sound r ->
  exists b r',
    Series.Exists id r = Some (b, r')
    /\ (b = true <-> is_Some (Badger.Get (seriesKey id) (db r)))
    /\ db r' = db r
    /\ cache_sound r'
    /\ (b = false ->
        Series.Get json_Unmarshal id r = Some (inr ErrKeyNotFound)).
Proof.
  intros Hs. unfold Series.Exists, Series.Get.
  rewrite EncodeSeriesKey_make. cbn [mbind option_bind].
  destruct (decide (id ∈ cache r)) as [Hin | Hout].
  { exists true, r. split; [reflexivity |].
    split; [split; auto | ].
    split; [reflexivity |]. split; [exact Hs | discriminate]. }
  destruct (Badger.Get (seriesKey id) (db r)) as [v |] eqn:Hget.
  - eexists true, _. split; [reflexivity |].
    split; [split; eauto |].
    split; [reflexivity |]. split; [| discriminate].
    intros i Hi. cbn [cache db] in *.
    apply elem_of_union in Hi as [Hi | Hi]; [| auto].
    apply elem_of_singleton in Hi. subst i. rewrite Hget. eauto.
  - exists false, r. split; [reflexivity |].
    split; [split; [discriminate | intros [? ?]; discriminate] |].
    split; [reflexivity |]. split; [exact Hs | reflexivity].
Qed.

End WithLibraries.

(** The hash covers the concatenation of the metric, the keys and the
    values without separators: moving characters across a boundary
    between key and value, or between metric and first key, gives the
    same id, whatever the hash function. *)
Theorem ComputeSeriesID_boundaries (Sum64 : string -> Z)
    (metric k a v : string) :
  Series.ComputeSeriesID Sum64 metric [Tagset.mkTag (String.append k a) v]
  = Series.ComputeSeriesID Sum64 metric [Tagset.mkTag k (String.append a v)]
  /\ Series.ComputeSeriesID Sum64 (String.append metric a) [Tagset.mkTag k v]
     = Series.ComputeSeriesID Sum64 metric [Tagset.mkTag (String.append a k) v].
Proof.
  assert (Hassoc : forall x y z : string,
            String.append (String.append x y) z
            = String.append x (String.append y z)).
  { intros x y z. induction x as [| c x IH]; [reflexivity |].
    change (String c (String.append (String.append x y) z)
            = String c (String.append x (String.append y z))).
    rewrite IH. reflexivity. }
  unfold Series.ComputeSeriesID, Series.hashInput.
  cbn [fmap list_fmap String.concat Tagset.Key Tagset.Value].
  split; f_equal; rewrite ?Hassoc; reflexivity.
Qed.

Lemma GetOrCreate_tag_order_sample :
  [Tagset.mkTag "env" "prod"; Tagset.mkTag "host" "h1"]
    ≡ₚ [Tagset.mkTag "host" "h1"; Tagset.mkTag "env" "prod"]
  /\ Series.GetOrCreate Sample.lengthHash Sample.metricBytes true "cpu"
       [Tagset.mkTag "env" "prod"; Tagset.mkTag "host" "h1"] emptyRegistry
     = Series.GetOrCreate Sample.lengthHash Sample.metricBytes true "cpu"
       [Tagset.mkTag "host" "h1"; Tagset.mkTag "env" "prod"] emptyRegistry.
Proof.
  assert (H : [Tagset.mkTag "env" "prod"; Tagset.mkTag "host" "h1"]
              ≡ₚ [Tagset.mkTag "host" "h1"; Tagset.mkTag "env" "prod"])
    by apply perm_swap.
  split; [exact H |].
  exact (GetOrCreate_tag_order Sample.lengthHash Sample.metricBytes true
           "cpu" _ _ emptyRegistry H).
Defined.

Lemma GetOrCreate_failed_commit_sample :
  ((Series.ComputeSeriesID Sample.lengthHash "cpu"
      (Tagset.Sort Sample.tags_a_bc) ∉ cache emptyRegistry)
   /\ Badger.Get (seriesKey (Series.ComputeSeriesID Sample.lengthHash "cpu"
                               (Tagset.Sort Sample.tags_a_bc)))
        (db emptyRegistry) = None
   /\ Sample.metricBytes (mkSeriesMeta "cpu" (Tagset.Sort Sample.tags_a_bc))
      = Some [99; 112; 117])
  /\ exists r1,
    Series.GetOrCreate Sample.lengthHash Sample.metricBytes false "cpu"
        Sample.tags_a_bc emptyRegistry
      = Some ((Series.ComputeSeriesID Sample.lengthHash "cpu"
                 (Tagset.Sort Sample.tags_a_bc), true, Some ErrCommit), r1)
    /\ db r1 = db emptyRegistry
    /\ Series.GetOrCreate Sample.lengthHash Sample.metricBytes true "cpu"
         Sample.tags_a_bc r1
       = Some ((Series.ComputeSeriesID Sample.lengthHash "cpu"
                  (Tagset.Sort Sample.tags_a_bc), false, None), r1)
    /\ Series.Get (fun _ => None)
         (Series.ComputeSeriesID Sample.lengthHash "cpu"
            (Tagset.Sort Sample.tags_a_bc)) r1
       = Some (inr ErrKeyNotFound).
Proof.
  assert (H1 : Series.ComputeSeriesID Sample.lengthHash "cpu"
                 (Tagset.Sort Sample.tags_a_bc) ∉ cache emptyRegistry)
    by apply not_elem_of_empty.
  assert (H2 : Badger.Get
                 (seriesKey (Series.ComputeSeriesID Sample.lengthHash "cpu"
                               (Tagset.Sort Sample.tags_a_bc)))
                 (db emptyRegistry) = None) by reflexivity.
  assert (H3 : Sample.metricBytes
                 (mkSeriesMeta "cpu" (Tagset.Sort Sample.tags_a_bc))
               = Some [99; 112; 117]) by reflexivity.
  split; [auto |].
  exact (GetOrCreate_failed_commit Sample.lengthHash Sample.metricBytes
           (fun _ => None) "cpu" Sample.tags_a_bc emptyRegistry _ H1 H2 H3).
Defined.

Lemma GetOrCreate_keeps_cache_sound_sample :
  (cache_sound emptyRegistry
   /\ Series.GetOrCreate Sample.lengthHash Sample.metricBytes true "cpu"
        Sample.tags_a_bc emptyRegistry
      = Some ((6, true, None),
              mkSeriesRegistry [(seriesKey 6, [99; 112; 117])] ({[6]} ∪ ∅)))
  /\ cache_sound
       (mkSeriesRegistry [(seriesKey 6, [99; 112; 117])] ({[6]} ∪ ∅)).
Proof.
  assert (H1 : cache_sound emptyRegistry).
  { intros id Hin. cbn in Hin. apply not_elem_of_empty in Hin. destruct Hin. }
  assert (H2 : Series.GetOrCreate Sample.lengthHash Sample.metricBytes true
                 "cpu" Sample.tags_a_bc emptyRegistry
               = Some ((6, true, None),
                       mkSeriesRegistry [(seriesKey 6, [99; 112; 117])]
                         ({[6]} ∪ ∅))) by reflexivity.
  split; [auto |].
  exact (GetOrCreate_keeps_cache_sound Sample.lengthHash Sample.metricBytes
           "cpu" Sample.tags_a_bc emptyRegistry _ _ H1 H2).
Defined.

Lemma Exists_iff_stored_sample :
  cache_sound emptyRegistry
  /\ exists b r',
    Series.Exists 12345 emptyRegistry = Some (b, r')
    /\ (b = true <-> is_Some (Badger.Get (seriesKey 12345) (db emptyRegistry)))
    /\ db r' = db emptyRegistry
    /\ cache_sound r'
    /\ (b = false ->
        Series.Get (fun _ => None) 12345 emptyRegistry
        = Some (inr ErrKeyNotFound)).
Proof.
  assert (H1 : cache_sound emptyRegistry).
  { intros id Hin. cbn in Hin. apply not_elem_of_empty in Hin. destruct Hin. }
  split; [exact H1 |].
  exact (Exists_iff_stored (fun _ => None) 12345 emptyRegistry H1).
Defined.

End SeriesMore.

(** ** The tag index and filter evaluation *)

Module IndexMore.
Import Index QueryEval BadgerFacts.

Lemma indexKey_inj (a b : string) : indexKey a = indexKey b -> a = b.
Proof.
  unfold indexKey. intros [= H]. apply TagsetFacts.bytesOf_inj. exact H.
Qed.

Lemma wf_not_fresh (idx : TagIndex) (key : string) (bm : positive) :
  index_wf idx -> cache idx !! key = Some bm ->
  bm <> fresh (dom (heap idx)).
Proof.
  intros [Hal _] Hc ->. destruct (Hal _ _ Hc) as [s Hs].
  rewrite IndexFacts.fresh_not_in in Hs. discriminate.
Qed.

(** Allocating bitmaps and caching new ones under keys that had none
    keeps the cache well formed. *)
Lemma wf_heap (idx : TagIndex) (h' : Heap) :
  index_wf idx ->
  (forall l s, heap idx !! l = Some s -> is_Some (h' !! l)) ->
  index_wf (mkTagIndex (db idx) (cache idx) h').
Proof.
  intros [Hal Hinj] Hh. split; simpl; [| exact Hinj].
  intros key bm Hc. destruct (Hal _ _ Hc) as [s Hs]. eauto.
Qed.

Lemma wf_insert (idx : TagIndex) (key : string) (h' : Heap) :
  index_wf idx ->
  (forall l s, heap idx !! l = Some s -> is_Some (h' !! l)) ->
  is_Some (h' !! fresh (dom (heap idx))) ->
  index_wf (mkTagIndex (db idx)
              (<[key := fresh (dom (heap idx))]> (cache idx)) h').
Proof.
  intros Hwf Hh Hf. pose proof Hwf as [Hal Hinj]. split; simpl.
  - intros key' bm. destruct (decide (key' = key)) as [-> | Hne].
    + rewrite lookup_insert_eq. intros [= <-]. exact Hf.
    + rewrite lookup_insert_ne by congruence. intros Hc.
      destruct (Hal _ _ Hc) as [s Hs]. eauto.
  - intros k1 k2 bm.
    destruct (decide (k1 = key)) as [-> | H1];
      destruct (decide (k2 = key)) as [-> | H2]; [reflexivity | | |].
    + rewrite lookup_insert_eq, lookup_insert_ne by congruence.
      intros [= <-] Hc. destruct (wf_not_fresh _ _ _ Hwf Hc). reflexivity.
    + rewrite lookup_insert_eq, lookup_insert_ne by congruence.
      intros Hc [= <-]. destruct (wf_not_fresh _ _ _ Hwf Hc). reflexivity.
    + rewrite !lookup_insert_ne by congruence. apply Hinj.
Qed.

Section WithLibraries.
Variable ToBytes : gset Z -> option (list Z).
Variable ReadFrom : list Z -> option (gset Z).

(** The postings stay what they were when bitmaps are allocated. *)
Lemma posting_heap (idx : TagIndex) (h' : Heap) (key : string) :
  index_wf idx ->
  (forall l s, heap idx !! l = Some s -> h' !! l = Some s) ->
  posting ReadFrom (mkTagIndex (db idx) (cache idx) h') key
  = posting ReadFrom idx key.
Proof.
  intros [Hal _] Hh. unfold posting. simpl.
  destruct (cache idx !! key) as [bm |] eqn:Hc; [| reflexivity].
  destruct (Hal _ _ Hc) as [s Hs]. rewrite Hs. auto.
Qed.

(** ... and when the posting of a key is cached in a new bitmap. *)
Lemma posting_insert (idx : TagIndex) (key key' : string) (h' : Heap) :
  index_wf idx ->
  cache idx !! key = None ->
  (forall l s, heap idx !! l = Some s -> h' !! l = Some s) ->
  h' !! fresh (dom (heap idx)) = posting ReadFrom idx key ->
  posting ReadFrom
    (mkTagIndex (db idx) (<[key := fresh (dom (heap idx))]> (cache idx)) h')
    key'
  = posting ReadFrom idx key'.
Proof.
  intros [Hal _] Hmiss Hh Hf. unfold posting at 1. simpl.
  destruct (decide (key' = key)) as [-> | Hne].
  - rewrite lookup_insert_eq. exact Hf.
  - rewrite lookup_insert_ne by congruence. unfold posting.
    destruct (cache idx !! key') as [bm |] eqn:Hc; [| reflexivity].
    destruct (Hal _ _ Hc) as [s Hs]. rewrite Hs. auto.
Qed.

Lemma heap_keeps_fresh (h : Heap) (t : gset Z) (l : positive) (s : gset Z) :
  h !! l = Some s -> <[fresh (dom h) := t]> h !! l = Some s.
Proof.
  intros Hl. rewrite lookup_insert_ne; [exact Hl |].
  intros <-. rewrite IndexFacts.fresh_not_in in Hl. discriminate.
Qed.

(** [getBitmap] returns the posting of the key in a bitmap that is
    cached from then on; it changes no posting and no existing bitmap. *)
Lemma getBitmap_spec (key : string) (idx : TagIndex) :
  index_wf idx ->
  exists res idx',
    getBitmap ReadFrom key idx = (res, idx')
    /\ index_wf idx' /\ db idx' = db idx
    /\ (forall l s, heap idx !! l = Some s -> heap idx' !! l = Some s)
    /\ (forall key', posting ReadFrom idx' key' = posting ReadFrom idx key')
    /\ match posting ReadFrom idx key with
       | Some s => exists bm, res = inl bm /\ heap idx' !! bm = Some s
                              /\ cache idx' !! key = Some bm
       | None => res = inr Series.ErrBitmap
       end.
Proof.
  intros Hwf. pose proof Hwf as [Hal Hinj].
  unfold getBitmap. unfold posting at 3.
  destruct (cache idx !! key) as [bm |] eqn:Hc.
  - exists (inl bm), idx. destruct (Hal _ _ Hc) as [s Hs]. rewrite Hs.
    repeat (split; [solve [auto] |]). eauto.
  - unfold New. cbn zeta iota beta.
    set (f := fresh (dom (heap idx))).
    assert (Hk0 : forall l s, heap idx !! l = Some s ->
                    <[f := (∅ : gset Z)]> (heap idx) !! l = Some s)
      by (intros l s; apply heap_keeps_fresh).
    destruct (Badger.Get (indexKey key) (db idx)) as [val |] eqn:Hg;
      [destruct (ReadFrom val) as [s |] eqn:Hr |].
    + assert (Hk : forall l t, heap idx !! l = Some t ->
                <[f := s]> (<[f := ∅]> (heap idx)) !! l = Some t).
      { intros l t Hl. rewrite insert_insert_eq.
        apply heap_keeps_fresh, Hl. }
      eexists _, _. split; [reflexivity |].
      split; [apply wf_insert; [exact Hwf | eauto |
                rewrite lookup_insert_eq; eauto] |].
      split; [reflexivity |]. split; [exact Hk |].
      split.
      * intros key'. apply posting_insert; [exact Hwf | exact Hc | exact Hk |].
        unfold posting. rewrite Hc, Hg, Hr. apply lookup_insert_eq.
      * exists f. simpl. rewrite !lookup_insert_eq. auto.
    + eexists _, _. split; [reflexivity |].
      split; [apply wf_heap; [exact Hwf | eauto] |].
      split; [reflexivity |]. split; [exact Hk0 |].
      split; [| reflexivity].
      intros key'. apply posting_heap; assumption.
    + eexists _, _. split; [reflexivity |].
      split; [apply wf_insert; [exact Hwf | eauto |
                rewrite lookup_insert_eq; eauto] |].
      split; [reflexivity |]. split; [exact Hk0 |].
      split.
      * intros key'. apply posting_insert; [exact Hwf | exact Hc | exact Hk0 |].
        unfold posting. rewrite Hc, Hg. apply lookup_insert_eq.
      * exists f. simpl. rewrite !lookup_insert_eq. auto.
Qed.

Lemma denote_ext (metric : string) (idx idx' : TagIndex) (f : Filter.Filter) :
  (forall key, posting ReadFrom idx' key = posting ReadFrom idx key) ->
  denote ReadFrom metric idx' f = denote ReadFrom metric idx f.
Proof.
  intros H. induction f as [k v | l IHl r IHr | l IHl r IHr]; simpl;
    [apply H | rewrite IHl, IHr; reflexivity
     | rewrite IHl, IHr; reflexivity].
Qed.


(** The effect of [Intersect] and [Union] on two bitmaps of the index. *)
Lemma combine_spec (idx : TagIndex) (a b : positive) (sa sb : gset Z) :
  index_wf idx ->
  heap idx !! a = Some sa -> heap idx !! b = Some sb ->
  let f := fresh (dom (heap idx)) in
  Intersect [a; b] (heap idx) = Some (f, <[f := sa ∩ sb]> (heap idx))
  /\ Union [a; b] (heap idx) = Some (f, <[f := sa ∪ sb]> (heap idx))
  /\ forall t, 
       index_wf (mkTagIndex (db idx) (cache idx) (<[f := t]> (heap idx)))
       /\ (forall l s, heap idx !! l = Some s ->
             <[f := t]> (heap idx) !! l = Some s)
       /\ (forall key,
             posting ReadFrom
               (mkTagIndex (db idx) (cache idx) (<[f := t]> (heap idx))) key
             = posting ReadFrom idx key).
Proof.
  intros Hwf Ha Hb f.
  assert (H2 : Forall2 (fun bm s => heap idx !! bm = Some s) [a; b] [sa; sb])
    by (repeat constructor; assumption).
  split; [exact (IndexFacts.Intersect_spec _ _ _ H2) |].
  split; [exact (IndexFacts.Union_spec _ _ _ H2) |].
  intros t.
  assert (Hk : forall l s, heap idx !! l = Some s ->
                 <[f := t]> (heap idx) !! l = Some s)
    by (intros l s; apply heap_keeps_fresh).
  split; [apply wf_heap; [exact Hwf | eauto] |].
  split; [exact Hk |].
  intros key. apply posting_heap; assumption.
Qed.

(** [evalFilter], in full. *)
Lemma evalFilter_spec (metric : string) (f : Filter.Filter)
    (idx : TagIndex) :
  index_wf idx ->
  exists res idx',
    evalFilter ReadFrom metric f idx = Some (res, idx')
    /\ index_wf idx' /\ db idx' = db idx
    /\ (forall l s, heap idx !! l = Some s -> heap idx' !! l = Some s)
    /\ (forall key, posting ReadFrom idx' key = posting ReadFrom idx key)
    /\ match denote ReadFrom metric idx f with
       | Some s => exists bm, res = inl bm /\ heap idx' !! bm = Some s
       | None => res = inr Series.ErrBitmap
       end.
Proof.
  revert idx.
  induction f as [k v | l IHl r IHr | l IHl r IHr]; intros idx Hwf.
  - destruct (getBitmap_spec (formatTagKey metric k v) idx Hwf)
      as (res & idx' & Hg & Hwf' & Hdb & Hh & Hp & Hres).
    exists res, idx'. simpl. unfold GetSeriesIDs. rewrite Hg.
    repeat (split; [assumption || reflexivity |]).
    destruct (posting ReadFrom idx (formatTagKey metric k v)) as [s |];
      [| exact Hres].
    destruct Hres as (bm & -> & Hbm & _). eauto.
  - destruct (IHl idx Hwf)
      as (res1 & idx1 & He1 & Hwf1 & Hdb1 & Hh1 & Hp1 & Hres1).
    destruct (IHr idx1 Hwf1)
      as (res2 & idx2 & He2 & Hwf2 & Hdb2 & Hh2 & Hp2 & Hres2).
    rewrite (denote_ext metric idx idx1 r Hp1) in Hres2.
    cbn [evalFilter denote]. rewrite He1. cbn [mbind option_bind].
    destruct (denote ReadFrom metric idx l) as [a |].
    + destruct Hres1 as (bl & -> & Hbl). rewrite He2.
      cbn [mbind option_bind].
      destruct (denote ReadFrom metric idx r) as [b |].
      * destruct Hres2 as (br & -> & Hbr).
        destruct (combine_spec idx2 bl br a b Hwf2 (Hh2 _ _ Hbl) Hbr)
          as (Hi & _ & Hfr).
        destruct (Hfr (a ∩ b)) as (Hwf3 & Hh3 & Hp3).
        rewrite Hi. cbn [mbind option_bind].
        eexists _, _. split; [reflexivity |].
        split; [exact Hwf3 |].
        split; [simpl; congruence |].
        split; [intros x s Hx; apply Hh3, Hh2, Hh1, Hx |].
        split; [intros key; rewrite Hp3, Hp2, Hp1; reflexivity |].
        eexists. split; [reflexivity |]. simpl. apply lookup_insert_eq.
      * subst res2. exists (inr Series.ErrBitmap), idx2.
        split; [reflexivity |]. split; [exact Hwf2 |].
        split; [congruence |].
        split; [intros x s Hx; apply Hh2, Hh1, Hx |].
        split; [intros key; rewrite Hp2, Hp1; reflexivity | reflexivity].
    + subst res1. exists (inr Series.ErrBitmap), idx1.
      repeat (split; [assumption || reflexivity |]). reflexivity.
  - destruct (IHl idx Hwf)
      as (res1 & idx1 & He1 & Hwf1 & Hdb1 & Hh1 & Hp1 & Hres1).
    destruct (IHr idx1 Hwf1)
      as (res2 & idx2 & He2 & Hwf2 & Hdb2 & Hh2 & Hp2 & Hres2).
    rewrite (denote_ext metric idx idx1 r Hp1) in Hres2.
    cbn [evalFilter denote]. rewrite He1. cbn [mbind option_bind].
    destruct (denote ReadFrom metric idx l) as [a |].
    + destruct Hres1 as (bl & -> & Hbl). rewrite He2.
      cbn [mbind option_bind].
      destruct (denote ReadFrom metric idx r) as [b |].
      * destruct Hres2 as (br & -> & Hbr).
        destruct (combine_spec idx2 bl br a b Hwf2 (Hh2 _ _ Hbl) Hbr)
          as (_ & Hu & Hfr).
        destruct (Hfr (a ∪ b)) as (Hwf3 & Hh3 & Hp3).
        rewrite Hu. cbn [mbind option_bind].
        eexists _, _. split; [reflexivity |].
        split; [exact Hwf3 |].
        split; [simpl; congruence |].
        split; [intros x s Hx; apply Hh3, Hh2, Hh1, Hx |].
        split; [intros key; rewrite Hp3, Hp2, Hp1; reflexivity |].
        eexists. split; [reflexivity |]. simpl. apply lookup_insert_eq.
      * subst res2. exists (inr Series.ErrBitmap), idx2.
        split; [reflexivity |]. split; [exact Hwf2 |].
        split; [congruence |].
        split; [intros x s Hx; apply Hh2, Hh1, Hx |].
        split; [intros key; rewrite Hp2, Hp1; reflexivity | reflexivity].
    + subst res1. exists (inr Series.ErrBitmap), idx1.
      repeat (split; [assumption || reflexivity |]). reflexivity.
Qed.


(** On a well-formed index [evalFilter] does not panic.  It returns
    a bitmap holding the set the filter denotes: the posting of a tag,
    the intersection for AND, the union for OR; or the decoding error
    when a posting it needs cannot be decoded.  It changes neither the
    store nor the posting of any key nor any bitmap that existed. *)
Theorem evalFilter_denotes (metric : string) (f : Filter.Filter)
    (idx : TagIndex) :
  index_wf idx ->
  exists res idx',
    evalFilter ReadFrom metric f idx = Some (res, idx')
    /\ index_wf idx' /\ db idx' = db idx
    /\ (forall l s, heap idx !! l = Some s -> heap idx' !! l = Some s)
    /\ (forall key, posting ReadFrom idx' key = posting ReadFrom idx key)
    /\ match denote ReadFrom metric idx f with
       | Some s => exists bm, res = inl bm /\ heap idx' !! bm = Some s
       | None => res = inr Series.ErrBitmap
       end.
Proof.
  intros Hwf.
  destruct (evalFilter_spec metric f idx Hwf)
    as (res & idx' & He & Hwf' & Hdb & Hh & Hp & Hres).
  exists res, idx'. auto 10.
Qed.

(** [indexTag] adds the id to the cached bitmap of the key, or caches a
    new bitmap holding only the id; the store is not read. *)
Lemma indexTag_spec (key : string) (id : Z) (idx : TagIndex) :
  index_wf idx ->
  exists idx',
    indexTag key id idx = Some idx'
    /\ index_wf idx' /\ db idx' = db idx
    /\ forall key',
         cached idx' key'
         = if decide (key' = key)
           then Some ({[id]} ∪ default ∅ (cached idx key))
           else cached idx key'.
Proof.
  intros Hwf. pose proof Hwf as [Hal Hinj].
  unfold indexTag, New. cbn zeta iota beta.
  set (f := fresh (dom (heap idx))).
  destruct (cache idx !! key) as [bm |] eqn:Hc.
  - destruct (Hal _ _ Hc) as [s Hs].
    assert (Hne : f <> bm).
    { intros <-. unfold f in Hs. rewrite IndexFacts.fresh_not_in in Hs.
      discriminate. }
    unfold Add. rewrite lookup_insert_ne by exact Hne. rewrite Hs.
    cbn [mbind option_bind].
    eexists. split; [reflexivity |].
    split.
    { apply wf_heap; [exact Hwf |]. intros l t Hl.
      destruct (decide (l = bm)) as [-> | Hlb];
        [rewrite lookup_insert_eq; eauto |].
      rewrite lookup_insert_ne by congruence.
      rewrite (heap_keeps_fresh _ _ _ _ Hl). eauto. }
    split; [reflexivity |].
    intros key'. unfold cached. simpl.
    destruct (decide (key' = key)) as [-> | Hk].
    + rewrite Hc. cbn [mbind option_bind]. rewrite Hs.
      apply lookup_insert_eq.
    + destruct (cache idx !! key') as [bm' |] eqn:Hc'; [| reflexivity].
      cbn [mbind option_bind].
      assert (bm' <> bm) by (intros ->; apply Hk; eapply Hinj; eassumption).
      rewrite lookup_insert_ne by congruence.
      rewrite lookup_insert_ne; [reflexivity |].
      intros E. symmetry in E. revert E. apply (wf_not_fresh _ _ _ Hwf Hc').
  - unfold Add. rewrite lookup_insert_eq. cbn [mbind option_bind].
    rewrite insert_insert_eq.
    eexists. split; [reflexivity |].
    split.
    { apply wf_insert; [exact Hwf | |
        fold f; rewrite lookup_insert_eq; eauto].
      intros l t Hl. rewrite (heap_keeps_fresh _ _ _ _ Hl). eauto. }
    split; [reflexivity |].
    intros key'. unfold cached. simpl.
    destruct (decide (key' = key)) as [-> | Hk].
    + rewrite lookup_insert_eq, Hc. cbn [mbind option_bind].
      apply lookup_insert_eq.
    + rewrite lookup_insert_ne by congruence.
      destruct (cache idx !! key') as [bm' |] eqn:Hc'; [| reflexivity].
      cbn [mbind option_bind].
      rewrite lookup_insert_ne; [reflexivity |].
      intros E. symmetry in E. revert E. apply (wf_not_fresh _ _ _ Hwf Hc').
Qed.

Lemma indexTags_spec (keys : list string) (id : Z) (idx : TagIndex) :
  index_wf idx ->
  exists idx',
    indexTags keys id idx = Some idx'
    /\ index_wf idx' /\ db idx' = db idx
    /\ forall key,
         cached idx' key
         = if decide (key ∈ keys)
           then Some ({[id]} ∪ default ∅ (cached idx key))
           else cached idx key.
Proof.
  revert idx. induction keys as [| k keys IH]; intros idx Hwf.
  - exists idx. split; [reflexivity |]. split; [exact Hwf |].
    split; [reflexivity |]. intros key.
    destruct (decide (key ∈ [])) as [H | _]; [| reflexivity].
    apply elem_of_nil in H. destruct H.
  - destruct (indexTag_spec k id idx Hwf) as (idx1 & H1 & Hwf1 & Hdb1 & Hc1).
    destruct (IH idx1 Hwf1) as (idx' & H2 & Hwf' & Hdb' & Hc').
    exists idx'. simpl. rewrite H1. cbn [mbind option_bind].
    split; [exact H2 |]. split; [exact Hwf' |]. split; [congruence |].
    intros key. rewrite Hc', Hc1.
    destruct (decide (key ∈ keys)) as [Hin | Hout];
      destruct (decide (key = k)) as [-> | Hk].
    + rewrite decide_True by (left). simpl. f_equal. set_solver.
    + rewrite decide_True by (right; exact Hin). reflexivity.
    + rewrite decide_True by (left). reflexivity.
    + rewrite decide_False; [reflexivity |].
      intros [E | E]%elem_of_cons; contradiction.
Qed.

(** [persistKeys] sets, for every cached key of the list, the encoded
    bitmap, and nothing else; it fails when a bitmap cannot be encoded. *)
Lemma persistKeys_spec (keys : list string) (idx : TagIndex)
    (txn : Badger.Store) :
  index_wf idx ->
  exists r,
    persistKeys ToBytes keys idx txn = Some r
    /\ match r with
       | inl txn' =>
           (forall key s, key ∈ keys -> cached idx key = Some s ->
              exists data, ToBytes s = Some data
                /\ Badger.Get (indexKey key) txn' = Some data)
           /\ (forall raw,
                 (forall key, key ∈ keys -> is_Some (cached idx key) ->
                    raw <> indexKey key) ->
                 Badger.Get raw txn' = Badger.Get raw txn)
       | inr e =>
           e = Series.ErrBitmap
           /\ exists key s, key ∈ keys /\ cached idx key = Some s
                /\ ToBytes s = None
       end.
Proof.
  intros Hwf. pose proof Hwf as [Hal _].
  revert txn. induction keys as [| k keys IH]; intros txn.
  - exists (inl txn). split; [reflexivity |]. split; [| reflexivity].
    intros key s H. apply elem_of_nil in H. destruct H.
  - cbn [persistKeys]. unfold persistKey.
    destruct (cache idx !! k) as [bm |] eqn:Hc.
    + destruct (Hal _ _ Hc) as [s Hs]. rewrite Hs. cbn [mbind option_bind].
      assert (Hck : cached idx k = Some s)
        by (unfold cached; rewrite Hc; exact Hs).
      destruct (ToBytes s) as [data |] eqn:Hb.
      * cbn [mbind option_bind].
        destruct (IH (Badger.Set_ (indexKey k) data txn))
          as (r & Hr & Hspec).
        exists r. split; [exact Hr |].
        destruct r as [txn' | e].
        -- destruct Hspec as [Hset Hframe]. split.
           ++ intros key t [-> | Hin]%elem_of_cons Hk.
              ** destruct (decide (k ∈ keys)) as [Hin | Hout];
                   [exact (Hset _ _ Hin Hk) |].
                 exists data. split; [congruence |].
                 rewrite Hframe; [apply Get_Set_eq |].
                 intros key Hin _ E. apply indexKey_inj in E. congruence.
              ** exact (Hset _ _ Hin Hk).
           ++ intros raw Hraw. rewrite Hframe.
              ** apply Get_Set_ne. intros E. symmetry in E. revert E.
                 apply Hraw; [left | eauto].
              ** intros key Hin. apply Hraw. right. exact Hin.
        -- destruct Hspec as (-> & key & t & Hin & Hk & Ht).
           split; [reflexivity |]. exists key, t.
           split; [right; exact Hin | auto].
      * cbn [mbind option_bind]. exists (inr Series.ErrBitmap).
        split; [reflexivity |]. split; [reflexivity |].
        exists k, s. split; [left | auto].
    + cbn [mbind option_bind].
      assert (Hck : cached idx k = None) by (unfold cached; rewrite Hc; reflexivity).
      destruct (IH txn) as (r & Hr & Hspec).
      exists r. split; [exact Hr |].
      destruct r as [txn' | e].
      * destruct Hspec as [Hset Hframe]. split.
        -- intros key t [-> | Hin]%elem_of_cons Hk; [congruence |].
           exact (Hset _ _ Hin Hk).
        -- intros raw Hraw. apply Hframe.
           intros key Hin. apply Hraw. right. exact Hin.
      * destruct Hspec as (-> & key & t & Hin & Hk & Ht).
        split; [reflexivity |]. exists key, t.
        split; [right; exact Hin | auto].
Qed.


(** [Index], in full. *)
Lemma Index_spec (commits : bool) (metric : string) (tags : Tagset.Tagset)
    (id : Z) (idx : TagIndex) :
  index_wf idx ->
  exists err idx',
    Index_ ToBytes commits metric tags id idx = Some (err, idx')
    /\ index_wf idx'
    /\ (forall key,
          cached idx' key
          = if decide (key ∈ postingKeys metric tags)
            then Some ({[id]} ∪ default ∅ (cached idx key))
            else cached idx key)
    /\ match err with
       | None =>
           commits = true
           /\ (forall key s, key ∈ postingKeys metric tags ->
                 cached idx' key = Some s ->
                 exists data, ToBytes s = Some data
                   /\ Badger.Get (indexKey key) (db idx') = Some data)
           /\ (forall raw,
                 (forall key, key ∈ postingKeys metric tags ->
                    raw <> indexKey key) ->
                 Badger.Get raw (db idx') = Badger.Get raw (db idx))
       | Some e =>
           db idx' = db idx
           /\ ((e = Series.ErrCommit /\ commits = false)
               \/ (e = Series.ErrBitmap
                   /\ exists key s, key ∈ postingKeys metric tags
                        /\ cached idx' key = Some s /\ ToBytes s = None))
       end.
Proof.
  intros Hwf. unfold Index_.
  destruct (indexTags_spec (postingKeys metric tags) id idx Hwf)
    as (idx1 & H1 & Hwf1 & Hdb1 & Hc1).
  rewrite H1. cbn [mbind option_bind]. unfold persist.
  destruct (persistKeys_spec (postingKeys metric tags) idx1 (db idx1) Hwf1)
    as (r & Hr & Hspec).
  rewrite Hr. cbn [mbind option_bind].
  destruct r as [txn' | e].
  - destruct Hspec as [Hset Hframe]. destruct commits.
    + eexists _, _. split; [reflexivity |].
      split; [exact Hwf1 |]. split; [exact Hc1 |].
      split; [reflexivity |]. split; [exact Hset |].
      intros raw Hraw. simpl. rewrite <- Hdb1. apply Hframe.
      intros key Hin _. apply Hraw, Hin.
    + eexists _, _. split; [reflexivity |].
      split; [exact Hwf1 |]. split; [exact Hc1 |].
      split; [exact Hdb1 | left; auto].
  - destruct Hspec as (-> & Hfail).
    eexists _, _. split; [reflexivity |].
    split; [exact Hwf1 |]. split; [exact Hc1 |].
    split; [exact Hdb1 | right; auto].
Qed.

(** On a well-formed index [Index] does not panic, and whether or
    not it returns an error, the cached posting of the metric and of
    every tag of the series then holds the series id together with the
    ids the cached posting held before (none when the key was not
    cached: the store is not consulted); the cached posting of every
    other key is unchanged. *)
Theorem Index_updates_cache (commits : bool) (metric : string)
    (tags : Tagset.Tagset) (id : Z) (idx : TagIndex) :
  index_wf idx ->
  exists err idx',
    Index_ ToBytes commits metric tags id idx = Some (err, idx')
    /\ index_wf idx'
    /\ (forall key,
          cached idx' key
          = if decide (key ∈ postingKeys metric tags)
            then Some ({[id]} ∪ default ∅ (cached idx key))
            else cached idx key).
Proof.
  intros Hwf.
  destruct (Index_spec commits metric tags id idx Hwf)
    as (err & idx' & H & Hwf' & Hc & _).
  eauto.
Qed.

(** When the bitmap codec round-trips, an [Index] that returns no
    error has committed: an index opened anew on the resulting store
    reads, for the metric and every tag of the series, exactly the
    posting the cache holds, and no store entry under another key was
    touched.  An [Index] that returns an error leaves the store as it
    was. *)
Theorem Index_persists (commits : bool) (metric : string)
    (tags : Tagset.Tagset) (id : Z) (idx : TagIndex) :
  index_wf idx ->
  (forall s data, ToBytes s = Some data -> ReadFrom data = Some s) ->
  exists err idx',
    Index_ ToBytes commits metric tags id idx = Some (err, idx')
    /\ match err with
       | None =>
           commits = true
           /\ (forall key, key ∈ postingKeys metric tags ->
                 posting ReadFrom (reopen idx') key = cached idx' key)
           /\ (forall raw,
                 (forall key, key ∈ postingKeys metric tags ->
                    raw <> indexKey key) ->
                 Badger.Get raw (db idx') = Badger.Get raw (db idx))
       | Some _ => db idx' = db idx
       end.
Proof.
  intros Hwf Hrt.
  destruct (Index_spec commits metric tags id idx Hwf)
    as (err & idx' & H & Hwf' & Hc & Herr).
  exists err, idx'. split; [exact H |].
  destruct err as [e |]; [exact (proj1 Herr) |].
  destruct Herr as (Hcom & Hset & Hframe).
  split; [exact Hcom |]. split; [| exact Hframe].
  intros key Hin.
  assert (Hk : cached idx' key = Some ({[id]} ∪ default ∅ (cached idx key)))
    by (rewrite Hc, decide_True by exact Hin; reflexivity).
  destruct (Hset key _ Hin Hk) as (data & Hb & Hg).
  rewrite Hk. unfold posting, reopen. simpl. rewrite lookup_empty, Hg.
  apply Hrt, Hb.
Qed.

(** On an index whose cache is empty, as it is when the database
    has just been opened, a committed [Index] leaves under the metric
    and under every tag of the series the posting that holds this one
    series only, in the cache and in the store: whatever the store held
    under these keys is replaced, not merged. *)
Theorem Index_after_reopen (metric : string) (tags : Tagset.Tagset)
    (id : Z) (idx0 : TagIndex) :
  (forall s, is_Some (ToBytes s)) ->
  exists idx',
    Index_ ToBytes true metric tags id (reopen idx0) = Some (None, idx')
    /\ forall key, key ∈ postingKeys metric tags ->
         cached idx' key = Some {[id]}
         /\ Badger.Get (indexKey key) (db idx') = ToBytes {[id]}.
Proof.
  intros Htot.
  assert (Hwf : index_wf (reopen idx0)).
  { split; intros *; unfold reopen; simpl; rewrite lookup_empty;
      discriminate. }
  destruct (Index_spec true metric tags id (reopen idx0) Hwf)
    as (err & idx' & H & Hwf' & Hc & Herr).
  destruct err as [e |].
  - exfalso. destruct Herr as [_ [[_ Hf] | (_ & key & s & _ & _ & Hs)]];
      [discriminate |].
    destruct (Htot s) as [data Hd]. congruence.
  - exists idx'. split; [exact H |].
    destruct Herr as (_ & Hset & _).
    intros key Hin.
    assert (Hk : cached idx' key = Some {[id]}).
    { rewrite Hc, decide_True by exact Hin. f_equal.
      unfold cached, reopen. simpl. rewrite lookup_empty. simpl.
      apply union_empty_r_L. }
    split; [exact Hk |].
    destruct (Hset key _ Hin Hk) as (data & Hb & Hg). congruence.
Qed.

End WithLibraries.

Lemma emptyIndex_wf : index_wf emptyIndex.
Proof.
  split; intros *; unfold emptyIndex; simpl; rewrite lookup_empty;
    discriminate.
Qed.

Lemma evalFilter_denotes_sample :
  index_wf emptyIndex
  /\ exists res idx',
       evalFilter idsFromBytes "cpu"
         (Filter.AndFilter (Filter.TagFilter "env" "prod")
                           (Filter.TagFilter "host" "h1")) emptyIndex
       = Some (res, idx')
       /\ index_wf idx' /\ db idx' = db emptyIndex
       /\ (forall l s, heap emptyIndex !! l = Some s ->
             heap idx' !! l = Some s)
       /\ (forall key, posting idsFromBytes idx' key
                       = posting idsFromBytes emptyIndex key)
       /\ exists bm, res = inl bm /\ heap idx' !! bm = Some (∅ ∩ ∅).
Proof.
  split; [exact emptyIndex_wf |].
  exact (evalFilter_denotes idsFromBytes "cpu"
           (Filter.AndFilter (Filter.TagFilter "env" "prod")
                             (Filter.TagFilter "host" "h1"))
           emptyIndex emptyIndex_wf).
Defined.

Lemma idsCodec_round_trip (s : gset Z) (data : list Z) :
  idsToBytes s = Some data -> idsFromBytes data = Some s.
Proof.
  unfold idsToBytes, idsFromBytes. intros [= <-]. f_equal.
  apply list_to_set_elements_L.
Qed.

Lemma Index_updates_cache_sample :
  index_wf emptyIndex
  /\ exists err idx',
       Index_ idsToBytes true "cpu" [Tagset.mkTag "env" "prod"] 7 emptyIndex
       = Some (err, idx')
       /\ index_wf idx'
       /\ (forall key,
             cached idx' key
             = if decide (key ∈ postingKeys "cpu" [Tagset.mkTag "env" "prod"])
               then Some ({[7]} ∪ default ∅ (cached emptyIndex key))
               else cached emptyIndex key).
Proof.
  split; [exact emptyIndex_wf |].
  exact (Index_updates_cache idsToBytes true "cpu"
           [Tagset.mkTag "env" "prod"] 7 emptyIndex emptyIndex_wf).
Defined.

Lemma Index_persists_sample :
  (index_wf emptyIndex
   /\ forall s data, idsToBytes s = Some data -> idsFromBytes data = Some s)
  /\ exists err idx',
       Index_ idsToBytes true "cpu" [Tagset.mkTag "env" "prod"] 7 emptyIndex
       = Some (err, idx')
       /\ match err with
          | None =>
              true = true
              /\ (forall key,
                    key ∈ postingKeys "cpu" [Tagset.mkTag "env" "prod"] ->
                    posting idsFromBytes (reopen idx') key = cached idx' key)
              /\ (forall raw,
                    (forall key,
                       key ∈ postingKeys "cpu" [Tagset.mkTag "env" "prod"] ->
                       raw <> indexKey key) ->
                    Badger.Get raw (db idx') = Badger.Get raw (db emptyIndex))
          | Some _ => db idx' = db emptyIndex
          end.
Proof.
  split; [split; [exact emptyIndex_wf | exact idsCodec_round_trip] |].
  exact (Index_persists idsToBytes idsFromBytes true "cpu"
           [Tagset.mkTag "env" "prod"] 7 emptyIndex emptyIndex_wf
           idsCodec_round_trip).
Defined.

Lemma Index_after_reopen_sample :
  (forall s, is_Some (idsToBytes s))
  /\ exists idx',
       Index_ idsToBytes true "cpu" [] 7
         (reopen (mkTagIndex [(indexKey "cpu", [1; 2])] ∅ ∅))
       = Some (None, idx')
       /\ forall key, key ∈ postingKeys "cpu" [] ->
            cached idx' key = Some {[7]}
            /\ Badger.Get (indexKey key) (db idx') = idsToBytes {[7]}.
Proof.
  assert (Htot : forall s, is_Some (idsToBytes s))
    by (intros s; unfold idsToBytes; eauto).
  split; [exact Htot |].
  exact (Index_after_reopen idsToBytes "cpu" [] 7
           (mkTagIndex [(indexKey "cpu", [1; 2])] ∅ ∅) Htot).
Defined.

End IndexMore.

(** ** Reading back what was written *)

Module ReadMore.
Import Int Bytes Codec Badger Read ReadAux.
Import BytesFacts CodecFacts BadgerFacts ReadFacts.

Lemma HasPrefix_split (s p : list Z) :
  HasPrefix s p = true -> s = p ++ drop (length p) s.
Proof.
  revert s. induction p as [| y p IH]; intros [| x s]; simpl;
    try reflexivity; try discriminate.
  intros [Hx Hs]%andb_prop. apply Z.eqb_eq in Hx. subst y.
  f_equal. apply IH, Hs.
Qed.

(** A key that is not below a key with the prefix and does not have the
    prefix is above every key with the prefix. *)
Lemma no_prefix_above (k p x : list Z) :
  Compare k (p ++ x) <> Lt -> HasPrefix k p = false ->
  forall y, lt (p ++ y) k.
Proof.
  unfold lt. revert k. induction p as [| c p IH]; intros [| d k]; simpl;
    try discriminate; try congruence.
  destruct (Z.compare_spec d c) as [-> | Hlt | Hgt].
  - rewrite Z.eqb_refl, Z.compare_refl. simpl. apply IH.
  - congruence.
  - intros _ _ y. apply Z.compare_lt_iff in Hgt. rewrite Hgt. reflexivity.
Qed.

Lemma Seek_ge (key : list Z) (s : Store) :
  ordered s -> Forall (fun kv => Compare kv.1 key <> Lt) (Seek key s).
Proof.
  unfold ordered. induction s as [| [k v] s IH]; simpl; intros Hs;
    [constructor |].
  apply StronglySorted_inv in Hs as [Hs Hk].
  assert (Hrest : Compare k key <> Lt ->
            Forall (fun kv => Compare kv.1 key <> Lt) ((k, v) :: s)).
  { intros Hge. constructor; [exact Hge |].
    rewrite Forall_fmap in Hk. eapply Forall_impl; [exact Hk |].
    intros [k' v'] Hlt Hbelow. simpl in *.
    apply Hge. exact (lt_trans _ _ _ Hlt Hbelow). }
  destruct (Compare k key) eqn:E; [apply Hrest | auto | apply Hrest];
    discriminate.
Qed.

Lemma ordered_app (a b : Store) : ordered (a ++ b) -> ordered b.
Proof.
  unfold ordered. rewrite fmap_app. induction a.*1 as [| k ks IH]; simpl;
    [auto |].
  intros H. apply StronglySorted_inv in H as [H _]. auto.
Qed.

Lemma ordered_cons (k v : list Z) (s : Store) :
  ordered ((k, v) :: s) ->
  ordered s /\ forall k' v', (k', v') ∈ s -> lt k k'.
Proof.
  unfold ordered. rewrite fmap_cons. intros H.
  apply StronglySorted_inv in H as [H Hk]. split; [exact H |].
  intros k' v' Hin. rewrite Forall_forall in Hk. apply Hk.
  apply list_elem_of_fmap. exists (k', v'). auto.
Qed.

Lemma dataKey_prefix (seriesID ts : Z) :
  dataKey seriesID ts
  = ([PrefixData] ++ PutUint64 seriesID)
      ++ PutUint64 (to_uint64 (not_int64 ts)).
Proof. unfold dataKey. rewrite app_assoc. reflexivity. Qed.

Lemma dataKey_inj (seriesID t1 t2 : Z) :
  is_uint64 seriesID -> is_int64 t1 -> is_int64 t2 ->
  dataKey seriesID t1 = dataKey seriesID t2 -> t1 = t2.
Proof.
  intros Hid H1 H2 E.
  pose proof (DecodeDataKey_exact seriesID t1 Hid H1) as D1.
  rewrite E, (DecodeDataKey_exact seriesID t2 Hid H2) in D1. congruence.
Qed.

Lemma limited_short (opts : QueryOptions) (l : list DataPoint) :
  (0 < Limit opts -> Z.of_nat (length l) <= Limit opts) ->
  limited opts l = l.
Proof.
  unfold limited. destruct (Z.ltb_spec 0 (Limit opts)); [| reflexivity].
  intros Hl. apply take_ge. lia.
Qed.

Lemma omap_none {A B} (f : A -> option B) (l : list A) :
  (forall x, x ∈ l -> f x = None) -> omap f l = [].
Proof.
  induction l as [| x l IH]; intros H; [reflexivity |].
  cbn [omap list_omap]. rewrite (H x) by left.
  apply IH. intros y Hy. apply H. right. exact Hy.
Qed.

Lemma filter_none {A} (f : A -> bool) (l : list A) :
  (forall x, x ∈ l -> f x = false) -> List.filter f l = [].
Proof.
  induction l as [| x l IH]; simpl; intros H; [reflexivity |].
  rewrite (H x) by left. apply IH. intros y Hy. apply H. right. exact Hy.
Qed.

Section WithFloatBits.
Variable Float64frombits : Z -> float.

Lemma series_points_cons (seriesID : Z) (k v : list Z) (db : Store) :
  series_points Float64frombits seriesID ((k, v) :: db) =
  match (if HasPrefix k ([PrefixData] ++ PutUint64 seriesID)
         then '(_, ts) ← DecodeDataKey k;
              value ← DecodeDataValue Float64frombits v;
              Some (mkDataPoint ts value)
         else None) with
  | Some p => p :: series_points Float64frombits seriesID db
  | None => series_points Float64frombits seriesID db
  end.
Proof. reflexivity. Qed.

Lemma series_points_app (seriesID : Z) (a b : Store) :
  series_points Float64frombits seriesID (a ++ b) = series_points Float64frombits seriesID a ++ series_points Float64frombits seriesID b.
Proof. unfold series_points. apply omap_app. Qed.

(** Every point of the series comes from a stored data key of it. *)
Lemma series_points_elem (seriesID : Z) (p : DataPoint) (db : Store) :
  is_uint64 seriesID -> well_formed seriesID db ->
  p ∈ series_points Float64frombits seriesID db ->
  is_int64 (Timestamp p)
  /\ exists v, (dataKey seriesID (Timestamp p), v) ∈ db
       /\ DecodeDataValue Float64frombits v = Some (Value p).
Proof.
  intros Hid Hwf. unfold series_points. rewrite list_elem_of_omap.
  intros ([k v] & Hin & Hdec). simpl in Hdec.
  destruct (HasPrefix k _) eqn:Hp; [| discriminate].
  unfold well_formed in Hwf. rewrite Forall_forall in Hwf.
  destruct (Hwf _ Hin Hp) as [(ts & Hts & Hk) _]. simpl in Hk. subst k.
  rewrite (DecodeDataKey_exact _ _ Hid Hts) in Hdec.
  cbn [mbind option_bind] in Hdec.
  destruct (DecodeDataValue Float64frombits v) as [value |] eqn:Hv;
    [| discriminate].
  injection Hdec as <-. simpl. split; [exact Hts |]. eauto.
Qed.

Lemma series_ts_intro (seriesID t : Z) (v : list Z) (db : Store) :
  is_uint64 seriesID -> is_int64 t ->
  (dataKey seriesID t, v) ∈ db -> t ∈ series_ts seriesID db.
Proof.
  intros Hid Ht Hin. unfold series_ts. apply list_elem_of_omap.
  exists (dataKey seriesID t, v). split; [exact Hin |]. cbn beta iota.
  cbn [fst]. rewrite dataKey_prefix at 1. rewrite KeySpace.HasPrefix_app.
  rewrite (DecodeDataKey_exact _ _ Hid Ht). reflexivity.
Qed.

Lemma nonneg_of_series_ts (seriesID : Z) (db : Store) :
  is_uint64 seriesID ->
  Forall (fun t => 0 <= t) (series_ts seriesID db) -> nonneg seriesID db.
Proof.
  intros Hid H t v Ht Hin. rewrite Forall_forall in H.
  apply H. eapply series_ts_intro; eassumption.
Qed.

(** The loop of [Query] over entries at or above a key of the series:
    it returns the points in range, up to the limit. *)
Lemma scan_complete (seriesID : Z) (opts : QueryOptions) (x : list Z)
    (items : Store) :
  is_uint64 seriesID ->
  ordered items -> well_formed seriesID items ->
  nonneg seriesID items \/ Start opts <= 0 ->
  Forall (fun kv =>
    Compare kv.1 (([PrefixData] ++ PutUint64 seriesID) ++ x) <> Lt) items ->
  forall acc,
    (0 < Limit opts -> Z.of_nat (length acc) < Limit opts) ->
    scan Float64frombits ([PrefixData] ++ PutUint64 seriesID) opts items acc
    = Some (limited opts
              (acc ++ List.filter (fun p => in_range opts (Timestamp p))
                        (series_points Float64frombits seriesID items))).
Proof.
  intros Hid.
  induction items as [| [k v] items IH]; intros Hord Hwf Hnn Hge acc Hacc.
  - simpl. rewrite app_nil_r, limited_short; [reflexivity | lia].
  - apply ordered_cons in Hord as [Hord Hlater].
    apply Forall_cons in Hwf as [Hkv Hwf].
    apply Forall_cons in Hge as [Hk Hge]. cbn [fst] in Hk.
    assert (Hnn' : nonneg seriesID items \/ Start opts <= 0).
    { destruct Hnn as [Hnn | Hs]; [left | right; exact Hs].
      intros t w Ht Hin. apply (Hnn t w Ht). right. exact Hin. }
    specialize (IH Hord Hwf Hnn' Hge).
    cbn [scan].
    assert (Hcase : HasPrefix k ([PrefixData] ++ PutUint64 seriesID) = true
        \/ HasPrefix k ([PrefixData] ++ PutUint64 seriesID) = false)
      by (destruct (HasPrefix k _); auto).
    destruct Hcase as [Hp | Hp]; rewrite Hp; cbn [negb].
    2:{ (* the first key past the series: no later key has the prefix *)
      assert (Hnone : series_points Float64frombits seriesID items = []).
      { unfold series_points. apply omap_none. intros [k' v'] Hin.
        cbn [fst snd].
        destruct (HasPrefix k' _) eqn:Hp'; [exfalso | reflexivity].
        apply HasPrefix_split in Hp'.
        pose proof (no_prefix_above _ _ _ Hk Hp
                      (drop (length ([PrefixData] ++ PutUint64 seriesID)) k'))
          as Hab.
        rewrite <- Hp' in Hab.
        exact (lt_irrefl _ (lt_trans _ _ _ Hab (Hlater _ _ Hin))). }
      rewrite series_points_cons, Hp, Hnone. cbn [List.filter].
      rewrite app_nil_r, limited_short; [reflexivity | lia]. }
    destruct (Hkv Hp) as [(ts & Hts & Hkey) Hv]. cbn [fst snd] in Hkey, Hv.
    subst k.
    destruct (Uint64_long v Hv) as [bits Hbits].
    set (pt := mkDataPoint ts (Float64frombits bits)).
    assert (Hhead : series_points Float64frombits seriesID ((dataKey seriesID ts, v) :: items)
                    = pt :: series_points Float64frombits seriesID items).
    { rewrite series_points_cons, Hp, (DecodeDataKey_exact _ _ Hid Hts).
      cbn [mbind option_bind]. unfold DecodeDataValue. rewrite Hbits.
      reflexivity. }
    rewrite Hhead. clear Hhead. cbn [List.filter]. cbn [Timestamp pt].
    rewrite (DecodeDataKey_exact _ _ Hid Hts). cbn [mbind option_bind].
    assert (Hsmaller : 0 < Start opts ->
              forall p, p ∈ series_points Float64frombits seriesID items ->
              Timestamp p < ts).
    { intros Hs p Hin. destruct Hnn as [Hnn | Hnn]; [| lia].
      destruct (series_points_elem _ _ _ Hid Hwf Hin) as (Hp64 & w & Hw & _).
      pose proof (Hlater _ _ Hw) as Hlt.
      apply dataKey_lt_nonneg in Hlt; [lia | auto | auto | |].
      - apply (Hnn ts v Hts). left.
      - apply (Hnn _ w Hp64). right. exact Hw. }
    unfold in_range at 1.
    destruct ((0 <? Start opts) && (ts <? Start opts)) eqn:Hstart.
    { cbn [negb andb].
      rewrite filter_none.
      - rewrite app_nil_r, limited_short; [reflexivity | lia].
      - intros p Hin.
        apply andb_prop in Hstart as [H0 H1].
        apply Z.ltb_lt in H0, H1. apply (Hsmaller H0) in Hin.
        unfold in_range.
        replace (0 <? Start opts) with true by (symmetry; apply Z.ltb_lt; lia).
        replace (Timestamp p <? Start opts) with true
          by (symmetry; apply Z.ltb_lt; lia).
        reflexivity. }
    destruct ((0 <? End_ opts) && (End_ opts <? ts)) eqn:Hend.
    { cbn [negb andb]. apply IH, Hacc. }
    cbn [negb andb].
    unfold DecodeDataValue. rewrite Hbits. cbn [mbind option_bind].
    fold pt.
    destruct ((0 <? Limit opts) && _) eqn:Hlim.
    + apply andb_prop in Hlim as [H0 H1].
      apply Z.ltb_lt in H0. apply Z.leb_le in H1.
      rewrite length_app in H1. simpl in H1.
      unfold limited. replace (0 <? Limit opts) with true
        by (symmetry; apply Z.ltb_lt; lia).
      f_equal.
      rewrite (cons_middle pt acc
                 (List.filter (fun p => in_range opts (Timestamp p))
                    (series_points Float64frombits seriesID items))), app_assoc.
      symmetry. apply take_app_length'.
      rewrite length_app. simpl. specialize (Hacc H0). lia.
    + rewrite IH.
      * rewrite <- app_assoc. reflexivity.
      * intros H0. rewrite length_app. simpl.
        apply andb_false_iff in Hlim as [H | H];
          [apply Z.ltb_ge in H; lia |].
        apply Z.leb_gt in H. rewrite length_app in H. simpl in H. lia.
Qed.


(** A key of the series at or above the key of a non-negative
    timestamp holds a non-negative timestamp. *)
Lemma dataKey_ge_nonneg (seriesID t e : Z) :
  is_int64 t -> is_int64 e -> 0 <= e ->
  Compare (dataKey seriesID t) (dataKey seriesID e) <> Lt -> 0 <= t.
Proof.
  intros Ht He He0. rewrite Compare_dataKey, !enc_ts_val by assumption.
  unfold is_int64, two63, two64 in *.
  destruct (Z.ltb_spec t 0); [| lia]. destruct (Z.ltb_spec e 0); [lia |].
  intros Hc. exfalso. apply Hc. apply Z.compare_lt_iff. lia.
Qed.

(** The seek key of [Query] has the prefix of the series; no stored
    point in range has a key below it; and with an upper bound every key
    of the series from it on holds a non-negative timestamp. *)
Lemma seekKey_shape (seriesID : Z) (opts : QueryOptions) :
  is_uint64 seriesID -> is_int64 (End_ opts) ->
  exists x,
    seekKeyFor ([PrefixData] ++ PutUint64 seriesID) seriesID opts
    = Some (([PrefixData] ++ PutUint64 seriesID) ++ x)
    /\ (forall t, is_int64 t ->
          lt (dataKey seriesID t) (([PrefixData] ++ PutUint64 seriesID) ++ x) ->
          (0 < End_ opts -> 0 <= t \/ 0 < Start opts) ->
          in_range opts t = false)
    /\ (0 < End_ opts -> forall t, is_int64 t ->
          Compare (dataKey seriesID t)
            (([PrefixData] ++ PutUint64 seriesID) ++ x) <> Lt -> 0 <= t).
Proof.
  intros Hid Hend. unfold seekKeyFor.
  destruct (Z.ltb_spec 0 (End_ opts)) as [Hpos | Hnon].
  - exists (PutUint64 (to_uint64 (not_int64 (End_ opts)))).
    rewrite EncodeDataKey_buf by (cbv; lia).
    change (drop DataKeySize (make DataKeySize)) with (@nil Z).
    rewrite app_nil_r, <- dataKey_prefix. split; [reflexivity |]. split.
    + intros t Ht Hlt Hcase. unfold in_range.
      destruct (Z.ltb_spec t 0) as [Hneg | Hnn].
      * destruct (Hcase Hpos) as [? | Hs]; [lia |].
        replace (0 <? Start opts) with true by (symmetry; apply Z.ltb_lt; lia).
        replace (t <? Start opts) with true by (symmetry; apply Z.ltb_lt; lia).
        reflexivity.
      * apply dataKey_lt_nonneg in Hlt; [| assumption | assumption | lia | lia].
        replace (0 <? End_ opts) with true by (symmetry; apply Z.ltb_lt; lia).
        replace (End_ opts <? t) with true by (symmetry; apply Z.ltb_lt; lia).
        apply andb_false_r.
    + intros _ t Ht Hge.
      apply (dataKey_ge_nonneg seriesID t (End_ opts)); [auto | auto | lia |].
      exact Hge.
  - exists (PutUint64 0). split; [reflexivity |]. split; [| lia].
    intros t Ht Hlt _. exfalso. unfold lt in Hlt.
    rewrite dataKey_prefix, Compare_app_same in Hlt.
    pose proof (enc_ts_range t) as Hr.
    rewrite Compare_PutUint64 in Hlt;
      [| exact Hr | split; [reflexivity | reflexivity]].
    rewrite Z.compare_lt_iff in Hlt. unfold is_uint64 in Hr. lia.
Qed.

(** What [Query] returns: the points in range, up to the limit, when
    the series holds no negative timestamp, or no bound is set, or both
    bounds are. *)
Lemma Query_returns (db : Store) (seriesID : Z) (opts : QueryOptions) :
  is_uint64 seriesID -> is_int64 (End_ opts) ->
  ordered db -> well_formed seriesID db ->
  nonneg seriesID db
  \/ (Start opts <= 0 /\ End_ opts <= 0)
  \/ (0 < Start opts /\ 0 < End_ opts) ->
  Query Float64frombits db seriesID opts
  = Some (limited opts
            (List.filter (fun p => in_range opts (Timestamp p))
               (series_points Float64frombits seriesID db))).
Proof.
  intros Hid Hend Hord Hwf Hcase. unfold Query.
  rewrite DataKeyPrefix_buf by (cbv; lia).
  cbn [mbind option_bind]. rewrite app_nil_r.
  destruct (seekKey_shape seriesID opts Hid Hend) as (x & -> & Hbelow & Habove).
  cbn [mbind option_bind].
  set (sk := ([PrefixData] ++ PutUint64 seriesID) ++ x) in *.
  destruct (Seek_skipped sk db) as (skipped & Hdb & Hskip).
  assert (Hwf2 : well_formed seriesID skipped
                 /\ well_formed seriesID (Seek sk db))
    by (apply well_formed_app; rewrite <- Hdb; exact Hwf).
  destruct Hwf2 as [Hwfs Hwfr].
  assert (Hnnr : nonneg seriesID (Seek sk db) \/ Start opts <= 0).
  { destruct Hcase as [Hnn | [[Hs _] | [_ He]]]; [left | right; exact Hs | left].
    - intros t v Ht Hin. apply (Hnn t v Ht). rewrite Hdb.
      apply elem_of_app. right. exact Hin.
    - intros t v Ht Hin. apply (Habove He t Ht).
      pose proof (Seek_ge sk db Hord) as Hge. rewrite Forall_forall in Hge.
      exact (Hge _ Hin). }
  rewrite (scan_complete seriesID opts x (Seek sk db) Hid
             ltac:(apply (ordered_app skipped); rewrite <- Hdb; exact Hord)
             Hwfr Hnnr (Seek_ge sk db Hord) []) by (simpl; lia).
  rewrite Hdb at 2. rewrite series_points_app, List.filter_app.
  rewrite (filter_none _ (series_points Float64frombits seriesID skipped));
    [reflexivity |].
  intros p Hin.
  destruct (series_points_elem _ _ _ Hid Hwfs Hin) as (Hp64 & v & Hv & _).
  apply Hbelow; [exact Hp64 | |].
  - rewrite Forall_forall in Hskip. exact (Hskip _ Hv).
  - intros He. destruct Hcase as [Hnn | [[_ ?] | [Hs _]]]; [left | lia | auto].
    apply (Hnn _ v Hp64). rewrite Hdb. apply elem_of_app. left. exact Hv.
Qed.

(** On a series without negative timestamps, [Query] returns the
    stored points whose timestamp is within the bounds, all of them
    and in iteration order, cut after [Limit] points when [Limit > 0]:
    the seek skips no point in range and the early exit at [Start]
    loses none. *)
Theorem Query_complete (db : Store) (seriesID : Z) (opts : QueryOptions) :
  is_uint64 seriesID -> is_int64 (End_ opts) ->
  ordered db -> well_formed seriesID db ->
  Forall (fun t => 0 <= t) (series_ts seriesID db) ->
  Query Float64frombits db seriesID opts
  = Some (limited opts
            (List.filter (fun p => in_range opts (Timestamp p))
               (series_points Float64frombits seriesID db))).
Proof.
  intros Hid Hend Hord Hwf Hnn.
  apply Query_returns; try assumption.
  left. apply nonneg_of_series_ts; assumption.
Qed.


(** Without a limit, the loop of [Query] adds to what it was given. *)
Lemma scan_acc (prefix : list Z) (opts : QueryOptions) (items : Store)
    (acc : list DataPoint) :
  Limit opts = 0 ->
  scan Float64frombits prefix opts items acc
  = (fun new => acc ++ new) <$> scan Float64frombits prefix opts items [].
Proof.
  intros Hl. revert acc.
  induction items as [| [k v] items IH]; intros acc.
  - simpl. rewrite app_nil_r. reflexivity.
  - cbn [scan]. destruct (negb (HasPrefix k prefix));
      [simpl; rewrite app_nil_r; reflexivity |].
    destruct (DecodeDataKey k) as [[sid ts] |]; [| reflexivity].
    cbn [mbind option_bind].
    destruct ((0 <? Start opts) && (ts <? Start opts));
      [simpl; rewrite app_nil_r; reflexivity |].
    destruct ((0 <? End_ opts) && (End_ opts <? ts)); [apply IH |].
    destruct (DecodeDataValue Float64frombits v) as [value |];
      [| reflexivity].
    cbn [mbind option_bind]. rewrite Hl. cbn [Z.ltb Z.compare andb].
    rewrite (IH (acc ++ [mkDataPoint ts value])).
    rewrite (IH ([] ++ [mkDataPoint ts value])).
    destruct (scan Float64frombits prefix opts items []) as [new |];
      [| reflexivity].
    simpl. rewrite <- app_assoc. reflexivity.
Qed.

(** The loop of [Next] stops where the loop of [Query] adds its next
    point, and ends or panics where it ends or panics. *)
Lemma find_scan (prefix : list Z) (opts : QueryOptions) (items : Store) :
  match Iter.find Float64frombits prefix opts items with
  | None => scan Float64frombits prefix (unlimited opts) items [] = None
  | Some (None, _) =>
      scan Float64frombits prefix (unlimited opts) items [] = Some []
  | Some (Some p, cursor) =>
      (length (tail cursor) < length items)%nat
      /\ scan Float64frombits prefix (unlimited opts) items []
         = (fun new => p :: new)
             <$> scan Float64frombits prefix (unlimited opts) (tail cursor) []
  end.
Proof.
  induction items as [| [k v] items IH]; [reflexivity |].
  cbn [Iter.find scan]. destruct (negb (HasPrefix k prefix)); [reflexivity |].
  destruct (DecodeDataKey k) as [[sid ts] |]; [| reflexivity].
  cbn [mbind option_bind]. cbn [unlimited Start End_ Limit].
  destruct ((0 <? Start opts) && (ts <? Start opts)); [reflexivity |].
  destruct ((0 <? End_ opts) && (End_ opts <? ts)).
  - destruct (Iter.find Float64frombits prefix opts items)
      as [[[p |] cursor] |]; [| exact IH | exact IH].
    destruct IH as [Hlen IH]. split; [simpl; lia | exact IH].
  - destruct (DecodeDataValue Float64frombits v) as [value |];
      [| reflexivity].
    cbn [mbind option_bind Z.ltb Z.compare andb tail].
    split; [simpl; lia |].
    rewrite (scan_acc prefix _ items ([] ++ [mkDataPoint ts value]))
      by reflexivity.
    reflexivity.
Qed.

(** Draining an iterator whose cursor is about to be at [cursor]. *)
Lemma collect_cursor (fuel : nat) :
  forall (iter : Iter.Iterator) (cursor : Store),
    Iter.done iter = false ->
    Iter.reposition iter = Some cursor ->
    (length cursor < fuel)%nat ->
    Iter.collect Float64frombits fuel iter
    = Iter.outcome (scan Float64frombits (Iter.prefix iter)
                      (unlimited (Iter.opts iter)) cursor []).
Proof.
  induction fuel as [| fuel IH]; intros iter cursor Hdone Hcur Hlen; [lia |].
  cbn [Iter.collect]. unfold Iter.Next. rewrite Hdone, Hcur.
  cbn [mbind option_bind].
  pose proof (find_scan (Iter.prefix iter) (Iter.opts iter) cursor) as Hfs.
  destruct (Iter.find Float64frombits (Iter.prefix iter) (Iter.opts iter)
              cursor) as [[[p |] cursor'] |].
  - destruct Hfs as [Hshort Hfs]. cbn [mbind option_bind].
    rewrite (IH _ (tail cursor')); [| reflexivity | reflexivity | simpl; lia].
    cbn [Iter.prefix Iter.opts Iter.current]. rewrite Hfs.
    destruct (scan Float64frombits (Iter.prefix iter)
                (unlimited (Iter.opts iter)) (tail cursor') []);
      reflexivity.
  - cbn [mbind option_bind]. rewrite Hfs. reflexivity.
  - cbn [mbind option_bind]. rewrite Hfs. reflexivity.
Qed.

(** Draining an iterator with [Next] and [Value] yields what
    [Query] returns for the same bounds without a limit, in the same
    order, and panics where [Query] panics; the [Limit] of the options
    is ignored by the iterator.  As many calls of [Next] as the store
    has entries, and one more, are enough. *)
Theorem Iterator_collects (db : Store) (seriesID : Z) (opts : QueryOptions) :
  exists iter,
    Iter.NewIterator db seriesID opts = Some iter
    /\ Iter.collect Float64frombits (S (length db)) iter
       = Iter.outcome (Query Float64frombits db seriesID (unlimited opts)).
Proof.
  unfold Iter.NewIterator, Query.
  destruct (DataKeyPrefix (make (1 + SeriesIDSize)) seriesID)
    as [[prefix n] |] eqn:Hp.
  2:{ rewrite DataKeyPrefix_buf in Hp by (cbv; lia). discriminate. }
  cbn [mbind option_bind]. eexists. split; [reflexivity |].
  destruct (seekKeyFor prefix seriesID (unlimited opts)) as [sk |] eqn:Hsk.
  2:{ exfalso. unfold seekKeyFor in Hsk.
      destruct (0 <? End_ (unlimited opts)); [| discriminate].
      rewrite EncodeDataKey_buf in Hsk by (cbv; lia). discriminate. }
  cbn [mbind option_bind].
  apply (collect_cursor (S (length db))
           (Iter.mkIterator db seriesID opts db prefix false false
              (mkDataPoint 0 0%float))
           (Seek sk db)); [reflexivity | |].
  - unfold Iter.reposition.
    cbn [Iter.started Iter.prefix Iter.seriesID Iter.opts Iter.db].
    change (seekKeyFor prefix seriesID opts)
      with (seekKeyFor prefix seriesID (unlimited opts)).
    rewrite Hsk. reflexivity.
  - destruct (Seek_suffix sk db) as [skipped Hdb].
    rewrite Hdb at 2. rewrite length_app. lia.
Qed.


(** *** Writes *)

Lemma Set_elem (key val : list Z) (s : Store) (kv : list Z * list Z) :
  kv ∈ Set_ key val s -> kv = (key, val) \/ kv ∈ s.
Proof.
  induction s as [| [k v] s IH]; cbn [Set_].
  - intros H%list_elem_of_singleton. auto.
  - destruct (Compare key k).
    + intros [-> | H]%elem_of_cons; [auto | right; right; exact H].
    + intros [-> | H]%elem_of_cons; auto.
    + intros [-> | H]%elem_of_cons; [right; left |].
      destruct (IH H) as [-> | H']; [auto | right; right; exact H'].
Qed.

Lemma Set_Forall (P : list Z * list Z -> Prop) (key val : list Z)
    (s : Store) :
  P (key, val) -> Forall P s -> Forall P (Set_ key val s).
Proof.
  intros Hk. induction s as [| [k v] s IH]; cbn [Set_]; intros Hs.
  - constructor; [exact Hk | constructor].
  - apply Forall_cons in Hs as [Hkv Hs].
    destruct (Compare key k).
    + constructor; assumption.
    + constructor; [exact Hk | constructor; assumption].
    + constructor; [exact Hkv | apply IH, Hs].
Qed.

(** Setting a key changes nothing for a reader that ignores the key. *)
Lemma omap_Set_other {B} (f : list Z * list Z -> option B)
    (key val : list Z) (s : Store) :
  (forall v, f (key, v) = None) ->
  omap f (Set_ key val s) = omap f s.
Proof.
  intros Hf. induction s as [| [k v] s IH]; cbn [Set_ omap list_omap].
  - rewrite Hf. reflexivity.
  - destruct (Compare key k) eqn:E; cbn [omap list_omap].
    + apply Compare_eq in E. subst k. rewrite !Hf. reflexivity.
    + rewrite Hf. reflexivity.
    + fold (omap f (Set_ key val s)). fold (omap f s) in *.
      rewrite IH. reflexivity.
Qed.

(** ... and a reader that sees this key only sees the new entry. *)
Lemma omap_Set_same {B} (f : list Z * list Z -> option B)
    (key val : list Z) (s : Store) :
  ordered s ->
  (forall kv, kv ∈ s -> kv.1 <> key -> f kv = None) ->
  omap f (Set_ key val s) = omap f [(key, val)].
Proof.
  assert (Habove : forall s : Store,
            (forall kv, kv ∈ s -> kv.1 <> key -> f kv = None) ->
            (forall kv, kv ∈ s -> lt key kv.1) -> omap f s = []).
  { intros s' Hf Hlt. apply omap_none. intros kv Hin.
    apply Hf; [exact Hin |]. intros E. specialize (Hlt kv Hin).
    rewrite E in Hlt. exact (lt_irrefl _ Hlt). }
  induction s as [| [k v] s IH]; intros Hord Hf; [reflexivity |].
  apply ordered_cons in Hord as [Hord Hlater].
  cbn [Set_]. destruct (Compare key k) eqn:E.
  - apply Compare_eq in E. subst k.
    change ((key, val) :: s) with ([(key, val)] ++ s). rewrite omap_app.
    rewrite (Habove s); [apply app_nil_r | |].
    + intros kv Hin. apply Hf. right. exact Hin.
    + intros [k' v'] Hin. exact (Hlater _ _ Hin).
  - change ((key, val) :: (k, v) :: s) with ([(key, val)] ++ (k, v) :: s).
    rewrite omap_app.
    rewrite (Habove ((k, v) :: s)); [apply app_nil_r | exact Hf |].
    intros [k' v'] [[= -> ->] | Hin]%elem_of_cons; [exact E |].
    exact (lt_trans _ _ _ E (Hlater _ _ Hin)).
  - change ((k, v) :: Set_ key val s) with ([(k, v)] ++ Set_ key val s).
    rewrite omap_app.
    rewrite IH; [| exact Hord | intros kv Hin; apply Hf; right; exact Hin].
    assert (Hk : f (k, v) = None).
    { apply Hf; [left |]. simpl. intros ->.
      rewrite Compare_refl in E. discriminate. }
    cbn [omap list_omap]. rewrite Hk. reflexivity.
Qed.

Lemma filter_omap {A B} (g : B -> bool) (f : A -> option B) (l : list A) :
  List.filter g (omap f l)
  = omap (fun a => b ← f a; if g b then Some b else None) l.
Proof.
  induction l as [| a l IH]; [reflexivity |].
  cbn [omap list_omap]. destruct (f a) as [b |]; cbn [mbind option_bind].
  - cbn [List.filter]. destruct (g b); [f_equal |]; exact IH.
  - exact IH.
Qed.

Lemma in_range_instant (ts t : Z) :
  0 < ts -> in_range (instant ts) t = (t =? ts).
Proof.
  intros Hts. unfold in_range, instant. cbn [Start End_].
  destruct (Z.ltb_spec 0 ts); [| lia].
  destruct (Z.ltb_spec t ts); destruct (Z.ltb_spec ts t);
    destruct (Z.eqb_spec t ts); try reflexivity; lia.
Qed.

Section WithFloat64bits.
Variable Float64bits : float -> Z.

Lemma EncodeDataValue_buf (buf : list Z) (value : float) :
  (8 <= length buf)%nat ->
  Write.EncodeDataValue Float64bits buf value
  = Some (PutUint64 (Float64bits value) ++ drop 8 buf, 8%nat).
Proof.
  intros H. unfold Write.EncodeDataValue, poke.
  rewrite PutUint64_length. rewrite decide_True by (simpl; lia).
  reflexivity.
Qed.

Lemma writePoint_buf (keyBuf valueBuf : list Z) (seriesID : Z)
    (value : float) (ts : Z) (db : Store) :
  length keyBuf = DataKeySize -> length valueBuf = 8%nat ->
  Write.writePoint Float64bits keyBuf valueBuf seriesID value ts db
  = Some (Set_ (dataKey seriesID ts) (PutUint64 (Float64bits value)) db).
Proof.
  intros Hk Hv. unfold Write.writePoint.
  rewrite EncodeDataKey_buf by lia. cbn [mbind option_bind].
  rewrite EncodeDataValue_buf by lia. cbn [mbind option_bind].
  rewrite !drop_ge by lia. rewrite !app_nil_r. reflexivity.
Qed.

Lemma filter_all {A} (f : A -> bool) (l : list A) :
  (forall x, f x = true) -> List.filter f l = l.
Proof.
  intros H. induction l as [| x l IH]; [reflexivity |].
  cbn [List.filter]. rewrite H, IH. reflexivity.
Qed.

(** [Query] without bounds and limit returns every point of the
    series, negative timestamps or not. *)
Lemma Query_all (db : Store) (seriesID : Z) :
  is_uint64 seriesID -> ordered db -> well_formed seriesID db ->
  Query Float64frombits db seriesID (mkQueryOptions 0 0 0)
  = Some (series_points Float64frombits seriesID db).
Proof.
  intros Hid Hord Hwf.
  assert (H0 : is_int64 (End_ (mkQueryOptions 0 0 0)))
    by (unfold is_int64, two63; cbn [End_]; lia).
  rewrite (Query_returns db seriesID (mkQueryOptions 0 0 0) Hid H0 Hord Hwf)
    by (right; left; cbn [Start End_]; lia).
  unfold limited. cbn [Limit Z.ltb Z.compare].
  rewrite filter_all by reflexivity. reflexivity.
Qed.

(** The entry a write stores and what reading it back gives. *)
Lemma point_stored (seriesID ts : Z) (value : float) (db : Store) :
  is_uint64 seriesID -> is_int64 ts ->
  ordered db -> well_formed seriesID db ->
  is_uint64 (Float64bits value) ->
  Float64frombits (Float64bits value) = value ->
  let db' := Set_ (dataKey seriesID ts) (PutUint64 (Float64bits value)) db in
  (ordered db' /\ well_formed seriesID db')
  /\ (exists points,
        Query Float64frombits db' seriesID (mkQueryOptions 0 0 0)
        = Some points
        /\ List.filter (fun p => Timestamp p =? ts) points
           = [mkDataPoint ts value])
  /\ (0 < ts ->
      Query Float64frombits db' seriesID (instant ts)
      = Some [mkDataPoint ts value])
  /\ (forall t, is_int64 t -> 0 < t -> t <> ts ->
        Query Float64frombits db' seriesID (instant t)
        = Query Float64frombits db seriesID (instant t)).
Proof.
  intros Hid Hts Hord Hwf Hbits Hround db'.
  assert (Hord' : ordered db') by (apply Set_ordered, Hord).
  assert (Hwf' : well_formed seriesID db').
  { apply Set_Forall; [| exact Hwf]. intros _. cbn [fst snd].
    split; [eauto |]. rewrite PutUint64_length. lia. }
  assert (Hdec : forall (g : Z -> bool) t v, is_int64 t ->
    (b ← (if HasPrefix (dataKey seriesID t, v).1
               ([PrefixData] ++ PutUint64 seriesID)
          then '(_, ts0) ← DecodeDataKey (dataKey seriesID t, v).1;
               x ← DecodeDataValue Float64frombits (dataKey seriesID t, v).2;
               Some (mkDataPoint ts0 x)
          else None);
     if g (Timestamp b) then Some b else None)
    = (x ← DecodeDataValue Float64frombits v;
       if g t then Some (mkDataPoint t x) else None)).
  { intros g t v Ht.
    cbn [fst snd]. rewrite dataKey_prefix at 1.
    rewrite KeySpace.HasPrefix_app.
    rewrite DecodeDataKey_exact by assumption.
    cbn [mbind option_bind].
    destruct (DecodeDataValue Float64frombits v); reflexivity. }
  assert (Hone : forall g : Z -> bool,
    g ts = true -> (forall t, t <> ts -> g t = false) ->
    List.filter (fun p => g (Timestamp p))
      (series_points Float64frombits seriesID db')
    = [mkDataPoint ts value]).
  { intros g Hg Hother. unfold series_points. rewrite filter_omap.
    unfold db'. rewrite omap_Set_same; [| exact Hord |].
    - cbn [omap list_omap].
      rewrite (Hdec g ts (PutUint64 (Float64bits value)) Hts).
      unfold DecodeDataValue. rewrite Uint64_PutUint64_exact by exact Hbits.
      cbn [mbind option_bind]. rewrite Hg, Hround. reflexivity.
    - intros [k v] Hin Hne. cbn [fst] in Hne.
      destruct (HasPrefix k ([PrefixData] ++ PutUint64 seriesID)) eqn:Hp;
        [| cbn [fst]; rewrite Hp; reflexivity].
      unfold well_formed in Hwf. rewrite Forall_forall in Hwf.
      destruct (Hwf _ Hin Hp) as [(t & Ht & Hk) _]. cbn [fst] in Hk. subst k.
      rewrite (Hdec g t v Ht).
      destruct (DecodeDataValue Float64frombits v); [| reflexivity].
      cbn [mbind option_bind]. rewrite Hother; [reflexivity |].
      intros ->. congruence. }
  assert (Hinst : forall t, 0 < t -> 0 < Start (instant t) /\ 0 < End_ (instant t))
    by (intros t Ht; cbn [instant Start End_]; lia).
  split; [auto |]. split; [| split].
  - exists (series_points Float64frombits seriesID db').
    split; [apply Query_all; assumption |].
    apply (Hone (fun t => t =? ts)); [apply Z.eqb_refl |].
    intros t Hne. apply Z.eqb_neq, Hne.
  - intros Hpos.
    rewrite (Query_returns db' seriesID (instant ts) Hid Hts Hord' Hwf')
      by (right; right; apply Hinst, Hpos).
    f_equal. unfold limited. cbn [instant Limit Z.ltb Z.compare].
    apply (Hone (in_range (mkQueryOptions ts ts 0))).
    + change (in_range (instant ts) ts = true).
      rewrite (in_range_instant ts ts Hpos). apply Z.eqb_refl.
    + intros t Hne. change (in_range (instant ts) t = false).
      rewrite (in_range_instant ts t Hpos). apply Z.eqb_neq, Hne.
  - intros t Ht Htpos Hne.
    rewrite (Query_returns db' seriesID (instant t) Hid Ht Hord' Hwf')
      by (right; right; apply Hinst, Htpos).
    rewrite (Query_returns db seriesID (instant t) Hid Ht Hord Hwf)
      by (right; right; apply Hinst, Htpos).
    f_equal. f_equal. unfold series_points. rewrite !filter_omap.
    unfold db'. apply omap_Set_other. intros v.
    rewrite (Hdec (in_range (instant t)) ts v Hts).
    destruct (DecodeDataValue Float64frombits v); [| reflexivity].
    cbn [mbind option_bind]. rewrite in_range_instant by exact Htpos.
    destruct (Z.eqb_spec ts t) as [-> | _]; [congruence | reflexivity].
Qed.

(** A point that is written is read back, whatever its timestamp and
    whatever the series holds: after the write that ends
    [WriteAtWithTagset], whatever the pooled buffers held, [Query]
    without bounds returns exactly one point at that timestamp, with
    the value written, also when the timestamp already held a point;
    for a positive timestamp [Query] for that instant returns exactly
    this point; the points at every other positive instant are returned
    as before; and [WriteRaw] followed by [Flush] leaves the same
    store. *)
Theorem write_then_read (keyBuf valueBuf : list Z) (seriesID ts : Z)
    (value : float) (db : Store) :
  length keyBuf = DataKeySize -> length valueBuf = 8%nat ->
  is_uint64 seriesID -> is_int64 ts ->
  ordered db -> well_formed seriesID db ->
  is_uint64 (Float64bits value) ->
  Float64frombits (Float64bits value) = value ->
  exists db',
    Write.writePoint Float64bits keyBuf valueBuf seriesID value ts db
    = Some db'
    /\ (exists w,
          Write.WriteRaw Float64bits seriesID value ts
            (Write.NewBatchWriter db) = Some w
          /\ Write.Flush w = db')
    /\ (ordered db' /\ well_formed seriesID db')
    /\ (exists points,
          Query Float64frombits db' seriesID (mkQueryOptions 0 0 0)
          = Some points
          /\ List.filter (fun p => Timestamp p =? ts) points
             = [mkDataPoint ts value])
    /\ (0 < ts ->
        Query Float64frombits db' seriesID (instant ts)
        = Some [mkDataPoint ts value])
    /\ (forall t, is_int64 t -> 0 < t -> t <> ts ->
          Query Float64frombits db' seriesID (instant t)
          = Query Float64frombits db seriesID (instant t)).
Proof.
  intros Hk Hv Hid Hts Hord Hwf Hbits Hround.
  destruct (point_stored seriesID ts value db Hid Hts Hord Hwf
              Hbits Hround) as (Hinv & Hall & Hq & Hframe).
  eexists. split; [apply writePoint_buf; assumption |].
  split; [| auto].
  exists (Write.mkBatchWriter db
            [(dataKey seriesID ts, PutUint64 (Float64bits value))]).
  split; [| reflexivity].
  unfold Write.WriteRaw. rewrite EncodeDataKey_buf by (cbv; lia).
  cbn [mbind option_bind]. rewrite EncodeDataValue_buf by (cbv; lia).
  cbn [mbind option_bind].
  change (drop DataKeySize (make DataKeySize)) with (@nil Z).
  change (drop 8 (make 8)) with (@nil Z).
  rewrite !app_nil_r. reflexivity.
Qed.

End WithFloat64bits.

End WithFloatBits.

Lemma db7_facts :
  is_uint64 7 /\ ordered Sample.db7 /\ well_formed 7 Sample.db7
  /\ Forall (fun t => 0 <= t) (series_ts 7 Sample.db7).
Proof.
  split; [unfold is_uint64, two64; lia |].
  split; [unfold ordered, Sample.db7; simpl;
          repeat (constructor; try reflexivity) |].
  split.
  - unfold well_formed, Sample.db7.
    repeat (constructor; [intros _; split;
      [eexists; split; [| reflexivity]; unfold is_int64, two63; lia
      | simpl; lia] |]).
    constructor.
  - assert (E : series_ts 7 Sample.db7 = [3000; 2000; 1000])
      by (vm_compute; reflexivity).
    rewrite E. repeat constructor; lia.
Qed.

Lemma Query_complete_sample :
  (is_uint64 7 /\ is_int64 (End_ Sample.opts7)
   /\ ordered Sample.db7 /\ well_formed 7 Sample.db7
   /\ Forall (fun t => 0 <= t) (series_ts 7 Sample.db7))
  /\ Query Sample.bits0 Sample.db7 7 Sample.opts7
     = Some (limited Sample.opts7
               (List.filter (fun p => in_range Sample.opts7 (Timestamp p))
                  (series_points Sample.bits0 7 Sample.db7))).
Proof.
  destruct db7_facts as (H1 & H2 & H3 & H4).
  assert (H5 : is_int64 (End_ Sample.opts7))
    by (unfold is_int64, two63; simpl; lia).
  split; [auto |].
  exact (Query_complete Sample.bits0 Sample.db7 7 Sample.opts7
           H1 H5 H2 H3 H4).
Defined.

(** Series 7 with a point before the epoch as well. *)
Lemma db7neg_facts :
  ordered ((dataKey 7 (-5), PutUint64 9) :: Sample.db7)
  /\ well_formed 7 ((dataKey 7 (-5), PutUint64 9) :: Sample.db7).
Proof.
  split.
  - unfold ordered, Sample.db7. simpl.
    repeat (constructor; try reflexivity).
  - unfold well_formed, Sample.db7.
    repeat (constructor; [intros _; split;
      [eexists; split; [| reflexivity]; unfold is_int64, two63; lia
      | simpl; lia] |]).
    constructor.
Qed.

Lemma write_then_read_sample :
  (length (make DataKeySize) = DataKeySize /\ length (make 8) = 8%nat
   /\ is_uint64 7 /\ is_int64 1500
   /\ ordered ((dataKey 7 (-5), PutUint64 9) :: Sample.db7)
   /\ well_formed 7 ((dataKey 7 (-5), PutUint64 9) :: Sample.db7)
   /\ is_uint64 ((fun _ : float => 0) 0%float)
   /\ Sample.bits0 ((fun _ : float => 0) 0%float) = 0%float)
  /\ exists db',
       Write.writePoint (fun _ => 0) (make DataKeySize) (make 8) 7 0%float
         1500 ((dataKey 7 (-5), PutUint64 9) :: Sample.db7) = Some db'
       /\ (exists w,
             Write.WriteRaw (fun _ => 0) 7 0%float 1500
               (Write.NewBatchWriter
                  ((dataKey 7 (-5), PutUint64 9) :: Sample.db7)) = Some w
             /\ Write.Flush w = db')
       /\ (ordered db' /\ well_formed 7 db')
       /\ (exists points,
             Query Sample.bits0 db' 7 (mkQueryOptions 0 0 0) = Some points
             /\ List.filter (fun p => Timestamp p =? 1500) points
                = [mkDataPoint 1500 0%float])
       /\ (0 < 1500 ->
           Query Sample.bits0 db' 7 (instant 1500)
           = Some [mkDataPoint 1500 0%float])
       /\ (forall t, is_int64 t -> 0 < t -> t <> 1500 ->
             Query Sample.bits0 db' 7 (instant t)
             = Query Sample.bits0
                 ((dataKey 7 (-5), PutUint64 9) :: Sample.db7) 7 (instant t)).
Proof.
  destruct db7_facts as (H1 & _).
  destruct db7neg_facts as (H2 & H3).
  assert (H5 : is_int64 1500) by (unfold is_int64, two63; lia).
  assert (H6 : is_uint64 ((fun _ : float => 0) 0%float))
    by (unfold is_uint64, two64; lia).
  split; [repeat (split; [first [reflexivity | assumption] |]);
          reflexivity |].
  exact (write_then_read Sample.bits0 (fun _ => 0) (make DataKeySize)
           (make 8) 7 1500 0%float
           ((dataKey 7 (-5), PutUint64 9) :: Sample.db7)
           eq_refl eq_refl H1 H5 H2 H3 H6 eq_refl).
Defined.

End ReadMore.

(** ** The write path, end to end *)

Module WritePath.
Import Int Bytes Codec Badger Read ReadAux.
Import BytesFacts CodecFacts BadgerFacts ReadFacts ReadMore.

(** A key outside the data keys of the series leaves the series
    readable. *)
Lemma readable_Set_other (seriesID : Z) (key val : list Z) (s : Store) :
  HasPrefix key ([PrefixData] ++ PutUint64 seriesID) = false ->
  readable seriesID s -> readable seriesID (Set_ key val s).
Proof.
  intros Hkey (Hord & Hwf). split; [apply Set_ordered, Hord |].
  apply Set_Forall; [| exact Hwf]. cbn [fst]. rewrite Hkey. discriminate.
Qed.

Lemma seriesKey_not_data (id seriesID : Z) :
  HasPrefix (Series.seriesKey id) ([PrefixData] ++ PutUint64 seriesID) = false.
Proof. reflexivity. Qed.

Lemma indexKey_not_data (key : string) (seriesID : Z) :
  HasPrefix (Index.indexKey key) ([PrefixData] ++ PutUint64 seriesID) = false.
Proof. reflexivity. Qed.

Section WithLibraries.
Variable Sum64 : string -> Z.
Variable json_Marshal : Series.SeriesMeta -> option (list Z).
Variable ToBytes : gset Z -> option (list Z).
Variable Float64bits : float -> Z.
Variable Float64frombits : Z -> float.

(** [GetOrCreate] on a series that is neither cached nor stored. *)
Lemma GetOrCreate_new (metric : string) (tags : Tagset.Tagset)
    (r : Series.SeriesRegistry) (value : list Z) :
  let id := Series.ComputeSeriesID Sum64 metric (Tagset.Sort tags) in
  id ∉ Series.cache r ->
  Badger.Get (Series.seriesKey id) (Series.db r) = None ->
  json_Marshal (Series.mkSeriesMeta metric (Tagset.Sort tags)) = Some value ->
  Series.GetOrCreate Sum64 json_Marshal true metric tags r
  = Some ((id, true, None),
          Series.mkSeriesRegistry
            (Set_ (Series.seriesKey id) value (Series.db r))
            ({[id]} ∪ Series.cache r)).
Proof.
  intros id Hout Hget Hm. unfold Series.GetOrCreate. fold id.
  rewrite decide_False by exact Hout.
  rewrite SeriesFacts.EncodeSeriesKey_make. cbn [mbind option_bind].
  rewrite Hget, Hm. reflexivity.
Qed.

(** The store [persistKeys] leaves is the given one after some sets of
    index keys. *)
Lemma persistKeys_shape (P : Store -> Prop) (keys : list string)
    (idx : Index.TagIndex) :
  (forall k d s, P s -> P (Set_ (Index.indexKey k) d s)) ->
  forall txn txn',
    Index.persistKeys ToBytes keys idx txn = Some (inl txn') ->
    P txn -> P txn'.
Proof.
  intros Hstep. induction keys as [| k keys IH]; intros txn txn'.
  - intros [= <-]. auto.
  - cbn [Index.persistKeys]. unfold Index.persistKey.
    destruct (Index.cache idx !! k) as [bm |]; cbn [mbind option_bind].
    + destruct (Index.heap idx !! bm) as [s |]; [| discriminate].
      cbn [mbind option_bind].
      destruct (ToBytes s) as [data |]; cbn [mbind option_bind];
        [| discriminate].
      intros H Htxn. exact (IH _ _ H (Hstep _ _ _ Htxn)).
    + apply IH.
Qed.

Lemma Index_shape (P : Store -> Prop) (commits : bool) (metric : string)
    (tags : Tagset.Tagset) (id : Z) (idx idx' : Index.TagIndex)
    (err : option Series.error) :
  QueryEval.index_wf idx ->
  (forall k d s, P s -> P (Set_ (Index.indexKey k) d s)) ->
  Index.Index_ ToBytes commits metric tags id idx = Some (err, idx') ->
  P (Index.db idx) -> P (Index.db idx').
Proof.
  intros Hwf Hstep. unfold Index.Index_.
  destruct (IndexMore.indexTags_spec (Index.postingKeys metric tags) id idx
              Hwf) as (idx1 & -> & _ & Hdb & _).
  cbn [mbind option_bind]. unfold Index.persist.
  destruct (Index.persistKeys ToBytes (Index.postingKeys metric tags) idx1
              (Index.db idx1)) as [[txn' | e] |] eqn:Hp;
    cbn [mbind option_bind]; [| | discriminate].
  - destruct commits; intros [= <- <-]; cbn [Index.db]; rewrite <- Hdb.
    + apply (persistKeys_shape P _ _ Hstep _ _ Hp).
    + auto.
  - intros [= <- <-]. rewrite <- Hdb. auto.
Qed.


(** The first write of a series, at any timestamp, when its three
    transactions commit: [WriteAtWithTagset] returns no error; the
    series is registered, its record being stored; the cached posting
    of the metric and of every tag holds the series id and is stored
    encoded under its index key; [Query] without bounds returns exactly
    one point at the timestamp written, with the value written; and for
    a positive timestamp [Query] for that instant returns exactly the
    point written. *)
Theorem first_write (keyBuf valueBuf : list Z) (metric : string)
    (value : float) (tagset : Tagset.Tagset) (ts : Z)
    (d : Database.Database) (meta : list Z) :
  let id := Series.ComputeSeriesID Sum64 metric (Tagset.Sort tagset) in
  length keyBuf = DataKeySize -> length valueBuf = 8%nat ->
  is_uint64 id -> is_int64 ts ->
  readable id (Database.store d) ->
  QueryEval.index_wf (Database.index d) ->
  id ∉ Database.series d ->
  Badger.Get (Series.seriesKey id) (Database.store d) = None ->
  json_Marshal (Series.mkSeriesMeta metric (Tagset.Sort tagset))
    = Some meta ->
  (forall s, is_Some (ToBytes s)) ->
  is_uint64 (Float64bits value) ->
  Float64frombits (Float64bits value) = value ->
  exists d',
    Database.WriteAtWithTagset Sum64 json_Marshal ToBytes Float64bits
      (true, true, true) keyBuf valueBuf metric value tagset ts d
    = Some (None, d')
    /\ (id ∈ Database.series d'
        /\ Badger.Get (Series.seriesKey id) (Database.store d') = Some meta)
    /\ (forall key, key ∈ Index.postingKeys metric (Tagset.Sort tagset) ->
          exists s,
            QueryEval.cached (Database.index d') key = Some s /\ id ∈ s
            /\ Badger.Get (Index.indexKey key) (Database.store d')
               = ToBytes s)
    /\ (exists points,
          Query Float64frombits (Database.store d') id (mkQueryOptions 0 0 0)
          = Some points
          /\ List.filter (fun p => Timestamp p =? ts) points
             = [mkDataPoint ts value])
    /\ (0 < ts ->
        Query Float64frombits (Database.store d') id (instant ts)
        = Some [mkDataPoint ts value]).
Proof.
  intros id Hk Hv Hid Hts Hread Hwf Hout Hget Hm Htot Hbits Hround.
  unfold Database.WriteAtWithTagset.
  rewrite (GetOrCreate_new metric tagset (Database.registry d) meta
             Hout Hget Hm).
  fold id. cbn [mbind option_bind Series.db Series.cache].
  cbn [Database.registry Series.db Series.cache].
  set (store1 := Set_ (Series.seriesKey id) meta (Database.store d)).
  set (idx1 := Database.index
                 (Database.mkDatabase store1 ({[id]} ∪ Database.series d)
                    (Database.postings d) (Database.heap d))).
  assert (Hwf1 : QueryEval.index_wf idx1) by exact Hwf.
  assert (Hread1 : readable id store1)
    by (apply readable_Set_other; [apply seriesKey_not_data | exact Hread]).
  destruct (IndexMore.Index_spec ToBytes true metric (Tagset.Sort tagset) id
              idx1 Hwf1) as (err & idx2 & HI & Hwf2 & Hc & Herr).
  rewrite HI. cbn [mbind option_bind].
  destruct err as [e |].
  { exfalso. destruct Herr as [_ [[_ Hf] | (_ & key & s & _ & _ & Hs)]];
      [discriminate |].
    destruct (Htot s) as [data Hd]. congruence. }
  destruct Herr as (_ & Hset & Hframe).
  assert (Hread2 : readable id (Index.db idx2)).
  { apply (Index_shape (readable id) true metric (Tagset.Sort tagset) id
             idx1 idx2 None Hwf1); [| exact HI | exact Hread1].
    intros k data s. apply readable_Set_other, indexKey_not_data. }
  cbn [Database.store Database.series Database.postings Database.heap].
  rewrite (writePoint_buf Float64bits keyBuf valueBuf id value ts
             (Index.db idx2) Hk Hv).
  cbn [mbind option_bind].
  eexists. split; [reflexivity |].
  cbn [Database.store Database.series Database.index Database.postings
       Database.heap].
  destruct Hread2 as (Hord2 & Hwfd2).
  destruct (point_stored Float64frombits Float64bits id ts value
              (Index.db idx2) Hid Hts Hord2 Hwfd2 Hbits Hround)
    as (_ & Hall & Hq & _).
  split; [split; [set_solver |] | split; [| split; [exact Hall | exact Hq]]].
  - rewrite Get_Set_ne by (intros E; apply (f_equal head) in E; discriminate).
    rewrite Hframe
      by (intros key _ E; apply (f_equal head) in E; discriminate).
    apply Get_Set_eq.
  - intros key Hin.
    assert (Hck : QueryEval.cached idx2 key
                  = Some ({[id]} ∪ default ∅ (QueryEval.cached idx1 key)))
      by (rewrite Hc, decide_True by exact Hin; reflexivity).
    destruct (Hset key _ Hin Hck) as (data & Hb & Hg).
    exists ({[id]} ∪ default ∅ (QueryEval.cached idx1 key)).
    split; [exact Hck |]. split; [set_solver |].
    rewrite Get_Set_ne by (intros E; apply (f_equal head) in E; discriminate).
    congruence.
Qed.

End WithLibraries.

Lemma first_write_sample :
  let id := Series.ComputeSeriesID Sample.lengthHash "cpu"
              (Tagset.Sort [Tagset.mkTag "env" "prod"]) in
  (length (make DataKeySize) = DataKeySize /\ length (make 8) = 8%nat
   /\ is_uint64 id /\ is_int64 0
   /\ readable id (Database.store Database.emptyDatabase)
   /\ QueryEval.index_wf (Database.index Database.emptyDatabase)
   /\ (id ∉ Database.series Database.emptyDatabase)
   /\ Badger.Get (Series.seriesKey id)
        (Database.store Database.emptyDatabase) = None
   /\ Sample.metricBytes
        (Series.mkSeriesMeta "cpu" (Tagset.Sort [Tagset.mkTag "env" "prod"]))
      = Some (bytesOf "cpu")
   /\ (forall s, is_Some (QueryEval.idsToBytes s))
   /\ is_uint64 ((fun _ : float => 0) 0%float)
   /\ Sample.bits0 ((fun _ : float => 0) 0%float) = 0%float)
  /\ exists d',
       Database.WriteAtWithTagset Sample.lengthHash Sample.metricBytes
         QueryEval.idsToBytes (fun _ => 0) (true, true, true)
         (make DataKeySize) (make 8) "cpu" 0%float
         [Tagset.mkTag "env" "prod"] 0 Database.emptyDatabase
       = Some (None, d')
       /\ (id ∈ Database.series d'
           /\ Badger.Get (Series.seriesKey id) (Database.store d')
              = Some (bytesOf "cpu"))
       /\ (forall key,
             key ∈ Index.postingKeys "cpu"
                     (Tagset.Sort [Tagset.mkTag "env" "prod"]) ->
             exists s,
               QueryEval.cached (Database.index d') key = Some s /\ id ∈ s
               /\ Badger.Get (Index.indexKey key) (Database.store d')
                  = QueryEval.idsToBytes s)
       /\ (exists points,
             Query Sample.bits0 (Database.store d') id (mkQueryOptions 0 0 0)
             = Some points
             /\ List.filter (fun p => Timestamp p =? 0) points
                = [mkDataPoint 0 0%float])
       /\ (0 < 0 ->
           Query Sample.bits0 (Database.store d') id (instant 0)
           = Some [mkDataPoint 0 0%float]).
Proof.
  intros id.
  assert (Eid : id = 10) by reflexivity.
  assert (H1 : is_uint64 id) by (rewrite Eid; unfold is_uint64, two64; lia).
  assert (H2 : is_int64 0) by (unfold is_int64, two63; lia).
  assert (H3 : readable id (Database.store Database.emptyDatabase))
    by (split; constructor).
  assert (H4 : QueryEval.index_wf (Database.index Database.emptyDatabase))
    by exact IndexMore.emptyIndex_wf.
  assert (H5 : id ∉ Database.series Database.emptyDatabase)
    by (simpl; set_solver).
  assert (H6 : forall s, is_Some (QueryEval.idsToBytes s))
    by (intros s; unfold QueryEval.idsToBytes; eauto).
  assert (H7 : is_uint64 ((fun _ : float => 0) 0%float))
    by (unfold is_uint64, two64; lia).
  split.
  - repeat (split; [first [reflexivity | assumption] |]). reflexivity.
  - exact (first_write Sample.lengthHash Sample.metricBytes
             QueryEval.idsToBytes (fun _ => 0) Sample.bits0
             (make DataKeySize) (make 8) "cpu" 0%float
             [Tagset.mkTag "env" "prod"] 0 Database.emptyDatabase
             (bytesOf "cpu") eq_refl eq_refl H1 H2 H3 H4 H5
             eq_refl eq_refl H6 H7 eq_refl).
Defined.

End WritePath.

(** ** Queries over several series *)

Module ExecFacts.
Import Index QueryEval Exec.

Lemma Iterator_elem (s : gset Z) (sid : Z) : sid ∈ Iterator s <-> sid ∈ s.
Proof.
  unfold Iterator. rewrite merge_sort_Permutation. apply elem_of_elements.
Qed.

Lemma Iterator_NoDup (s : gset Z) : NoDup (Iterator s).
Proof.
  unfold Iterator. rewrite merge_sort_Permutation. apply NoDup_elements.
Qed.

Section WithLibraries.
Variable ReadFrom : list Z -> option (gset Z).
Variable Float64frombits : Z -> float.

(** The loop over the ids: every id with points in range gets its
    points, and no other entry changes. *)
Lemma gather_spec (db : Badger.Store) (opts : Read.QueryOptions)
    (ids : list Z) :
  NoDup ids ->
  (forall sid, sid ∈ ids ->
     is_Some (Read.Query Float64frombits db sid opts)) ->
  forall results, exists m,
    gather Float64frombits db opts ids results = Some m
    /\ forall sid,
         m !! sid
         = match (if decide (sid ∈ ids)
                  then Read.Query Float64frombits db sid opts else None) with
           | Some points =>
               if decide (0 < length points)%nat then Some points
               else results !! sid
           | None => results !! sid
           end.
Proof.
  induction ids as [| a ids IH]; intros Hnd Hq results.
  - exists results. split; [reflexivity |]. intros sid.
    rewrite decide_False by apply not_elem_of_nil. reflexivity.
  - apply NoDup_cons in Hnd as [Ha Hnd].
    destruct (Hq a) as [pa Hpa]; [left |].
    cbn [gather]. rewrite Hpa. cbn [mbind option_bind].
    destruct (IH Hnd (fun sid H => Hq sid (list_elem_of_further _ _ _ H))
                (if decide (0 < length pa)%nat then <[a := pa]> results
                 else results)) as (m & Hm & Hlook).
    exists m. split; [exact Hm |]. intros sid. rewrite Hlook.
    destruct (decide (sid = a)) as [-> | Hne].
    + rewrite (decide_False (P := a ∈ ids)) by exact Ha.
      rewrite (decide_True (P := a ∈ a :: ids)) by left. rewrite Hpa.
      destruct (decide (0 < length pa)%nat); [| reflexivity].
      apply lookup_insert_eq.
    + assert (Hsame : (if decide (0 < length pa)%nat
                       then <[a := pa]> results else results) !! sid
                      = results !! sid).
      { destruct (decide (0 < length pa)%nat); [| reflexivity].
        apply lookup_insert_ne. congruence. }
      rewrite Hsame.
      destruct (decide (sid ∈ ids)) as [Hin | Hout].
      * rewrite decide_True by (right; exact Hin). reflexivity.
      * rewrite decide_False; [reflexivity |].
        intros [E | E]%elem_of_cons; contradiction.
Qed.

(** [Execute] on a well-formed index, when [Query] does not panic
    on the series selected: the result maps a series id to its points
    exactly when the filter (or, without a filter, the metric) selects
    the series and [Query] returns at least one point for it, and the
    points are those [Query] returns; the store and the postings are
    not changed.  [QueryByMetric] is [Execute] without a filter. *)
Theorem Execute_selects (q : Query) (idx : TagIndex) (s : gset Z) :
  index_wf idx ->
  selected ReadFrom q idx = Some s ->
  (forall sid, sid ∈ s ->
     is_Some (Read.Query Float64frombits (db idx) sid (options q))) ->
  exists m idx',
    Execute ReadFrom Float64frombits q idx = Some (inl m, idx')
    /\ db idx' = db idx
    /\ (forall key, posting ReadFrom idx' key = posting ReadFrom idx key)
    /\ (forall sid points,
          m !! sid = Some points
          <-> sid ∈ s /\ points <> []
              /\ Read.Query Float64frombits (db idx) sid (options q)
                 = Some points)
    /\ QueryByMetric ReadFrom Float64frombits (metric q) (options q) idx
       = Execute ReadFrom Float64frombits
           (mkQuery (metric q) None (options q)) idx.
Proof.
  intros Hwf Hsel Hq.
  assert (Hres : exists bm idx',
    resolveFilter ReadFrom (metric q) (filter q) idx = Some (inl bm, idx')
    /\ db idx' = db idx
    /\ (forall key, posting ReadFrom idx' key = posting ReadFrom idx key)
    /\ heap idx' !! bm = Some s).
  { unfold resolveFilter, selected in *. destruct (filter q) as [f |].
    - destruct (IndexMore.evalFilter_spec ReadFrom (metric q) f idx Hwf)
        as (res & idx' & He & _ & Hdb & _ & Hp & Hr).
      rewrite Hsel in Hr. destruct Hr as (bm & -> & Hbm). eauto 10.
    - destruct (IndexMore.getBitmap_spec ReadFrom (metric q) idx Hwf)
        as (res & idx' & He & _ & Hdb & _ & Hp & Hr).
      rewrite Hsel in Hr. destruct Hr as (bm & -> & Hbm & _).
      unfold GetAllSeriesIDs. rewrite He. eauto 10. }
  destruct Hres as (bm & idx' & Hr & Hdb & Hp & Hbm).
  destruct (gather_spec (db idx) (options q) (Iterator s) (Iterator_NoDup s)
              (fun sid H => Hq sid (proj1 (Iterator_elem s sid) H)) ∅)
    as (m & Hm & Hlook).
  exists m, idx'. unfold Execute. rewrite Hr. cbn [mbind option_bind].
  unfold collectSeries. rewrite Hbm. cbn [mbind option_bind].
  rewrite Hdb, Hm. cbn [mbind option_bind].
  split; [reflexivity |]. split; [reflexivity |]. split; [exact Hp |].
  split; [| reflexivity].
  intros sid points. rewrite Hlook, lookup_empty. split.
  - destruct (decide (sid ∈ Iterator s)) as [Hin | Hout]; [| discriminate].
    destruct (Read.Query Float64frombits (db idx) sid (options q))
      as [pts |]; [| discriminate].
    destruct (decide (0 < length pts)%nat) as [Hlen | _]; [| discriminate].
    intros [= <-]. apply Iterator_elem in Hin.
    split; [exact Hin |]. split; [| reflexivity].
    intros ->. simpl in Hlen. lia.
  - intros (Hin & Hne & Hquery).
    rewrite decide_True by (apply Iterator_elem; exact Hin).
    rewrite Hquery. rewrite decide_True; [reflexivity |].
    destruct points; [contradiction | simpl; lia].
Qed.

End WithLibraries.

Lemma idx7_facts :
  index_wf Sample.idx7
  /\ selected idsFromBytes Sample.query7 Sample.idx7 = Some {[7]}
  /\ forall sid, sid ∈ ({[7]} : gset Z) ->
       is_Some (Read.Query Sample.bits0 (db Sample.idx7) sid
                  (options Sample.query7)).
Proof.
  split; [| split].
  - unfold index_wf, Sample.idx7. cbn [cache heap]. split.
    + intros key bm [_ <-]%lookup_singleton_Some.
      exists {[7]}. apply lookup_singleton_eq.
    + intros k1 k2 bm [<- _]%lookup_singleton_Some
        [<- _]%lookup_singleton_Some. reflexivity.
  - unfold selected, posting. cbn [filter Sample.query7 metric].
    cbn [cache heap Sample.idx7].
    rewrite lookup_singleton_eq. apply lookup_singleton_eq.
  - intros sid ->%elem_of_singleton. eexists. vm_compute. reflexivity.
Qed.

Lemma Execute_selects_sample :
  (index_wf Sample.idx7
   /\ selected idsFromBytes Sample.query7 Sample.idx7 = Some {[7]}
   /\ forall sid, sid ∈ ({[7]} : gset Z) ->
        is_Some (Read.Query Sample.bits0 (db Sample.idx7) sid
                   (options Sample.query7)))
  /\ exists m idx',
       Execute idsFromBytes Sample.bits0 Sample.query7 Sample.idx7
       = Some (inl m, idx')
       /\ db idx' = db Sample.idx7
       /\ (forall key, posting idsFromBytes idx' key
                       = posting idsFromBytes Sample.idx7 key)
       /\ (forall sid points,
             m !! sid = Some points
             <-> sid ∈ ({[7]} : gset Z) /\ points <> []
                 /\ Read.Query Sample.bits0 (db Sample.idx7) sid
                      (options Sample.query7) = Some points)
       /\ QueryByMetric idsFromBytes Sample.bits0 (metric Sample.query7)
            (options Sample.query7) Sample.idx7
          = Execute idsFromBytes Sample.bits0
              (mkQuery (metric Sample.query7) None (options Sample.query7))
              Sample.idx7.
Proof.
  destruct idx7_facts as (H1 & H2 & H3).
  split; [auto |].
  exact (Execute_selects idsFromBytes Sample.bits0 Sample.query7 Sample.idx7
           {[7]} H1 H2 H3).
Defined.

End ExecFacts.
